(** * Symmetries: crystal symmetry detection and application (JDFTx)

    A shallow embedding of [Symmetries.cpp] (electronic/Symmetries.cpp of
    JDFTx) and the properties of its symmetry pipeline.

    Conventions of the embedding:
    - [double] is idealised as the exact rationals [Q] (no rounding, no NaN);
      structural equality on [Q] is used where the code computes the very
      same expression, [Qeq] where only the value is meant;
    - [symmetrize_sub] and [setPhi], which do nothing with [double]s but
      add, subtract, multiply, divide and compare them, are written over
      these operations ([DoubleOps]) and are run both in exact arithmetic
      and in binary64, with its rounding, infinities and NaN;
    - [int] and [unsigned] are [Z] and [nat]; signed overflow is undefined
      behaviour in C++ and is outside the model;
    - [std::vector] is [list], read with [!!] and written with [<[i:=x]>];
      an access out of range is undefined behaviour in C++: the theorems
      that depend on an access state the range as a hypothesis;
    - [die] ends the run: a function that may call it returns [Died];
      [logPrintf] appends its format string to the log of the world the
      function runs in;
    - the host path is modelled ([GPU_ENABLED] undefined), and the classes
      that [threadLaunch] spreads over threads are visited in order;
    - matrix3.h, GridInfo.h and Symmetries.h are not part of the sources:
      the matrix arithmetic is written out from its usual meaning, and
      [nrm2], [circDistanceSquared], [fullRindex] and [fullGindex] are
      parameters. *)

From Stdlib Require Import ZArith QArith Qround Qabs String Lia Lqa.
From Stdlib Require SpecFloat.
From stdpp Require Import base list.

Local Open Scope Z_scope.

(** ** Scalars: the two instantiations of the templates of matrix3.h *)

Class Scalar (A : Type) := {
  s_zero : A;
  s_one  : A;
  s_add  : A -> A -> A;
  s_sub  : A -> A -> A;
  s_mul  : A -> A -> A;
  s_eqb  : A -> A -> bool
}.

#[export] Instance Scalar_int : Scalar Z :=
  {| s_zero := 0; s_one := 1; s_add := Z.add; s_sub := Z.sub; s_mul := Z.mul;
     s_eqb := Z.eqb |}.

#[export] Instance Scalar_double : Scalar Q :=
  {| s_zero := 0%Q; s_one := 1%Q; s_add := Qplus; s_sub := Qminus;
     s_mul := Qmult; s_eqb := Qeq_bool |}.

(** ** vector3 and matrix3 *)

(** The three indices 0, 1, 2 of a [vector3] or of a row or column of a
    [matrix3]. *)
Inductive idx3 : Set := X0 | X1 | X2.

Definition all_idx3 : list idx3 := [X0; X1; X2].

(** [(k+1)%3] *)
Definition next3 (k : idx3) : idx3 :=
  match k with X0 => X1 | X1 => X2 | X2 => X0 end.

Record vector3 (A : Type) : Type := mkV { vx : A; vy : A; vz : A }.
Arguments mkV {A} _ _ _.
Arguments vx {A} _.
Arguments vy {A} _.
Arguments vz {A} _.

(** A [matrix3] is stored by rows, as in matrix3.h ([v[i][j]]). *)
Definition matrix3 (A : Type) : Type := vector3 (vector3 A).

(** [v[i]] *)
Definition vget {A : Type} (v : vector3 A) (i : idx3) : A :=
  match i with X0 => vx v | X1 => vy v | X2 => vz v end.

(** [v[i] = a] *)
Definition vset {A : Type} (v : vector3 A) (i : idx3) (a : A) : vector3 A :=
  match i with
  | X0 => mkV a (vy v) (vz v)
  | X1 => mkV (vx v) a (vz v)
  | X2 => mkV (vx v) (vy v) a
  end.

Definition vbuild {A : Type} (f : idx3 -> A) : vector3 A :=
  mkV (f X0) (f X1) (f X2).

(** [m(i,j)] *)
Definition mget {A : Type} (m : matrix3 A) (i j : idx3) : A :=
  vget (vget m i) j.

(** [m(i,j) = a] *)
Definition mset {A : Type} (m : matrix3 A) (i j : idx3) (a : A) : matrix3 A :=
  vset m i (vset (vget m i) j a).

Definition mbuild {A : Type} (f : idx3 -> idx3 -> A) : matrix3 A :=
  vbuild (fun i => vbuild (f i)).

Definition vmap {A B : Type} (f : A -> B) (v : vector3 A) : vector3 B :=
  mkV (f (vx v)) (f (vy v)) (f (vz v)).

Definition mmap {A B : Type} (f : A -> B) (m : matrix3 A) : matrix3 B :=
  vmap (vmap f) m.

Section Algebra.
Context {A : Type} `{Scalar A}.

(** Modelled from the spec: matrix3.h is missing; "3x3 matrix and 3-vector
    arithmetic (real and integer valued)".  The zero vector is what the
    default constructor [vector3<>()] builds. *)
Definition vzero : vector3 A := mkV s_zero s_zero s_zero.

(** Modelled from the spec: matrix3.h is missing; component-wise sum of
    two 3-vectors. *)
Definition vadd (a b : vector3 A) : vector3 A :=
  vbuild (fun i => s_add (vget a i) (vget b i)).

(** Modelled from the spec: matrix3.h is missing; component-wise
    difference of two 3-vectors. *)
Definition vsub (a b : vector3 A) : vector3 A :=
  vbuild (fun i => s_sub (vget a i) (vget b i)).

(** Modelled from the spec: matrix3.h is missing; a 3-vector scaled by a
    scalar. *)
Definition vscale (s : A) (a : vector3 A) : vector3 A :=
  vbuild (fun i => s_mul s (vget a i)).

(** Modelled from the spec: matrix3.h is missing; the dot product of two
    3-vectors, summed in index order. *)
Definition vdot (a b : vector3 A) : A :=
  s_add (s_add (s_mul (vx a) (vx b)) (s_mul (vy a) (vy b)))
        (s_mul (vz a) (vz b)).

(** Modelled from the spec: matrix3.h is missing; the constructor
    [matrix3<T>(d0,d1,d2)] of a diagonal matrix. *)
Definition mdiag (d0 d1 d2 : A) : matrix3 A :=
  mkV (mkV d0 s_zero s_zero) (mkV s_zero d1 s_zero) (mkV s_zero s_zero d2).

(** Modelled from the spec: matrix3.h is missing; [Diag(v)]. *)
Definition Diag (v : vector3 A) : matrix3 A := mdiag (vx v) (vy v) (vz v).

(** [matrix3<T>(1,1,1)] *)
Definition identity : matrix3 A := mdiag s_one s_one s_one.

(** Modelled from the spec: matrix3.h is missing; the transpose,
    written [~m] in the source. *)
Definition mtrans (m : matrix3 A) : matrix3 A :=
  mbuild (fun i j => mget m j i).

Definition mcol (m : matrix3 A) (j : idx3) : vector3 A :=
  vbuild (fun i => mget m i j).

(** Modelled from the spec: matrix3.h is missing; matrix times vector. *)
Definition mvmul (m : matrix3 A) (v : vector3 A) : vector3 A :=
  vbuild (fun i => vdot (vget m i) v).

(** Modelled from the spec: matrix3.h is missing; matrix product
    ("supports multiplication"). *)
Definition mmul (m n : matrix3 A) : matrix3 A :=
  mbuild (fun i j => vdot (vget m i) (mcol n j)).

(** Modelled from the spec: matrix3.h is missing; entry-wise difference. *)
Definition msub (m n : matrix3 A) : matrix3 A :=
  mbuild (fun i j => s_sub (mget m i j) (mget n i j)).

Definition veqb (a b : vector3 A) : bool :=
  s_eqb (vx a) (vx b) && s_eqb (vy a) (vy b) && s_eqb (vz a) (vz b).

(** Modelled from the spec: matrix3.h is missing; [operator==] on
    matrices compares all nine entries. *)
Definition meqb (m n : matrix3 A) : bool :=
  veqb (vx m) (vx n) && veqb (vy m) (vy n) && veqb (vz m) (vz n).
End Algebra.

(** An integer matrix used where the source mixes it with a [double] one:
    C++ converts the [int] entries. *)
Definition m_i2d (m : matrix3 Z) : matrix3 Q := mmap inject_Z m.

(** ** Constants and the primitives of the missing headers *)

(** [#define MIN_KPT_DISTANCE 1e-8] *)
Definition MIN_KPT_DISTANCE : Q := 1 # 100000000.
(** [#define MIN_SYMM_TOL 1e-4] *)
Definition MIN_SYMM_TOL : Q := 1 # 10000.

(** [a < b] on [double], as a test. *)
Definition Qltb (a b : Q) : bool := negb (Qle_bool b a).

(** ** The arithmetic of [double]

    [symmetrize_sub] and [setPhi] only add, subtract, multiply, divide and
    compare [double]s.  They are written over these operations, which have
    two instances: the exact rationals, and binary64 with rounding to
    nearest even, infinities and NaN (the functions of [SpecFloat] at
    precision 53 and maximal exponent 1024). *)
Class DoubleOps (D : Type) := {
  (** [0.0] and [1.0] *)
  d_zero : D;
  d_one : D;
  d_add : D -> D -> D;
  d_sub : D -> D -> D;
  d_mul : D -> D -> D;
  d_div : D -> D -> D;
  (** unary minus *)
  d_opp : D -> D;
  (** [fabs] *)
  d_abs : D -> D;
  (** [a < b] *)
  d_ltb : D -> D -> bool;
  (** the conversion of an [int] that is not negative *)
  d_of_nat : nat -> D;
  (** a decimal literal of the source, given as a fraction *)
  d_lit : Q -> D
}.

#[export] Instance DoubleOps_exact : DoubleOps Q :=
  {| d_zero := 0%Q; d_one := 1%Q; d_add := Qplus; d_sub := Qminus;
     d_mul := Qmult; d_div := Qdiv; d_opp := Qopp; d_abs := Qabs;
     d_ltb := Qltb; d_of_nat := fun n => inject_Z (Z.of_nat n);
     d_lit := fun q => q |}.

Definition binary64 : Type := SpecFloat.spec_float.

(** The conversion of an integer, exact below [2^53] in absolute value. *)
Definition b64_of_Z (z : Z) : binary64 :=
  SpecFloat.binary_normalize 53 1024 z 0 false.

(** The double nearest to the fraction [q], for a numerator and a
    denominator below [2^53]: their correctly rounded quotient. *)
Definition b64_lit (q : Q) : binary64 :=
  SpecFloat.SFdiv 53 1024 (b64_of_Z (Qnum q)) (b64_of_Z (Zpos (Qden q))).

#[export] Instance DoubleOps_binary64 : DoubleOps binary64 :=
  {| d_zero := SpecFloat.S754_zero false;
     d_one := b64_of_Z 1;
     d_add := SpecFloat.SFadd 53 1024;
     d_sub := SpecFloat.SFsub 53 1024;
     d_mul := SpecFloat.SFmul 53 1024;
     d_div := SpecFloat.SFdiv 53 1024;
     d_opp := SpecFloat.SFopp;
     d_abs := SpecFloat.SFabs;
     d_ltb := SpecFloat.SFltb;
     d_of_nat := fun n => b64_of_Z (Z.of_nat n);
     d_lit := b64_lit |}.

(** The functions of matrix3.h and GridInfo.h that Symmetries.cpp calls and
    whose bodies are not part of the sources: they are parameters of the
    development. *)
Class Prims := {
  (** [nrm2] of a real matrix (the spec: "Frobenius-style norm") *)
  nrm2 : matrix3 Q -> Q;
  (** [circDistanceSquared] (the spec: a "circular distance" that accounts
      for periodic wraparound) *)
  circDistanceSquared : vector3 Q -> vector3 Q -> Q;
  (** [gInfo.fullRindex(r)]: the flat index of a grid point *)
  fullRindex : vector3 Z -> vector3 Z -> nat;
  (** [gInfo.fullGindex(r)]: the flat index, wrapping negative coordinates *)
  fullGindex : vector3 Z -> vector3 Z -> nat
}.

(** ** The data the symmetry engine reads and owns *)

Inductive SymmetryMode : Set :=
  SymmetriesNone | SymmetriesAutomatic | SymmetriesManual.

Definition mode_eqb (a b : SymmetryMode) : bool :=
  match a, b with
  | SymmetriesNone, SymmetriesNone
  | SymmetriesAutomatic, SymmetriesAutomatic
  | SymmetriesManual, SymmetriesManual => true
  | _, _ => false
  end.

(** [SpeciesInfo]: the fields Symmetries.cpp reads. *)
Record SpeciesInfo : Type := {
  sp_name : string;
  atpos : list (vector3 Q);
  moveScale : list Q
}.

(** [QuantumNumber]: a k-point and its weight. *)
Record QuantumNumber : Type := { q_k : vector3 Q; q_weight : Q }.

(** [GridInfo]: lattice vectors [R], sample counts [S], and [nr]. *)
Record GridInfo : Type := {
  gInfo_R : matrix3 Q;
  gInfo_S : vector3 Z;
  gInfo_nr : nat
}.

(** [Everything]: [e->gInfo], [e->iInfo.species], [e->eInfo.qnums]. *)
Record Everything : Type := {
  gInfo : GridInfo;
  species : list SpeciesInfo;
  qnums : list QuantumNumber
}.

(** The members of [class Symmetries]. *)
Record Symmetries : Type := mkSymmetries {
  mode : SymmetryMode;
  shouldPrintMatrices : bool;
  shouldMoveAtoms : bool;
  sym : list (matrix3 Z);
  symMesh : list (matrix3 Z);
  atomMap : list (list (list nat));
  nSymmIndex : nat;
  symmIndex : list nat
}.

Definition set_sym (l : list (matrix3 Z)) (s : Symmetries) : Symmetries :=
  mkSymmetries (mode s) (shouldPrintMatrices s) (shouldMoveAtoms s)
    l (symMesh s) (atomMap s) (nSymmIndex s) (symmIndex s).

Definition set_symMesh (l : list (matrix3 Z)) (s : Symmetries) : Symmetries :=
  mkSymmetries (mode s) (shouldPrintMatrices s) (shouldMoveAtoms s)
    (sym s) l (atomMap s) (nSymmIndex s) (symmIndex s).

Definition set_atomMap (l : list (list (list nat))) (s : Symmetries)
  : Symmetries :=
  mkSymmetries (mode s) (shouldPrintMatrices s) (shouldMoveAtoms s)
    (sym s) (symMesh s) l (nSymmIndex s) (symmIndex s).

Definition set_symmIndex (l : list nat) (s : Symmetries) : Symmetries :=
  mkSymmetries (mode s) (shouldPrintMatrices s) (shouldMoveAtoms s)
    (sym s) (symMesh s) (atomMap s) (length l) l.

(** ** The monad of the non-pure member functions *)

(** What a run is left with: a value, the fatal exit of [die], or a loop
    that was cut by the step bound of the model. *)
Inductive result (A : Type) : Type :=
| Ok (a : A)
| Died (msg : string)
| OutOfFuel.
Arguments Ok {A} _.
Arguments Died {A} _.
Arguments OutOfFuel {A}.

(** The object itself and [globalLog]. *)
Record World : Type := mkWorld { self : Symmetries; globalLog : list string }.

Definition M (A : Type) : Type := World -> result (A * World).

Definition ret {A : Type} (a : A) : M A := fun w => Ok (a, w).

Definition bind {A B : Type} (c : M A) (k : A -> M B) : M B :=
  fun w =>
    match c w with
    | Ok (a, w') => k a w'
    | Died msg => Died msg
    | OutOfFuel => OutOfFuel
    end.

Declare Scope M_scope.
Delimit Scope M_scope with M.
Notation "x <- c ;; k" := (bind c (fun x => k))
  (at level 100, c at next level, right associativity) : M_scope.
Notation "c ;;; k" := (bind c (fun _ => k))
  (at level 100, right associativity) : M_scope.

Definition this : M Symmetries := fun w => Ok (self w, w).

Definition update (f : Symmetries -> Symmetries) : M unit :=
  fun w => Ok (tt, mkWorld (f (self w)) (globalLog w)).

Definition logPrintf (fmt : string) : M unit :=
  fun w => Ok (tt, mkWorld (self w) (globalLog w ++ [fmt])).

Definition die {A : Type} (msg : string) : M A := fun _ => Died msg.

Definition when (b : bool) (c : M unit) : M unit :=
  if b then c else ret tt.

(** [for(x: l) body(x)] *)
Fixpoint forM_ {A : Type} (body : A -> M unit) (l : list A) : M unit :=
  match l with
  | [] => ret tt
  | x :: rest => (body x ;;; forM_ body rest)%M
  end.

(** A loop that fills one slot of a vector per iteration, in order. *)
Fixpoint mapM {A B : Type} (body : A -> M B) (l : list A) : M (list B) :=
  match l with
  | [] => ret []
  | x :: rest =>
      (y <- body x ;; ys <- mapM body rest ;; ret (y :: ys))%M
  end.

(** Reading a vector at an index; the default stands for the undefined
    value of an access out of range. *)
Definition nth_nat (l : list nat) (i : nat) : nat := default 0%nat (l !! i).
Definition nth_Q (l : list Q) (i : nat) : Q := default 0%Q (l !! i).
Definition nth_D {D : Type} `{DoubleOps D} (l : list D) (i : nat) : D :=
  default d_zero (l !! i).
Definition nth_vec (l : list (vector3 Q)) (i : nat) : vector3 Q :=
  default vzero (l !! i).
Definition nth_mat (l : list (matrix3 Z)) (i : nat) : matrix3 Z :=
  default (mdiag 0 0 0) (l !! i).

Section Engine.
Context `{P : Prims}.

(** *** kpointsEquivalent *)

(** [for(m: sym) if(circDistanceSquared((~m)*k1,k2)<MIN_KPT_DISTANCE) return true;
    return false;] *)
Fixpoint anyImage (k1 k2 : vector3 Q) (l : list (matrix3 Z)) : bool :=
  match l with
  | [] => false
  | m :: rest =>
      if Qltb (circDistanceSquared (mvmul (m_i2d (mtrans m)) k1) k2)
              MIN_KPT_DISTANCE
      then true
      else anyImage k1 k2 rest
  end.

Definition kpointsEquivalent (s : Symmetries) (k1 k2 : vector3 Q) : bool :=
  if mode_eqb (mode s) SymmetriesNone then false
  else anyImage k1 k2 (sym s).

(** *** symmetrize (scalar fields) *)

(** [for(j=0; j<nRot; j++) xSum += x[symmIndex[nRot*i+j]];] from [xSum=0.0] *)
Definition classSum {D : Type} `{DoubleOps D} (nRot : nat) (x : list D)
  (symmIndex : list nat) (i : nat) : D :=
  fold_left (fun xSum j => d_add xSum (nth_D x (nth_nat symmIndex (nRot*i+j))))
            (seq 0 nRot) d_zero.

(** [for(j=0; j<nRot; j++) x[symmIndex[nRot*i+j]] = xSum;] *)
Definition classFill {D : Type} (nRot : nat) (symmIndex : list nat) (i : nat)
  (xSum : D) (x : list D) : list D :=
  fold_left (fun x j => <[nth_nat symmIndex (nRot*i+j) := xSum]> x)
            (seq 0 nRot) x.

(** One iteration of the loop over [i] in [symmetrize_sub]. *)
Definition symmetrize_class {D : Type} `{DoubleOps D} (nRot : nat)
  (symmIndex : list nat) (x : list D) (i : nat) : list D :=
  let nrotInv := d_div d_one (d_of_nat nRot) in
  let xSum := d_mul (classSum nRot x symmIndex i) nrotInv in
  classFill nRot symmIndex i xSum x.

Definition symmetrize_sub {D : Type} `{DoubleOps D} (iStart iStop nRot : nat)
  (x : list D) (symmIndex : list nat) : list D :=
  fold_left (symmetrize_class nRot symmIndex) (seq iStart (iStop - iStart)) x.

(** [Symmetries::symmetrize(DataRptr&)]; [threadLaunch] hands each thread a
    part of the range of classes, the model runs the whole range in order. *)
Definition symmetrize {D : Type} `{DoubleOps D} (s : Symmetries) (x : list D)
  : list D :=
  if (length (sym s) =? 1)%nat then x
  else
    let nSymmClasses := (nSymmIndex s / length (sym s))%nat in
    symmetrize_sub 0 nSymmClasses (length (sym s)) x (symmIndex s).

(** *** symmetrize (forces) *)

(** Modelled from the spec: matrix3.h is missing; a 3-vector divided by a
    scalar ("divided by the group order"). *)
Definition vdiv (v : vector3 Q) (n : Q) : vector3 Q :=
  vmap (fun c => Qdiv c n) v.

(** [(~sym[iRot]) * f[sp][atomMap[sp][atom][iRot]]] *)
Definition imageForce (syms : list (matrix3 Z)) (fsp : list (vector3 Q))
  (mapsp : list (list nat)) (atom iRot : nat) : vector3 Q :=
  mvmul (m_i2d (mtrans (nth_mat syms iRot)))
        (nth_vec fsp (nth_nat (default [] (mapsp !! atom)) iRot)).

(** [for(iRot...) tempForces[atom] += ...] *)
Definition accumulateAtom (syms : list (matrix3 Z)) (fsp : list (vector3 Q))
  (mapsp : list (list nat)) (tempForces : list (vector3 Q)) (atom : nat)
  : list (vector3 Q) :=
  fold_left
    (fun temp iRot =>
       <[atom := vadd (nth_vec temp atom) (imageForce syms fsp mapsp atom iRot)]>
         temp)
    (seq 0 (length syms)) tempForces.

(** The body of the loop over species. *)
Definition symmetrizeSpecies (syms : list (matrix3 Z))
  (mapsp : list (list nat)) (fsp : list (vector3 Q)) : list (vector3 Q) :=
  let tempForces0 := replicate (length fsp) vzero in
  let tempForces :=
    fold_left (accumulateAtom syms fsp mapsp) (seq 0 (length fsp)) tempForces0 in
  fold_left
    (fun fsp' atom =>
       <[atom := vdiv (nth_vec tempForces atom)
                      (inject_Z (Z.of_nat (length syms)))]> fsp')
    (seq 0 (length fsp)) fsp.

(** [Symmetries::symmetrize(IonicGradient&)] *)
Definition symmetrizeForces (s : Symmetries) (f : list (list (vector3 Q)))
  : list (list (vector3 Q)) :=
  if (length (sym s) <=? 1)%nat then f
  else
    fold_left
      (fun f' sp =>
         <[sp := symmetrizeSpecies (sym s) (default [] (atomMap s !! sp))
                                   (default [] (f' !! sp))]> f')
      (seq 0 (length f)) f.

(** *** latticeSymmetries *)

(** The variables of the reduction loop. *)
Record Reduction : Type := mkReduction {
  Rreduced : matrix3 Q;
  transmission : matrix3 Z;
  invTransmission : matrix3 Z;
  changed : bool
}.

(** [d] and [dInv] for the directions [k1], [k2=(k1+1)%3], [k3=(k1+2)%3]. *)
Definition elementary (k1 : idx3) (i j : Z) : matrix3 Z * matrix3 Z :=
  let k2 := next3 k1 in
  let k3 := next3 (next3 k1) in
  (mset (mset identity k2 k1 i) k3 k1 j,
   mset (mset identity k2 k1 (- i)) k3 k1 (- j)).

(** The body of the innermost loop. *)
Definition tryMove (st : Reduction) (mv : idx3 * Z * Z) : Reduction :=
  let '(k1, i, j) := mv in
  let '(d, dInv) := elementary k1 i j in
  let Rproposed := mmul (Rreduced st) (m_i2d d) in
  if Qltb (nrm2 Rproposed) (Qminus (nrm2 (Rreduced st)) MIN_SYMM_TOL)
  then mkReduction Rproposed (mmul (transmission st) d)
                   (mmul dInv (invTransmission st)) true
  else st.

(** The iterations of the three nested [for] loops, in order. *)
Definition moves : list (idx3 * Z * Z) :=
  k1 ← all_idx3; i ← [-1; 0; 1]; j ← [-1; 0; 1]; [(k1, i, j)].

(** One pass of the body of [while(true)]. *)
Definition sweep (st : Reduction) : Reduction :=
  fold_left tryMove moves
    (mkReduction (Rreduced st) (transmission st) (invTransmission st) false).

(** [while(true) { ...; if(!changed) break; }], cut after [fuel] passes. *)
Fixpoint reduceLoop (fuel : nat) (st : Reduction) : option Reduction :=
  match fuel with
  | O => None
  | S fuel' =>
      let st' := sweep st in
      if changed st' then reduceLoop fuel' st' else Some st'
  end.

Definition reduceBasis (fuel : nat) (R : matrix3 Q) : option Reduction :=
  reduceLoop fuel (mkReduction R identity identity false).

(** The nine nested [iLOOP]s: [m(0,0)] outermost, each from -1 to 1. *)
Definition candidates : list (matrix3 Z) :=
  let r := [-1; 0; 1] in
  m00 ← r; m01 ← r; m02 ← r;
  m10 ← r; m11 ← r; m12 ← r;
  m20 ← r; m21 ← r; m22 ← r;
  [mkV (mkV m00 m01 m02) (mkV m10 m11 m12) (mkV m20 m21 m22)].

(** [nrm2(metric - (~m) * metric * m) < MIN_SYMM_TOL] *)
Definition leavesInvariant (metric : matrix3 Q) (m : matrix3 Z) : bool :=
  Qltb (nrm2 (msub metric (mmul (mmul (m_i2d (mtrans m)) metric) (m_i2d m))))
       MIN_SYMM_TOL.

(** The matrices pushed onto [symLattice], in the order of the loops. *)
Definition metricSymmetries (metric : matrix3 Q) : list (matrix3 Z) :=
  List.filter (leavesInvariant metric) candidates.

(** [nrm2(Rreduced-gInfo.R) > MIN_SYMM_TOL * nrm2(Rreduced)] *)
Definition wasReduced (R Rred : matrix3 Q) : bool :=
  Qltb (Qmult MIN_SYMM_TOL (nrm2 Rred)) (nrm2 (msub Rred R)).

Definition latticeSymmetries (fuel : nat) (e : Everything)
  : M (list (matrix3 Z)) :=
  let R := gInfo_R (gInfo e) in
  match reduceBasis fuel R with
  | None => fun _ => OutOfFuel
  | Some st =>
      let metric := mmul (mtrans (Rreduced st)) (Rreduced st) in
      let symLattice := metricSymmetries metric in
      if wasReduced R (Rreduced st) then
        (logPrintf "Non-trivial transmission matrix:\n" ;;;
         logPrintf "with reduced lattice vectors:\n" ;;;
         ret (map (fun m => mmul (mmul (transmission st) m) (invTransmission st))
                  symLattice))%M
      else ret symLattice
  end.

(** *** basisReduce *)

(** [for(pos2: sp->atpos) if(circDistanceSquared(mapped_pos1, pos2) < MIN_SYMM_TOL)
    { foundImage = true; break; }] *)
Fixpoint foundImage (mapped_pos1 : vector3 Q) (l : list (vector3 Q)) : bool :=
  match l with
  | [] => false
  | pos2 :: rest =>
      if Qltb (circDistanceSquared mapped_pos1 pos2) MIN_SYMM_TOL then true
      else foundImage mapped_pos1 rest
  end.

(** [offset + m * (pos1-offset)] *)
Definition mapAbout (offset : vector3 Q) (m : matrix3 Z) (pos1 : vector3 Q)
  : vector3 Q :=
  vadd offset (mvmul (m_i2d m) (vsub pos1 offset)).

(** The loop over [pos1]: stops with [symmetric = false] at the first atom
    without an image. *)
Fixpoint atomsSymmetric (offset : vector3 Q) (m : matrix3 Z)
  (all : list (vector3 Q)) (l : list (vector3 Q)) : bool :=
  match l with
  | [] => true
  | pos1 :: rest =>
      if foundImage (mapAbout offset m pos1) all
      then atomsSymmetric offset m all rest
      else false
  end.

(** The loop over the species: [if(!symmetric) break;]. *)
Fixpoint speciesSymmetric (offset : vector3 Q) (m : matrix3 Z)
  (l : list SpeciesInfo) : bool :=
  match l with
  | [] => true
  | sp :: rest =>
      if atomsSymmetric offset m (atpos sp) (atpos sp)
      then speciesSymmetric offset m rest
      else false
  end.

(** The loop over [symLattice]: [if(symmetric) symBasis.push_back(m);]. *)
Fixpoint basisReduceLoop (e : Everything) (offset : vector3 Q)
  (symLattice : list (matrix3 Z)) : list (matrix3 Z) :=
  match symLattice with
  | [] => []
  | m :: rest =>
      if speciesSymmetric offset m (species e)
      then m :: basisReduceLoop e offset rest
      else basisReduceLoop e offset rest
  end.

Definition basisReduce (e : Everything) (symLattice : list (matrix3 Z))
  (offset : vector3 Q) : list (matrix3 Z) :=
  basisReduceLoop e offset symLattice.

(** *** checkKmesh *)

(** [fabs(q1.weight-q2.weight)<MIN_KPT_DISTANCE] *)
Definition sameWeight (q1 q2 : QuantumNumber) : bool :=
  Qltb (Qabs (Qminus (q_weight q1) (q_weight q2))) MIN_KPT_DISTANCE.

(** The loop over [q2], with its [break]. *)
Fixpoint foundKImage (m : matrix3 Z) (q1 : QuantumNumber)
  (l : list QuantumNumber) : bool :=
  match l with
  | [] => false
  | q2 :: rest =>
      if Qltb (circDistanceSquared (mvmul (m_i2d (mtrans m)) (q_k q1)) (q_k q2))
              MIN_KPT_DISTANCE
         && sameWeight q1 q2
      then true
      else foundKImage m q1 rest
  end.

(** The loop over [q1], with its [break]. *)
Fixpoint kmeshSymmetric (m : matrix3 Z) (all l : list QuantumNumber) : bool :=
  match l with
  | [] => true
  | q1 :: rest =>
      if foundKImage m q1 all then kmeshSymmetric m all rest else false
  end.

(** The local [symKmesh] after the loop over [sym]. *)
Fixpoint kmeshSubgroup (e : Everything) (l : list (matrix3 Z))
  : list (matrix3 Z) :=
  match l with
  | [] => []
  | m :: rest =>
      if kmeshSymmetric m (qnums e) (qnums e)
      then m :: kmeshSubgroup e rest
      else kmeshSubgroup e rest
  end.

(** [m.print(globalLog, " %2d "); logPrintf("\n");] for each matrix. *)
Definition printMatrices (l : list (matrix3 Z)) : M unit :=
  forM_ (fun _ => logPrintf " %2d " ;;; logPrintf "\n")%M l.

Definition checkKmesh (e : Everything) : M unit :=
  (s <- this ;;
   let symKmesh := kmeshSubgroup e (sym s) in
   if (length symKmesh <? length (sym s))%nat then
     logPrintf "\nWARNING: k-mesh symmetries are a subgroup of size %lu\n" ;;;
     when (shouldPrintMatrices s) (printMatrices symKmesh) ;;;
     logPrintf "The effectively sampled k-mesh is a superset of the specified one,\nand the answers need not match those with symmetries turned off.\n"
   else ret tt)%M.

(** *** sortSymmetries *)

(** [std::swap(sym[0], sym[i])] *)
Definition swap0 (l : list (matrix3 Z)) (i : nat) : list (matrix3 Z) :=
  <[i := nth_mat l 0]> (<[0%nat := nth_mat l i]> l).

(** [for(unsigned i=1; i<sym.size(); i++) if(sym[i]==identity) swap(...)] *)
Definition sortList (l : list (matrix3 Z)) : list (matrix3 Z) :=
  fold_left (fun l i => if meqb (nth_mat l i) identity then swap0 l i else l)
            (seq 1 (length l - 1)) l.

Definition sortSymmetries : M unit := update (fun s => set_sym (sortList (sym s)) s).

(** *** checkFFTbox *)

(** The body of the loops over [i] and [j] on [symMesh[iRot]]. *)
Definition meshEntry (S : vector3 Z) (mesh : matrix3 Z) (ij : idx3 * idx3)
  : M (matrix3 Z) :=
  let '(i, j) := ij in
  if Z.rem (mget mesh i j) (vget S j) =? 0
  then ret (mset mesh i j (Z.quot (mget mesh i j) (vget S j)))
  else
    (logPrintf "FFT box not commensurate with symmetry matrix:\n" ;;;
     logPrintf " %2d " ;;;
     die "FFT box not commensurate with symmetries\n")%M.

Fixpoint foldM {A B : Type} (body : B -> A -> M B) (l : list A) (b : B) : M B :=
  match l with
  | [] => ret b
  | x :: rest => (b' <- body b x ;; foldM body rest b')%M
  end.

(** The pairs [(i,j)] of [for(i=0;i<3;i++) for(j=0;j<3;j++)], in order. *)
Definition entries : list (idx3 * idx3) :=
  i ← all_idx3; j ← all_idx3; [(i, j)].

(** One iteration of the loop over [iRot]: the value left in
    [symMesh[iRot]]. *)
Definition meshMatrix (S : vector3 Z) (m : matrix3 Z) : M (matrix3 Z) :=
  foldM (meshEntry S) entries (mmul (Diag S) m).

(** [symMesh.resize(sym.size())], then every slot is assigned in turn. *)
Definition checkFFTbox (e : Everything) : M unit :=
  (s <- this ;;
   meshes <- mapM (meshMatrix (gInfo_S (gInfo e))) (sym s) ;;
   update (set_symMesh meshes))%M.

(** *** checkSymmetries *)

(** The loop over [pos1] of one species for one matrix. *)
Definition checkAtoms (m : matrix3 Z) (sp : SpeciesInfo) : M unit :=
  forM_
    (fun pos1 =>
       if foundImage (mvmul (m_i2d m) pos1) (atpos sp) then ret tt
       else die "Symmetries do not agree with atomic positions!\n")
    (atpos sp).

Definition checkSymmetries (e : Everything) : M unit :=
  (logPrintf "Checking manually specified symmetry matrices.\n" ;;;
   s <- this ;;
   forM_ (fun m => forM_ (checkAtoms m) (species e)) (sym s))%M.

(** *** initAtomMaps *)

(** [v.resize(n)] on a vector of indices: old entries are kept, new ones
    are zero. *)
Definition slotBefore (old : list (list (list nat))) (sp at1 iRot : nat) : nat :=
  nth_nat (default [] (default [] (old !! sp) !! at1)) iRot.

(** The loop over [at2] for one entry [atomMap[sp][at1][iRot]], which
    holds [cur] before the loop. *)
Fixpoint findAtom (spInfo : SpeciesInfo) (mapped_pos1 : vector3 Q)
  (at1 : nat) (cur : nat) (at2 : nat) (l : list (vector3 Q)) : M nat :=
  match l with
  | [] => ret cur
  | pos2 :: rest =>
      if Qltb (circDistanceSquared mapped_pos1 pos2) MIN_SYMM_TOL then
        if Qeq_bool (nth_Q (moveScale spInfo) at1) (nth_Q (moveScale spInfo) at2)
        then findAtom spInfo mapped_pos1 at1 at2 (Datatypes.S at2) rest
        else die "Species %s atom# %u and %u are related by symmetry but have different move scale factors %lf != %lf.\n"
      else findAtom spInfo mapped_pos1 at1 cur (Datatypes.S at2) rest
  end.

(** [mapM] with the index of the iteration. *)
Definition mapMi {A B : Type} (body : nat -> A -> M B) (l : list A) : M (list B) :=
  mapM (fun ix => body (fst ix) (snd ix)) (zip (seq 0 (length l)) l).

(** The body of the loop over [iRot]. *)
Definition atomMapEntry (s : Symmetries) (sp : nat) (spInfo : SpeciesInfo)
  (at1 : nat) (pos1 : vector3 Q) (iRot : nat) (m : matrix3 Z) : M nat :=
  (a <- findAtom spInfo (mvmul (m_i2d m) pos1) at1
          (slotBefore (atomMap s) sp at1 iRot) 0 (atpos spInfo) ;;
   when (shouldPrintMatrices s) (logPrintf " %3u") ;;;
   ret a)%M.

(** The body of the loop over [at1]. *)
Definition atomMapRow (s : Symmetries) (sp : nat) (spInfo : SpeciesInfo)
  (at1 : nat) (pos1 : vector3 Q) : M (list nat) :=
  (when (shouldPrintMatrices s) (logPrintf "%s %3u: ") ;;;
   row <- mapMi (atomMapEntry s sp spInfo at1 pos1) (sym s) ;;
   when (shouldPrintMatrices s) (logPrintf "\n") ;;;
   ret row)%M.

(** The body of the loop over [sp]. *)
Definition atomMapSpecies (s : Symmetries) (sp : nat) (spInfo : SpeciesInfo)
  : M (list (list nat)) :=
  mapMi (atomMapRow s sp spInfo) (atpos spInfo).

Definition initAtomMaps (e : Everything) : M unit :=
  (s <- this ;;
   if (length (sym s) =? 1)%nat then ret tt
   else
     when (shouldPrintMatrices s)
          (logPrintf "\nMapping of atoms according to symmetries:\n") ;;;
     newMap <- mapMi (atomMapSpecies s) (species e) ;;
     update (set_atomMap newMap))%M.

(** *** initSymmIndex *)

(** The grid points in the order of the three nested loops over [r]. *)
Definition gridPoints (S : vector3 Z) : list (vector3 Z) :=
  r0 ← seqZ 0 (vx S); r1 ← seqZ 0 (vy S); r2 ← seqZ 0 (vz S); [mkV r0 r1 r2].

(** [rNew = m * r; rNew[i] = rNew[i] % gInfo.S[i];] *)
Definition wrapImage (S : vector3 Z) (m : matrix3 Z) (r : vector3 Z)
  : vector3 Z :=
  let rNew := mvmul m r in
  vbuild (fun i => Z.rem (vget rNew i) (vget S i)).

(** The body of the loops over [r]: the pair is [symmIndexVec] and [done]. *)
Definition visitPoint (S : vector3 Z) (meshes : list (matrix3 Z))
  (st : list nat * list bool) (r : vector3 Z) : list nat * list bool :=
  let index := fullRindex S r in
  if default false (snd st !! index) then st
  else
    fold_left
      (fun st m =>
         let index2 := fullGindex S (wrapImage S m r) in
         (fst st ++ [index2], <[index2 := true]> (snd st)))
      meshes st.

Definition initSymmIndex (e : Everything) : M unit :=
  (s <- this ;;
   if (length (sym s) =? 1)%nat then ret tt
   else
     let S := gInfo_S (gInfo e) in
     let symmIndexVec :=
       fst (fold_left (visitPoint S (symMesh s)) (gridPoints S)
                      ([], replicate (gInfo_nr (gInfo e)) false)) in
     update (set_symmIndex symmIndexVec))%M.

(** *** calcSymmetries *)

(** Atom positions and midpoints of atom pairs of one species, in the order
    they are pushed onto [rCenterCandidates]. *)
Definition centersOf (ps : list (vector3 Q)) : list (vector3 Q) :=
  n1 ← seq 0 (length ps);
  nth_vec ps n1 ::
    (n2 ← seq 0 n1; [vscale (1 # 2)%Q (vadd (nth_vec ps n1) (nth_vec ps n2))]).

Definition rCenterCandidates (e : Everything) : list (vector3 Q) :=
  sp ← species e; centersOf (atpos sp).

(** The body of the loop over [rProposed]; the accumulator is [rCenter]. *)
Definition tryCenter (e : Everything) (symLattice : list (matrix3 Z))
  (rCenter rProposed : vector3 Q) : M (vector3 Q) :=
  (s <- this ;;
   let symTemp := basisReduce e symLattice rProposed in
   if (length (sym s) <? length symTemp)%nat
   then update (set_sym symTemp) ;;; ret rProposed
   else ret rCenter)%M.

(** The atoms are translated by [rCenter] just before [die]: no code runs
    on the translated positions. *)
Definition calcSymmetries (fuel : nat) (e : Everything) : M unit :=
  (logPrintf "Searching for point group symmetries:\n" ;;;
   symLattice <- latticeSymmetries fuel e ;;
   logPrintf "\n%lu symmetries of the bravais lattice\n" ;;;
   let rCenter : vector3 Q := vzero in
   update (set_sym (basisReduce e symLattice rCenter)) ;;;
   logPrintf "reduced to %lu symmetries with basis\n" ;;;
   sortSymmetries ;;;
   s <- this ;;
   when (shouldPrintMatrices s) (printMatrices (sym s)) ;;;
   if shouldMoveAtoms s then
     let origSymSize := length (sym s) in
     _ <- foldM (tryCenter e symLattice) (rCenterCandidates e) rCenter ;;
     s' <- this ;;
     if (origSymSize <? length (sym s'))%nat then
       logPrintf "\nTranslating atoms by [ %lg %lg %lg ] (in lattice coordinates) will\nincrease symmetry count from %lu to %lu. Translated atom positions follow:\n" ;;;
       die "Use the suggested ionic positions, or set <moveAtoms>=no in command symmetry.\n"
     else ret tt
   else ret tt)%M.

(** *** setup *)

Definition setup (fuel : nat) (e : Everything) : M unit :=
  (logPrintf "\n---------- Setting up symmetries ----------\n" ;;;
   s <- this ;;
   match mode s with
   | SymmetriesAutomatic => calcSymmetries fuel e
   | SymmetriesManual =>
       (if (length (sym s) =? 0)%nat
        then die "\nManual symmetries specified without specifying any symmetry matrices.\n"
        else ret tt) ;;;
       sortSymmetries ;;;
       checkSymmetries e
   | SymmetriesNone => update (set_sym [identity])
   end ;;;
   checkFFTbox e ;;;
   checkKmesh e ;;;
   initAtomMaps e ;;;
   initSymmIndex e)%M.

End Engine.

(** ** The force average as the specification words it *)

(** Modelled from the spec: matrix3.h is missing; the inverse of a real
    matrix ("supports multiplication, transpose, inverse"), by cofactors. *)
Definition minv (m : matrix3 Q) : matrix3 Q :=
  let a := mget m in
  let cof (i j : idx3) : Q :=
    (a (next3 j) (next3 i) * a (next3 (next3 j)) (next3 (next3 i))
     - a (next3 j) (next3 (next3 i)) * a (next3 (next3 j)) (next3 i))%Q in
  let det := (a X0 X0 * cof X0 X0 + a X0 X1 * cof X1 X0 + a X0 X2 * cof X2 X0)%Q in
  mbuild (fun i j => (cof i j / det)%Q).

(** The value the specification gives the force on [atom]: the average over
    the operations of the inverse-transpose-transformed force at the image
    atom. *)
Definition forceAverage_invT (syms : list (matrix3 Z)) (fsp : list (vector3 Q))
  (mapsp : list (list nat)) (atom : nat) : vector3 Q :=
  vdiv
    (fold_left
       (fun acc iRot =>
          vadd acc
               (mvmul (minv (m_i2d (mtrans (nth_mat syms iRot))))
                      (nth_vec fsp (nth_nat (default [] (mapsp !! atom)) iRot))))
       (seq 0 (length syms)) vzero)
    (inject_Z (Z.of_nat (length syms))).

(** Equality of values of two real vectors. *)
Definition veq (a b : vector3 Q) : Prop :=
  vx a == vx b /\ vy a == vy b /\ vz a == vz b.

(** ** Concrete primitives for closed examples *)

(** Modelled from the spec: matrix3.h is missing; the square root inside the
    "Frobenius-style norm", taken on a grid of 2^-52. *)
Definition sqrtQ (q : Q) : Q :=
  Z.sqrt (Qfloor (q * inject_Z (2 ^ 104))) # (2 ^ 52).

(** Modelled from the spec: matrix3.h is missing; [nrm2] as the
    "Frobenius-style norm" of a real matrix. *)
Definition frobenius (m : matrix3 Q) : Q :=
  sqrtQ (vdot (vx m) (vx m) + vdot (vy m) (vy m) + vdot (vz m) (vz m)).

(** Modelled from the spec: matrix3.h is missing; the "circular distance"
    of two positions "modulo the lattice" by the "minimum image
    convention": each coordinate difference is brought to [-1/2, 1/2). *)
Definition minimumImage (d : Q) : Q := d - inject_Z (Qfloor (d + (1 # 2))).

Definition circMinimumImage (a b : vector3 Q) : Q :=
  let d := vmap minimumImage (vsub a b) in vdot d d.

(** Modelled from the spec: GridInfo.h is missing; the "flat grid index"
    of a grid point, last coordinate fastest. *)
Definition flatIndex (S r : vector3 Z) : nat :=
  Z.to_nat (vz r + vz S * (vy r + vy S * vx r)).

(** Modelled from the spec: GridInfo.h is missing; the flat index after
    "wrapping negative indices". *)
Definition flatIndexWrapped (S r : vector3 Z) : nat :=
  flatIndex S (vbuild (fun i => if vget r i <? 0 then vget r i + vget S i
                                else vget r i)).

Definition concretePrims : Prims :=
  {| nrm2 := frobenius;
     circDistanceSquared := circMinimumImage;
     fullRindex := flatIndex;
     fullGindex := flatIndexWrapped |}.

(** A freshly constructed [Symmetries] object with its settings. *)
Definition newSymmetries (md : SymmetryMode) (printM moveA : bool)
  (manual : list (matrix3 Z)) : Symmetries :=
  mkSymmetries md printM moveA manual [] [] 0 [].

Definition newWorld (s : Symmetries) : World := mkWorld s [].

(** The inversion [-1]. *)
Definition inversion : matrix3 Z := mdiag (-1) (-1) (-1).

(** The rotation by 120 degrees of a hexagonal lattice, in lattice
    coordinates, and its square. *)
Definition rot3 : matrix3 Z := mkV (mkV 0 (-1) 0) (mkV 1 (-1) 0) (mkV 0 0 1).
Definition rot3sq : matrix3 Z := mmul rot3 rot3.

(** A cubic cell with one atom at the origin and one k-point. *)
Definition cubicCell : Everything :=
  {| gInfo := {| gInfo_R := identity; gInfo_S := mkV 2 2 2; gInfo_nr := 8 |};
     species := [ {| sp_name := "X"; atpos := [vzero]; moveScale := [1%Q] |} ];
     qnums := [ {| q_k := vzero; q_weight := 1%Q |} ] |}.

(** Three atoms of one species that the rotation [rot3] permutes. *)
Definition triangle : SpeciesInfo :=
  {| sp_name := "X";
     atpos := [ mkV (1 # 10) 0 0; mkV 0 (1 # 10) 0; mkV (- (1 # 10)) (- (1 # 10)) 0 ]%Q;
     moveScale := [1; 1; 1]%Q |}.

Definition hexCell : Everything :=
  {| gInfo := {| gInfo_R := identity; gInfo_S := mkV 3 3 1; gInfo_nr := 9 |};
     species := [triangle];
     qnums := [ {| q_k := vzero; q_weight := 1%Q |} ] |}.

(** The same three atoms and, as a second species, one atom off the axis,
    which the rotation maps onto no atom. *)
Definition lonely : SpeciesInfo :=
  {| sp_name := "Y"; atpos := [ mkV (1 # 5) 0 0 ]%Q; moveScale := [1%Q] |}.

Definition brokenCell : Everything :=
  {| gInfo := gInfo hexCell; species := [triangle; lonely]; qnums := qnums hexCell |}.

(** The symmetry index table that [symmetrize] needs: [nRot] entries per
    class, each the index of a point of a field of [nr] points, and no
    point in two classes. *)
Definition validTable (nRot nClasses : nat) (symmIndex : list nat) (nr : nat)
  : Prop :=
  (forall k, (k < nRot * nClasses)%nat ->
             exists p, symmIndex !! k = Some p /\ (p < nr)%nat) /\
  (forall i i' j j',
      (i < nClasses)%nat -> (i' < nClasses)%nat ->
      (j < nRot)%nat -> (j' < nRot)%nat -> i <> i' ->
      nth_nat symmIndex (nRot * i + j) <> nth_nat symmIndex (nRot * i' + j')).

(** [validTable] as a test. *)
Definition validTableb (nRot nClasses : nat) (symmIndex : list nat) (nr : nat)
  : bool :=
  forallb (fun k => match symmIndex !! k with
                    | Some p => (p <? nr)%nat
                    | None => false
                    end) (seq 0 (nRot * nClasses))
  && forallb (fun i =>
       forallb (fun i' =>
         (i =? i')%nat ||
         forallb (fun j =>
           forallb (fun j' =>
             negb (nth_nat symmIndex (nRot * i + j)
                   =? nth_nat symmIndex (nRot * i' + j'))%nat)
             (seq 0 nRot)) (seq 0 nRot))
         (seq 0 nClasses)) (seq 0 nClasses).

(** Equality of values of two fields, point by point. *)
Definition fieldEq (x y : list Q) : Prop := Forall2 Qeq x y.

(** The worlds of the closed examples. *)
Definition inversionOnly : World :=
  newWorld (newSymmetries SymmetriesManual false false [inversion]).

Definition threefold : World :=
  newWorld (newSymmetries SymmetriesManual false false [identity; rot3; rot3sq]).

(** The mesh matrix the grid check leaves for [m]: every entry of
    [Diag(S) * m] divided by the sample count of its column. *)
Definition meshOf (S : vector3 Z) (m : matrix3 Z) : matrix3 Z :=
  mbuild (fun i j => Z.quot (mget (mmul (Diag S) m) i j) (vget S j)).

(** ** Atoms related by a symmetry *)

Section Relations.
Context `{P : Prims}.

(** Atom [at2] of species [sp] lies within [MIN_SYMM_TOL] of the image of
    atom [at1] of that species under the symmetry [iRot]. *)
Definition isImage (e : Everything) (s : Symmetries) (sp at1 iRot at2 : nat)
  : Prop :=
  exists spInfo pos1 m pos2,
    species e !! sp = Some spInfo /\ atpos spInfo !! at1 = Some pos1 /\
    sym s !! iRot = Some m /\ atpos spInfo !! at2 = Some pos2 /\
    (circDistanceSquared (mvmul (m_i2d m) pos1) pos2 < MIN_SYMM_TOL)%Q.

(** The move scale factors of atoms [at1] and [at2] of species [sp] differ. *)
Definition scalesDiffer (e : Everything) (sp at1 at2 : nat) : Prop :=
  exists spInfo,
    species e !! sp = Some spInfo /\
    ~ (nth_Q (moveScale spInfo) at1 == nth_Q (moveScale spInfo) at2)%Q.

(** [atomMap[sp][at1][iRot]] *)
Definition atomMapAt (s : Symmetries) (sp at1 iRot : nat) : option nat :=
  match atomMap s !! sp with
  | Some rows =>
      match rows !! at1 with
      | Some row => row !! iRot
      | None => None
      end
  | None => None
  end.

End Relations.

(** The unweighted average of the field [x] over the [nRot] table entries
    of class [i]. *)
Definition orbitAverage (nRot : nat) (x : list Q) (symmIndex : list nat)
  (i : nat) : Q :=
  (fold_right Qplus 0
     (map (fun j => nth_Q x (nth_nat symmIndex (nRot * i + j))) (seq 0 nRot))
   / inject_Z (Z.of_nat nRot))%Q.

(** The value the code gives the force on [atom]: the sum over the
    operations of the transpose-transformed force at the image atom, divided
    by the group order. *)
Definition forceAverage (syms : list (matrix3 Z)) (fsp : list (vector3 Q))
  (mapsp : list (list nat)) (atom : nat) : vector3 Q :=
  vdiv
    (fold_left
       (fun acc iRot =>
          vadd acc
               (mvmul (m_i2d (mtrans (nth_mat syms iRot)))
                      (nth_vec fsp (nth_nat (default [] (mapsp !! atom)) iRot))))
       (seq 0 (length syms)) vzero)
    (inject_Z (Z.of_nat (length syms))).

(** The object that [setup] leaves for the three atoms and the threefold
    axis, with its atom map. *)
Definition threefoldReady : Symmetries :=
  match @setup concretePrims 0 hexCell threefold with
  | Ok (_, w) => self w
  | _ => self threefold
  end.

(** A force on the second of the three atoms only. *)
Definition pushSecond : list (list (vector3 Q)) :=
  [[ mkV 0 0 0; mkV 1 0 0; mkV 0 0 0 ]]%Q.

(** The lattice vectors of a cubic cell in a sheared basis. *)
Definition shearedCubic : matrix3 Q :=
  (mkV (mkV 1 1 0) (mkV 0 1 0) (mkV 0 0 1))%Q.

(** ** Further worlds and cells of the closed examples *)

(** No symmetries requested. *)
Definition noSymmetries : World :=
  newWorld (newSymmetries SymmetriesNone false false []).

(** Manual mode without any matrix. *)
Definition manualEmpty : World :=
  newWorld (newSymmetries SymmetriesManual false false []).

Section ReductionInvariant.
Context `{P : Prims}.

(** What the variables of the reduction loop keep true: the two recorded
    integer matrices are inverse to each other, and the norm of the reduced
    basis is not above that of the lattice basis [R]. *)
Definition reductionInvariant (R : matrix3 Q) (st : Reduction) : Prop :=
  mmul (transmission st) (invTransmission st) = identity /\
  mmul (invTransmission st) (transmission st) = identity /\
  (nrm2 (Rreduced st) <= nrm2 R)%Q.

End ReductionInvariant.

(** ** setPhi: the applied potential and the walls of the planar test *)

(** [zEff], the local variable of [setPhi]: the distance along the third
    axis from the nearer of the planes at a quarter and at three quarters
    of the cell, signed towards the middle of the cell. *)
Definition zEffective {D : Type} `{DoubleOps D} (z gridLength : D) : D :=
  if d_ltb z (d_mul (d_lit (1 # 2)) gridLength)
  then d_sub z (d_mul (d_lit (1 # 4)) gridLength)
  else d_sub (d_mul (d_lit (3 # 4)) gridLength) z.

(** [setPhi(i, r, phiApplied, phiWall, gridLength, Dfield, zWall)]: the two
    arrays after the call. *)
Definition setPhi {D : Type} `{DoubleOps D} (i : nat) (r : vector3 D)
  (phiApplied phiWall : list D) (gridLength Dfield zWall : D)
  : list D * list D :=
  let zEff := zEffective (vz r) gridLength in
  (<[i := d_mul (d_opp Dfield) zEff]> phiApplied,
   <[i := if d_ltb (d_sub (d_mul (d_lit (1 # 4)) gridLength) zWall)
                   (d_abs zEff)
          then d_one else d_zero]> phiWall).

(** One atom off the origin, along the first axis of a cubic cell. *)
Definition offCenterCell : Everything :=
  {| gInfo := {| gInfo_R := identity; gInfo_S := mkV 2 2 2; gInfo_nr := 8 |};
     species := [ {| sp_name := "X"; atpos := [ mkV (1 # 10) 0 0 ]%Q;
                     moveScale := [1%Q] |} ];
     qnums := [ {| q_k := vzero; q_weight := 1%Q |} ] |}.

(** The automatic search, without and with the search for a better
    center. *)
Definition automaticSearch : World :=
  newWorld (newSymmetries SymmetriesAutomatic false false []).

Definition automaticMoveAtoms : World :=
  newWorld (newSymmetries SymmetriesAutomatic false true []).


(** ** Sums over the classes of the table *)

(** The sum of the values of [x] at the [nRot] entries of class [i] of the
    table. *)
Definition classTotal (nRot : nat) (x : list Q) (symmIndex : list nat)
  (i : nat) : Q :=
  fold_right Qplus 0%Q
    (map (fun j => nth_Q x (nth_nat symmIndex (nRot * i + j))) (seq 0 nRot)).

(** The same force on each of the three atoms, along the threefold axis. *)
Definition pushAlongAxis : list (list (vector3 Q)) :=
  [[ mkV 0 0 1; mkV 0 0 1; mkV 0 0 1 ]]%Q.

(** A field in binary64 on the nine points of the grid of the threefold
    example: [0.9] at point 1 and [0.0] elsewhere. *)
Definition nineTenths : list binary64 :=
  [d_zero; d_lit (9 # 10); d_zero; d_zero; d_zero; d_zero; d_zero; d_zero;
   d_zero].

(** * Properties *)

Section Properties.
Context `{P : Prims}.

(** ** Tests on [double] *)

Lemma Qltb_lt (a b : Q) : Qltb a b = true <-> (a < b)%Q.
Proof.
  unfold Qltb. rewrite negb_true_iff.
  split.
  - intros Hf. apply Qnot_le_lt. intros Hle.
    apply Qle_bool_iff in Hle. congruence.
  - intros Hlt. destruct (Qle_bool b a) eqn:E; [|reflexivity].
    apply Qle_bool_iff in E. exfalso. exact (Qlt_not_le _ _ Hlt E).
Qed.

Lemma Qltb_nlt (a b : Q) : Qltb a b = false <-> ~ (a < b)%Q.
Proof.
  rewrite <- Qltb_lt. destruct (Qltb a b); split; intros; congruence.
Qed.

(** ** kpointsEquivalent *)

Lemma anyImage_spec (k1 k2 : vector3 Q) (l : list (matrix3 Z)) :
  anyImage k1 k2 l = true <->
  exists m, In m l /\
    (circDistanceSquared (mvmul (m_i2d (mtrans m)) k1) k2 < MIN_KPT_DISTANCE)%Q.
Proof.
  induction l as [|m rest IH]; simpl.
  - split; [discriminate | intros (m & [] & _)].
  - destruct (Qltb _ _) eqn:E.
    + split; [|reflexivity]. intros _. exists m. split; [now left|].
      now apply Qltb_lt.
    + rewrite IH. apply Qltb_nlt in E. split.
      * intros (m' & Hin & Hlt). exists m'. split; [now right | exact Hlt].
      * intros (m' & [<- | Hin] & Hlt); [contradiction|]. now exists m'.
Qed.

(** C10: [kpointsEquivalent] answers [true] exactly when the mode is not
    'none' and some matrix [m] of the group brings [transpose(m) * k1]
    within [MIN_KPT_DISTANCE] of [k2]; in mode 'none' it therefore answers
    [false] for every pair, equal k-points included. *)
Theorem kpointsEquivalent_spec (s : Symmetries) (k1 k2 : vector3 Q) :
  (kpointsEquivalent s k1 k2 = true <->
   mode s <> SymmetriesNone /\
   exists m, In m (sym s) /\
     (circDistanceSquared (mvmul (m_i2d (mtrans m)) k1) k2 < MIN_KPT_DISTANCE)%Q)
  /\ (kpointsEquivalent (set_sym [identity]
        (mkSymmetries SymmetriesNone (shouldPrintMatrices s) (shouldMoveAtoms s)
           (sym s) (symMesh s) (atomMap s) (nSymmIndex s) (symmIndex s)))
        k1 k1 = false).
Proof.
  split; [|reflexivity].
  unfold kpointsEquivalent.
  destruct (mode s) eqn:Hm; simpl.
  - split; [discriminate | intros [Hne _]; congruence].
  - rewrite anyImage_spec. split; [intros Hex; split; [discriminate | exact Hex]
                                  | intros [_ Hex]; exact Hex].
  - rewrite anyImage_spec. split; [intros Hex; split; [discriminate | exact Hex]
                                  | intros [_ Hex]; exact Hex].
Qed.

(** ** basisReduce *)

Lemma foundImage_spec (p : vector3 Q) (l : list (vector3 Q)) :
  foundImage p l = true <->
  exists pos2, In pos2 l /\ (circDistanceSquared p pos2 < MIN_SYMM_TOL)%Q.
Proof.
  induction l as [|q rest IH]; simpl.
  - split; [discriminate | intros (q & [] & _)].
  - destruct (Qltb _ _) eqn:E.
    + split; [|reflexivity]. intros _. exists q. split; [now left|].
      now apply Qltb_lt.
    + rewrite IH. apply Qltb_nlt in E. split.
      * intros (q' & Hin & Hlt). exists q'. split; [now right | exact Hlt].
      * intros (q' & [<- | Hin] & Hlt); [contradiction|]. now exists q'.
Qed.

Lemma atomsSymmetric_spec (offset : vector3 Q) (m : matrix3 Z)
  (all l : list (vector3 Q)) :
  atomsSymmetric offset m all l = true <->
  forall pos1, In pos1 l -> foundImage (mapAbout offset m pos1) all = true.
Proof.
  induction l as [|p rest IH]; simpl.
  - split; [intros _ ? [] | reflexivity].
  - destruct (foundImage (mapAbout offset m p) all) eqn:E.
    + rewrite IH. split.
      * intros Hr q [<- | Hq]; [exact E | now apply Hr].
      * intros Hr q Hq. apply Hr. now right.
    + split; [discriminate|]. intros Hr.
      rewrite <- E. apply Hr. now left.
Qed.

Lemma speciesSymmetric_spec (offset : vector3 Q) (m : matrix3 Z)
  (l : list SpeciesInfo) :
  speciesSymmetric offset m l = true <->
  forall sp, In sp l -> forall pos1, In pos1 (atpos sp) ->
    exists pos2, In pos2 (atpos sp) /\
      (circDistanceSquared (mapAbout offset m pos1) pos2 < MIN_SYMM_TOL)%Q.
Proof.
  induction l as [|sp rest IH]; simpl.
  - split; [intros _ ? [] | reflexivity].
  - destruct (atomsSymmetric offset m (atpos sp) (atpos sp)) eqn:E.
    + rewrite IH. rewrite atomsSymmetric_spec in E. split.
      * intros Hr sp' [<- | Hsp] p Hp.
        -- apply foundImage_spec. now apply E.
        -- now apply Hr.
      * intros Hr sp' Hsp. apply Hr. now right.
    + split; [discriminate|]. intros Hr.
      rewrite <- E. apply atomsSymmetric_spec. intros p Hp.
      apply foundImage_spec. apply Hr; [now left | exact Hp].
Qed.

Lemma basisReduce_filter (e : Everything) (symLattice : list (matrix3 Z))
  (offset : vector3 Q) :
  basisReduce e symLattice offset
  = List.filter (fun m => speciesSymmetric offset m (species e)) symLattice.
Proof.
  unfold basisReduce.
  induction symLattice as [|m rest IH]; simpl; [reflexivity|].
  rewrite IH. reflexivity.
Qed.

(** C2: [basisReduce] keeps, in their order, exactly the matrices [m] of
    [symLattice] for which every atom [pos1] of every species has an atom
    [pos2] of the same species with
    [circDistanceSquared(offset + m*(pos1-offset), pos2) < MIN_SYMM_TOL];
    a species without atoms constrains nothing. *)
Theorem basisReduce_spec (e : Everything) (symLattice : list (matrix3 Z))
  (offset : vector3 Q) :
  (exists keep : matrix3 Z -> bool,
      basisReduce e symLattice offset = List.filter keep symLattice /\
      forall m, keep m = true <->
        forall sp, In sp (species e) -> forall pos1, In pos1 (atpos sp) ->
          exists pos2, In pos2 (atpos sp) /\
            (circDistanceSquared (vadd offset (mvmul (m_i2d m) (vsub pos1 offset)))
                                 pos2 < MIN_SYMM_TOL)%Q)
  /\ (forall m, In m (basisReduce e symLattice offset) <->
        In m symLattice /\
        forall sp, In sp (species e) -> forall pos1, In pos1 (atpos sp) ->
          exists pos2, In pos2 (atpos sp) /\
            (circDistanceSquared (vadd offset (mvmul (m_i2d m) (vsub pos1 offset)))
                                 pos2 < MIN_SYMM_TOL)%Q)
  /\ (forall name scale,
        basisReduce
          {| gInfo := gInfo e;
             species := {| sp_name := name; atpos := []; moveScale := scale |}
                        :: species e;
             qnums := qnums e |} symLattice offset
        = basisReduce e symLattice offset).
Proof.
  split; [|split].
  - exists (fun m => speciesSymmetric offset m (species e)). split.
    + apply basisReduce_filter.
    + intros m. apply speciesSymmetric_spec.
  - intros m. rewrite basisReduce_filter, filter_In, speciesSymmetric_spec.
    reflexivity.
  - intros name scale. rewrite !basisReduce_filter. reflexivity.
Qed.

(** ** checkKmesh *)

Lemma foundKImage_spec (m : matrix3 Z) (q1 : QuantumNumber)
  (l : list QuantumNumber) :
  foundKImage m q1 l = true <->
  exists q2, In q2 l /\
    (circDistanceSquared (mvmul (m_i2d (mtrans m)) (q_k q1)) (q_k q2)
       < MIN_KPT_DISTANCE)%Q /\
    (Qabs (q_weight q1 - q_weight q2) < MIN_KPT_DISTANCE)%Q.
Proof.
  induction l as [|q rest IH]; cbn [foundKImage].
  - split; [discriminate | intros (q & [] & _)].
  - destruct (Qltb _ _ && sameWeight q1 q) eqn:E.
    + split; [|reflexivity]. intros _. exists q.
      apply andb_true_iff in E as [E1 E2].
      split; [now left|]. split; now apply Qltb_lt.
    + rewrite IH. split.
      * intros (q' & Hin & Hlt). exists q'. split; [now right | exact Hlt].
      * intros (q' & [<- | Hin] & Hd & Hw); [|now exists q'].
        exfalso. apply Qltb_lt in Hd, Hw. unfold sameWeight in E.
        rewrite Hd, Hw in E. discriminate.
Qed.

Lemma kmeshSymmetric_spec (m : matrix3 Z) (all l : list QuantumNumber) :
  kmeshSymmetric m all l = true <->
  forall q1, In q1 l -> foundKImage m q1 all = true.
Proof.
  induction l as [|q rest IH]; simpl.
  - split; [intros _ ? [] | reflexivity].
  - destruct (foundKImage m q all) eqn:E.
    + rewrite IH. split.
      * intros Hr q' [<- | Hq]; [exact E | now apply Hr].
      * intros Hr q' Hq. apply Hr. now right.
    + split; [discriminate|]. intros Hr. rewrite <- E. apply Hr. now left.
Qed.

Lemma kmeshSubgroup_filter (e : Everything) (l : list (matrix3 Z)) :
  kmeshSubgroup e l
  = List.filter (fun m => kmeshSymmetric m (qnums e) (qnums e)) l.
Proof.
  induction l as [|m rest IH]; simpl; [reflexivity|]. now rewrite IH.
Qed.

Lemma kmeshSubgroup_In (e : Everything) (l : list (matrix3 Z)) (m : matrix3 Z) :
  In m (kmeshSubgroup e l) <->
  In m l /\
  forall q1, In q1 (qnums e) ->
    exists q2, In q2 (qnums e) /\
      (circDistanceSquared (mvmul (m_i2d (mtrans m)) (q_k q1)) (q_k q2)
         < MIN_KPT_DISTANCE)%Q /\
      (Qabs (q_weight q1 - q_weight q2) < MIN_KPT_DISTANCE)%Q.
Proof.
  rewrite kmeshSubgroup_filter, filter_In, kmeshSymmetric_spec.
  split; intros [Hin Hall]; (split; [exact Hin|]); intros q1 Hq1;
    apply foundKImage_spec; now apply Hall.
Qed.

Lemma forM_log_only {A : Type} (body : A -> M unit) (l : list A) :
  (forall x w, exists lines,
      body x w = Ok (tt, mkWorld (self w) (globalLog w ++ lines))) ->
  forall w, exists lines,
    forM_ body l w = Ok (tt, mkWorld (self w) (globalLog w ++ lines)).
Proof.
  intros Hbody. induction l as [|x rest IH]; intros w; simpl.
  - exists []. unfold ret. rewrite app_nil_r. now destruct w.
  - unfold bind. destruct (Hbody x w) as [l1 ->].
    destruct (IH (mkWorld (self w) (globalLog w ++ l1))) as [l2 ->].
    exists (l1 ++ l2). simpl. now rewrite app_assoc.
Qed.

Lemma printMatrices_log_only (l : list (matrix3 Z)) (w : World) :
  exists lines,
    printMatrices l w = Ok (tt, mkWorld (self w) (globalLog w ++ lines)).
Proof.
  apply forM_log_only. intros x w'. exists [" %2d "%string; "\n"%string].
  unfold bind, logPrintf. simpl. now rewrite <- app_assoc.
Qed.

(** [checkKmesh] returns, with the object as it was and some lines added
    to the log; lines are added exactly for a smaller subgroup. *)
Lemma checkKmesh_run (e : Everything) (w : World) :
  exists lines,
    checkKmesh e w = Ok (tt, mkWorld (self w) (globalLog w ++ lines)) /\
    (lines <> [] <->
     (length (kmeshSubgroup e (sym (self w))) < length (sym (self w)))%nat).
Proof.
  unfold checkKmesh, bind, this.
  destruct (Nat.ltb_spec (length (kmeshSubgroup e (sym (self w))))
                         (length (sym (self w)))) as [Hlt | Hge].
  - unfold logPrintf at 1. simpl.
    destruct (shouldPrintMatrices (self w)); simpl.
    + match goal with |- context [printMatrices ?l ?w'] =>
        destruct (printMatrices_log_only l w') as [pl ->] end.
      simpl. eexists. split.
      * unfold logPrintf. simpl. rewrite <- !app_assoc. reflexivity.
      * split; [intros _; exact Hlt | intros _; discriminate].
    + eexists. split.
      * unfold ret, logPrintf. simpl. rewrite <- !app_assoc. reflexivity.
      * split; [intros _; exact Hlt | intros _; discriminate].
  - exists []. split.
    + unfold ret. rewrite app_nil_r. now destruct w.
    + split; [congruence | lia].
Qed.

(** C9: [checkKmesh] never ends the run and leaves the object as it found
    it, group included; all it does is to append lines to the log, and it
    appends some exactly when the subgroup that maps the k-mesh onto
    itself (k-image within [MIN_KPT_DISTANCE], weights within the same
    bound) is smaller than the group.  Whatever runs after it therefore
    runs on the unchanged group. *)
Theorem checkKmesh_frame (e : Everything) (w : World) :
  exists lines,
    checkKmesh e w = Ok (tt, mkWorld (self w) (globalLog w ++ lines)) /\
    (lines <> [] <->
     (length (kmeshSubgroup e (sym (self w))) < length (sym (self w)))%nat) /\
    (forall m, In m (kmeshSubgroup e (sym (self w))) <->
       In m (sym (self w)) /\
       forall q1, In q1 (qnums e) ->
         exists q2, In q2 (qnums e) /\
           (circDistanceSquared (mvmul (m_i2d (mtrans m)) (q_k q1)) (q_k q2)
              < MIN_KPT_DISTANCE)%Q /\
           (Qabs (q_weight q1 - q_weight q2) < MIN_KPT_DISTANCE)%Q) /\
    (forall (A : Type) (rest : M A),
       bind (checkKmesh e) (fun _ => rest) w
       = rest (mkWorld (self w) (globalLog w ++ lines))).
Proof.
  destruct (checkKmesh_run e w) as (lines & Hrun & Hlines).
  exists lines. split; [exact Hrun|]. split; [exact Hlines|]. split.
  - intros m. apply kmeshSubgroup_In.
  - intros A rest. unfold bind. now rewrite Hrun.
Qed.

(** ** checkFFTbox *)

Local Ltac name_failing_entry :=
  first [ exists X0, X0; cbn; assumption | exists X0, X1; cbn; assumption
        | exists X0, X2; cbn; assumption | exists X1, X0; cbn; assumption
        | exists X1, X1; cbn; assumption | exists X1, X2; cbn; assumption
        | exists X2, X0; cbn; assumption | exists X2, X1; cbn; assumption
        | exists X2, X2; cbn; assumption ].

Local Ltac next_entry :=
  match goal with
  | |- context [Z.rem ?a ?s =? 0] =>
      destruct (Z.eqb_spec (Z.rem a s) 0);
      cbn [vx vy vz];
      [ | right; split; [eexists; reflexivity | name_failing_entry] ]
  end.

Lemma meshMatrix_cases (S : vector3 Z) (m : matrix3 Z) (w : World) :
  (meshMatrix S m w = Ok (meshOf S m, w) /\
   forall i j, Z.rem (mget (mmul (Diag S) m) i j) (vget S j) = 0)
  \/ ((exists msg, meshMatrix S m w = Died msg) /\
      exists i j, Z.rem (mget (mmul (Diag S) m) i j) (vget S j) <> 0).
Proof.
  unfold meshMatrix, meshOf.
  generalize (mmul (Diag S) m). intros [[a b c] [d f g] [h k l]].
  destruct S as [s0 s1 s2].
  unfold entries, all_idx3, meshEntry.
  cbn [mbind mret list_bind list_ret app foldM mget mset vget vset
       vx vy vz fst snd mbuild vbuild].
  unfold bind, ret, die, logPrintf.
  do 9 next_entry.
  left. split; [reflexivity|].
  intros [] []; cbn; assumption.
Qed.

Lemma mapM_meshMatrix (S : vector3 Z) (l : list (matrix3 Z)) (w : World) :
  (mapM (meshMatrix S) l w = Ok (map (meshOf S) l, w) /\
   forall m, In m l ->
     forall i j, Z.rem (mget (mmul (Diag S) m) i j) (vget S j) = 0)
  \/ ((exists msg, mapM (meshMatrix S) l w = Died msg) /\
      exists m i j, In m l /\
        Z.rem (mget (mmul (Diag S) m) i j) (vget S j) <> 0).
Proof.
  induction l as [|m rest IH]; cbn [mapM].
  - left. split; [reflexivity | intros ? []].
  - destruct (meshMatrix_cases S m w) as [[Hm1 Hm] | [[msg Hm1] (i & j & Hij)]].
    + destruct IH as [[Hr1 Hrest] | [[msg Hr1] (m' & i & j & Hin & Hij)]].
      * left. split.
        -- unfold bind. rewrite Hm1, Hr1. reflexivity.
        -- intros m' [<- | Hin]; [exact Hm | now apply Hrest].
      * right. split.
        -- exists msg. unfold bind. rewrite Hm1, Hr1. reflexivity.
        -- exists m', i, j. split; [now right | exact Hij].
    + right. split.
      * exists msg. unfold bind. now rewrite Hm1.
      * exists m, i, j. split; [now left | exact Hij].
Qed.

Lemma meshOf_exact (S : vector3 Z) (m : matrix3 Z) :
  (forall j, vget S j <> 0) ->
  (forall i j, (vget S j | mget (mmul (Diag S) m) i j)) ->
  mmul (meshOf S m) (Diag S) = mmul (Diag S) m.
Proof.
  intros Hnz Hdiv.
  assert (Hq : forall i j,
    mget (meshOf S m) i j * vget S j = mget (mmul (Diag S) m) i j).
  { intros i j. specialize (Hdiv i j).
    apply (Z.rem_divide _ _ (Hnz j)) in Hdiv.
    apply (Z.quot_exact _ _ (Hnz j)) in Hdiv.
    transitivity (vget S j * (mget (mmul (Diag S) m) i j ÷ vget S j));
      [|now symmetry].
    destruct i, j; cbn; lia. }
  pose proof (Hq X0 X0). pose proof (Hq X0 X1). pose proof (Hq X0 X2).
  pose proof (Hq X1 X0). pose proof (Hq X1 X1). pose proof (Hq X1 X2).
  pose proof (Hq X2 X0). pose proof (Hq X2 X1). pose proof (Hq X2 X2).
  clear Hq Hdiv Hnz.
  destruct S as [s0 s1 s2].
  generalize dependent (meshOf (mkV s0 s1 s2) m).
  generalize (mmul (Diag (mkV s0 s1 s2)) m).
  intros [[a b c] [d f g] [h k l]] [[a' b' c'] [d' f' g'] [h' k' l']].
  cbn. intros. unfold mmul, mbuild, vbuild, vdot, mcol, Diag, mdiag. cbn.
  f_equal; f_equal; lia.
Qed.

(** C4: on a grid with non-zero sample counts [S], [checkFFTbox] ends the
    run with a fatal error if and only if some symmetry matrix [m] has an
    entry [(i,j)] for which [(Diag(S) * m)(i,j)] is not divisible by
    [S[j]]; when no entry fails it returns normally, and the object it
    leaves has in [symMesh], for the symmetry at every index [k], the
    matrix of the entry-wise exact quotients, which is
    [Diag(S) * m * Diag(S)^-1]; the symmetries, the rest of the object and
    the log are as they were. *)
Theorem checkFFTbox_spec (e : Everything) (w : World) :
  (forall j, vget (gInfo_S (gInfo e)) j <> 0) ->
  ((exists msg, checkFFTbox e w = Died msg) <->
   exists m i j, In m (sym (self w)) /\
     ~ (vget (gInfo_S (gInfo e)) j
        | mget (mmul (Diag (gInfo_S (gInfo e))) m) i j))
  /\ ((forall m i j, In m (sym (self w)) ->
         (vget (gInfo_S (gInfo e)) j
          | mget (mmul (Diag (gInfo_S (gInfo e))) m) i j)) ->
      exists w',
        checkFFTbox e w = Ok (tt, w')
        /\ w' = mkWorld (set_symMesh (map (meshOf (gInfo_S (gInfo e)))
                                          (sym (self w))) (self w))
                        (globalLog w)
        /\ symMesh (self w') = map (meshOf (gInfo_S (gInfo e))) (sym (self w))
        /\ length (symMesh (self w')) = length (sym (self w))
        /\ sym (self w') = sym (self w)
        /\ mode (self w') = mode (self w)
        /\ atomMap (self w') = atomMap (self w)
        /\ symmIndex (self w') = symmIndex (self w)
        /\ nSymmIndex (self w') = nSymmIndex (self w)
        /\ globalLog w' = globalLog w
        /\ forall k m, sym (self w) !! k = Some m ->
             exists mesh,
               symMesh (self w') !! k = Some mesh
               /\ (forall i j,
                     mget mesh i j * vget (gInfo_S (gInfo e)) j
                     = mget (mmul (Diag (gInfo_S (gInfo e))) m) i j)
               /\ mmul mesh (Diag (gInfo_S (gInfo e)))
                  = mmul (Diag (gInfo_S (gInfo e))) m).
Proof.
  intros Hnz. set (S := gInfo_S (gInfo e)) in *.
  assert (Hcases :
    (checkFFTbox e w
     = Ok (tt, mkWorld (set_symMesh (map (meshOf S) (sym (self w))) (self w))
                       (globalLog w)) /\
     forall m, In m (sym (self w)) ->
       forall i j, Z.rem (mget (mmul (Diag S) m) i j) (vget S j) = 0)
    \/ ((exists msg, checkFFTbox e w = Died msg) /\
        exists m i j, In m (sym (self w)) /\
          Z.rem (mget (mmul (Diag S) m) i j) (vget S j) <> 0)).
  { unfold checkFFTbox, bind, this. fold S.
    destruct (mapM_meshMatrix S (sym (self w)) w)
      as [[Hrun Hall] | [[msg Hrun] Hex]]; rewrite Hrun.
    - left. split; [reflexivity | exact Hall].
    - right. split; [now exists msg | exact Hex]. }
  destruct Hcases as [[Hrun Hall] | [[msg Hrun] (m & i & j & Hin & Hij)]].
  - split.
    + split; [intros [msg Hd]; congruence|].
      intros (m & i & j & Hin & Hnd). exfalso. apply Hnd.
      apply (Z.rem_divide _ _ (Hnz j)). now apply Hall.
    + intros Hdiv. eexists. split; [exact Hrun|].
      split; [reflexivity|]. cbn [self globalLog set_symMesh symMesh sym mode
                                  atomMap symmIndex nSymmIndex].
      split; [reflexivity|]. split; [apply length_map|].
      do 6 (split; [reflexivity|]).
      intros k m Hk. exists (meshOf S m).
      assert (Hin : In m (sym (self w))).
      { apply list_elem_of_In, list_elem_of_lookup. now exists k. }
      split; [now rewrite list_lookup_fmap, Hk|]. split.
      * intros i j. pose proof (Hall m Hin i j) as Hrem.
        apply (Z.quot_exact _ _ (Hnz j)) in Hrem.
        transitivity (vget S j * (mget (mmul (Diag S) m) i j ÷ vget S j));
          [|now symmetry].
        destruct i, j; cbn; lia.
      * apply meshOf_exact; [exact Hnz|]. intros i j. now apply Hdiv.
  - split.
    + split; [|intros _; now exists msg].
      intros _. exists m, i, j. split; [exact Hin|].
      intros Hd. apply Hij. now apply (Z.rem_divide _ _ (Hnz j)).
    + intros Hdiv. exfalso. apply Hij.
      apply (Z.rem_divide _ _ (Hnz j)). now apply Hdiv.
Qed.

(** ** Loops in the monad *)

Lemma mapM_Ok {A B : Type} (body : A -> M B) (l : list A) (w w' : World)
  (ys : list B) :
  mapM body l w = Ok (ys, w') ->
  Forall2 (fun x y => exists w1 w2, body x w1 = Ok (y, w2)) l ys.
Proof.
  revert w ys. induction l as [|x rest IH]; intros w ys; cbn [mapM].
  - unfold ret. intros [= <- _]. constructor.
  - unfold bind at 1. destruct (body x w) as [[y w1]| |] eqn:Hx; try discriminate.
    unfold bind at 1.
    destruct (mapM body rest w1) as [[ys' w2]| |] eqn:Hr; try discriminate.
    unfold ret. intros [= <- <-]. constructor; [now exists w, w1|].
    now apply (IH w1).
Qed.

Lemma mapM_Died {A B : Type} (body : A -> M B) (l : list A) (w : World)
  (msg : string) :
  mapM body l w = Died msg ->
  exists x w1, In x l /\ body x w1 = Died msg.
Proof.
  revert w. induction l as [|x rest IH]; intros w; cbn [mapM].
  - discriminate.
  - unfold bind at 1. destruct (body x w) as [[y w1]| |] eqn:Hx.
    + unfold bind at 1.
      destruct (mapM body rest w1) as [[ys' w2]| |] eqn:Hr; try discriminate.
      intros [= <-]. destruct (IH _ Hr) as (x' & w' & Hin & Hd).
      exists x', w'. split; [now right | exact Hd].
    + intros [= <-]. exists x, w. split; [now left | exact Hx].
    + discriminate.
Qed.

Lemma mapM_returns {A B : Type} (body : A -> M B) (l : list A) (w : World) :
  (forall x w1, In x l -> body x w1 <> OutOfFuel) ->
  mapM body l w <> OutOfFuel.
Proof.
  revert w. induction l as [|x rest IH]; intros w Hb; cbn [mapM].
  - discriminate.
  - unfold bind at 1. destruct (body x w) as [[y w1]| |] eqn:Hx.
    + unfold bind at 1.
      destruct (mapM body rest w1) as [[ys' w2]| |] eqn:Hr; try discriminate.
      exfalso. apply (IH w1); [|exact Hr].
      intros x' w' Hin. apply Hb. now right.
    + discriminate.
    + exfalso. apply (Hb x w); [now left | exact Hx].
Qed.

Lemma zip_seq_lookup {A : Type} (l : list A) (i : nat) (x : A) :
  l !! i = Some x -> zip (seq 0 (length l)) l !! i = Some (i, x).
Proof.
  intros Hx. apply lookup_zip_with_Some. exists i, x.
  split; [reflexivity|]. split; [|exact Hx].
  apply lookup_seq. split; [reflexivity|]. now apply lookup_lt_Some in Hx.
Qed.

Lemma zip_seq_In {A : Type} (l : list A) (i : nat) (x : A) :
  In (i, x) (zip (seq 0 (length l)) l) -> l !! i = Some x.
Proof.
  intros Hin. apply list_elem_of_In, list_elem_of_lookup in Hin as [k Hk].
  apply lookup_zip_with_Some in Hk as (i' & x' & [= <- <-] & Hs & Hl).
  apply lookup_seq in Hs as [-> _]. exact Hl.
Qed.

Lemma mapMi_Ok {A B : Type} (body : nat -> A -> M B) (l : list A)
  (w w' : World) (ys : list B) :
  mapMi body l w = Ok (ys, w') ->
  forall i x, l !! i = Some x ->
    exists y w1 w2, ys !! i = Some y /\ body i x w1 = Ok (y, w2).
Proof.
  unfold mapMi. intros Hrun i x Hx.
  apply mapM_Ok in Hrun.
  destruct (Forall2_lookup_l _ _ _ i (i, x) Hrun (zip_seq_lookup l i x Hx))
    as (y & Hy & w1 & w2 & Hb).
  now exists y, w1, w2.
Qed.

Lemma mapMi_Died {A B : Type} (body : nat -> A -> M B) (l : list A)
  (w : World) (msg : string) :
  mapMi body l w = Died msg ->
  exists i x w1, l !! i = Some x /\ body i x w1 = Died msg.
Proof.
  unfold mapMi. intros Hrun. apply mapM_Died in Hrun as ([i x] & w1 & Hin & Hd).
  exists i, x, w1. split; [now apply zip_seq_In | exact Hd].
Qed.

Lemma mapMi_returns {A B : Type} (body : nat -> A -> M B) (l : list A)
  (w : World) :
  (forall i x w1, l !! i = Some x -> body i x w1 <> OutOfFuel) ->
  mapMi body l w <> OutOfFuel.
Proof.
  unfold mapMi. intros Hb. apply mapM_returns.
  intros [i x] w1 Hin. apply Hb. now apply zip_seq_In.
Qed.

Lemma mapM_self {A B : Type} (body : A -> M B) (l : list A) :
  (forall x w1 y w2, body x w1 = Ok (y, w2) -> self w2 = self w1) ->
  forall w ys w', mapM body l w = Ok (ys, w') -> self w' = self w.
Proof.
  intros Hb. induction l as [|x rest IH]; intros w ys w'; cbn [mapM].
  - unfold ret. now intros [= _ <-].
  - unfold bind at 1. destruct (body x w) as [[y w1]| |] eqn:Hx; try discriminate.
    unfold bind at 1.
    destruct (mapM body rest w1) as [[ys' w2]| |] eqn:Hr; try discriminate.
    unfold ret. intros [= _ <-].
    rewrite (IH _ _ _ Hr). exact (Hb _ _ _ _ Hx).
Qed.

Lemma mapMi_self {A B : Type} (body : nat -> A -> M B) (l : list A) :
  (forall i x w1 y w2, body i x w1 = Ok (y, w2) -> self w2 = self w1) ->
  forall w ys w', mapMi body l w = Ok (ys, w') -> self w' = self w.
Proof.
  intros Hb. unfold mapMi. apply mapM_self.
  intros [i x] w1 y w2. apply Hb.
Qed.

Lemma when_log_self (b : bool) (fmt : string) (w w' : World) (u : unit) :
  when b (logPrintf fmt) w = Ok (u, w') -> self w' = self w.
Proof.
  destruct b; cbn; unfold logPrintf, ret; now intros [= _ <-].
Qed.

(** ** initAtomMaps *)

(** The loop over [at2]: it never stops for want of an image; it dies only
    on two atoms within the bound whose move scale factors differ, and
    otherwise leaves the last atom within the bound, or the slot as it was. *)
Lemma findAtom_returns (spInfo : SpeciesInfo) (mp : vector3 Q)
  (at1 cur at2 : nat) (l : list (vector3 Q)) (w : World) :
  findAtom spInfo mp at1 cur at2 l w <> OutOfFuel.
Proof.
  revert cur at2. induction l as [|p rest IH]; intros cur at2; cbn [findAtom].
  - discriminate.
  - destruct (Qltb _ _); [destruct (Qeq_bool _ _)|]; try apply IH.
    discriminate.
Qed.

Lemma findAtom_Died (spInfo : SpeciesInfo) (mp : vector3 Q)
  (at1 cur at2 : nat) (l : list (vector3 Q)) (w : World) (msg : string) :
  findAtom spInfo mp at1 cur at2 l w = Died msg ->
  exists k pos2, l !! k = Some pos2 /\
    (circDistanceSquared mp pos2 < MIN_SYMM_TOL)%Q /\
    ~ (nth_Q (moveScale spInfo) at1 == nth_Q (moveScale spInfo) (at2 + k))%Q.
Proof.
  revert cur at2. induction l as [|p rest IH]; intros cur at2; cbn [findAtom].
  - discriminate.
  - destruct (Qltb _ _) eqn:Hb; [destruct (Qeq_bool _ _) eqn:Hs|].
    + intros Hd. destruct (IH _ _ Hd) as (k & pos2 & Hk & Hlt & Hne).
      exists (Datatypes.S k), pos2. split; [exact Hk|]. split; [exact Hlt|].
      now replace (at2 + Datatypes.S k)%nat with (Datatypes.S at2 + k)%nat by lia.
    + intros _. exists 0%nat, p. split; [reflexivity|].
      split; [now apply Qltb_lt|].
      rewrite Nat.add_0_r. intros Heq. apply Qeq_bool_iff in Heq. congruence.
    + intros Hd. destruct (IH _ _ Hd) as (k & pos2 & Hk & Hlt & Hne).
      exists (Datatypes.S k), pos2. split; [exact Hk|]. split; [exact Hlt|].
      now replace (at2 + Datatypes.S k)%nat with (Datatypes.S at2 + k)%nat by lia.
Qed.

Lemma findAtom_Ok (spInfo : SpeciesInfo) (mp : vector3 Q)
  (at1 cur at2 : nat) (l : list (vector3 Q)) (w w' : World) (a : nat) :
  findAtom spInfo mp at1 cur at2 l w = Ok (a, w') ->
  w' = w /\
  (forall k pos2, l !! k = Some pos2 ->
     (circDistanceSquared mp pos2 < MIN_SYMM_TOL)%Q ->
     (nth_Q (moveScale spInfo) at1 == nth_Q (moveScale spInfo) (at2 + k))%Q) /\
  ((a = cur /\
    forall pos2, In pos2 l -> ~ (circDistanceSquared mp pos2 < MIN_SYMM_TOL)%Q)
   \/ (exists k pos2, a = (at2 + k)%nat /\ l !! k = Some pos2 /\
         (circDistanceSquared mp pos2 < MIN_SYMM_TOL)%Q /\
         forall k' pos', (k < k')%nat -> l !! k' = Some pos' ->
           ~ (circDistanceSquared mp pos' < MIN_SYMM_TOL)%Q)).
Proof.
  revert cur at2. induction l as [|p rest IH]; intros cur at2; cbn [findAtom].
  - unfold ret. intros [= <- <-]. split; [reflexivity|].
    split; [intros k pos2 Hk; now rewrite lookup_nil in Hk|].
    left. split; [reflexivity | intros ? []].
  - destruct (Qltb _ _) eqn:Hb; [destruct (Qeq_bool _ _) eqn:Hs|].
    + intros Hrun. destruct (IH _ _ Hrun) as (-> & Hscale & Hlast).
      split; [reflexivity|]. split.
      * intros [|k] pos2 Hk Hlt.
        -- rewrite Nat.add_0_r. now apply Qeq_bool_iff.
        -- replace (at2 + Datatypes.S k)%nat with (Datatypes.S at2 + k)%nat by lia.
           now apply (Hscale k pos2).
      * right. destruct Hlast as [[-> Hnone] | (k & pos2 & -> & Hk & Hlt & Hafter)].
        -- exists 0%nat, p. split; [lia|]. split; [reflexivity|].
           split; [now apply Qltb_lt|].
           intros [|k'] pos' Hlt' Hk'; [lia|].
           apply Hnone. apply list_elem_of_In, list_elem_of_lookup. now exists k'.
        -- exists (Datatypes.S k), pos2. split; [lia|]. split; [exact Hk|].
           split; [exact Hlt|].
           intros [|k'] pos' Hlt' Hk'; [lia|].
           apply (Hafter k' pos'); [lia | exact Hk'].
    + discriminate.
    + intros Hrun. destruct (IH _ _ Hrun) as (-> & Hscale & Hlast).
      apply Qltb_nlt in Hb.
      split; [reflexivity|]. split.
      * intros [|k] pos2 Hk Hlt.
        -- cbn in Hk. injection Hk as <-. contradiction.
        -- replace (at2 + Datatypes.S k)%nat with (Datatypes.S at2 + k)%nat by lia.
           now apply (Hscale k pos2).
      * destruct Hlast as [[-> Hnone] | (k & pos2 & -> & Hk & Hlt & Hafter)].
        -- left. split; [reflexivity|].
           intros pos2 [<- | Hin]; [exact Hb | now apply Hnone].
        -- right. exists (Datatypes.S k), pos2. split; [lia|]. split; [exact Hk|].
           split; [exact Hlt|].
           intros [|k'] pos' Hlt' Hk'; [lia|].
           apply (Hafter k' pos'); [lia | exact Hk'].
Qed.

Lemma atomMapEntry_inv (s : Symmetries) (sp : nat) (spInfo : SpeciesInfo)
  (at1 : nat) (pos1 : vector3 Q) (iRot : nat) (m : matrix3 Z) (w1 : World) :
  match atomMapEntry s sp spInfo at1 pos1 iRot m w1 with
  | Ok (a, _) =>
      exists w2, findAtom spInfo (mvmul (m_i2d m) pos1) at1
                   (slotBefore (atomMap s) sp at1 iRot) 0 (atpos spInfo) w1
                 = Ok (a, w2)
  | Died msg =>
      findAtom spInfo (mvmul (m_i2d m) pos1) at1
        (slotBefore (atomMap s) sp at1 iRot) 0 (atpos spInfo) w1 = Died msg
  | OutOfFuel => False
  end.
Proof.
  unfold atomMapEntry, bind.
  destruct (findAtom _ _ _ _ _ _ w1) as [[a w2]| |] eqn:Hf.
  - destruct (shouldPrintMatrices s); cbn; now exists w2.
  - reflexivity.
  - now apply findAtom_returns in Hf.
Qed.

Lemma atomMapRow_inv (s : Symmetries) (sp : nat) (spInfo : SpeciesInfo)
  (at1 : nat) (pos1 : vector3 Q) (w1 : World) :
  match atomMapRow s sp spInfo at1 pos1 w1 with
  | Ok (row, _) =>
      exists wa wb,
        mapMi (atomMapEntry s sp spInfo at1 pos1) (sym s) wa = Ok (row, wb)
  | Died msg =>
      exists wa,
        mapMi (atomMapEntry s sp spInfo at1 pos1) (sym s) wa = Died msg
  | OutOfFuel => False
  end.
Proof.
  unfold atomMapRow, bind.
  destruct (when _ _ w1) as [[[] wa]| |] eqn:Hw;
    [|destruct (shouldPrintMatrices s); discriminate ..].
  destruct (mapMi _ _ wa) as [[row wb]| |] eqn:Hr.
  - destruct (shouldPrintMatrices s); cbn; now exists wa, wb.
  - now exists wa.
  - apply mapMi_returns in Hr; [exact Hr|].
    intros iRot m w2 _ Hoof.
    pose proof (atomMapEntry_inv s sp spInfo at1 pos1 iRot m w2) as Hinv.
    now rewrite Hoof in Hinv.
Qed.

Lemma atomMapSpecies_returns (s : Symmetries) (sp : nat) (spInfo : SpeciesInfo)
  (w1 : World) :
  atomMapSpecies s sp spInfo w1 <> OutOfFuel.
Proof.
  unfold atomMapSpecies. apply mapMi_returns.
  intros at1 pos1 w2 _ Hoof.
  pose proof (atomMapRow_inv s sp spInfo at1 pos1 w2) as Hinv.
  now rewrite Hoof in Hinv.
Qed.

(** What [initAtomMaps] does on a group of more than one element. *)
Lemma initAtomMaps_unfold (e : Everything) (w : World) :
  length (sym (self w)) <> 1%nat ->
  exists w0,
    self w0 = self w /\
    initAtomMaps e w
    = match mapMi (atomMapSpecies (self w)) (species e) w0 with
      | Ok (newMap, w1) =>
          Ok (tt, mkWorld (set_atomMap newMap (self w1)) (globalLog w1))
      | Died msg => Died msg
      | OutOfFuel => OutOfFuel
      end.
Proof.
  intros Hlen. unfold initAtomMaps, bind, this.
  apply Nat.eqb_neq in Hlen. rewrite Hlen.
  destruct (shouldPrintMatrices (self w)); cbn; eexists; (split; [|reflexivity]);
    reflexivity.
Qed.

Lemma initAtomMaps_returns (e : Everything) (w : World) :
  initAtomMaps e w <> OutOfFuel.
Proof.
  destruct (Nat.eq_dec (length (sym (self w))) 1%nat) as [Hlen | Hlen].
  - unfold initAtomMaps, bind, this. apply Nat.eqb_eq in Hlen. now rewrite Hlen.
  - destruct (initAtomMaps_unfold e w Hlen) as (w0 & _ & ->).
    destruct (mapMi _ _ w0) as [[newMap w1]| |] eqn:Hr; try discriminate.
    exfalso. apply mapMi_returns in Hr; [exact Hr|].
    intros sp spInfo w2 _. apply atomMapSpecies_returns.
Qed.

Lemma initAtomMaps_Ok_entries (e : Everything) (w w' : World) :
  length (sym (self w)) <> 1%nat ->
  initAtomMaps e w = Ok (tt, w') ->
  forall sp spInfo at1 pos1 iRot m,
    species e !! sp = Some spInfo -> atpos spInfo !! at1 = Some pos1 ->
    sym (self w) !! iRot = Some m ->
    exists a w1 w2,
      atomMapAt (self w') sp at1 iRot = Some a /\
      findAtom spInfo (mvmul (m_i2d m) pos1) at1
        (slotBefore (atomMap (self w)) sp at1 iRot) 0 (atpos spInfo) w1
      = Ok (a, w2).
Proof.
  intros Hlen Hrun sp spInfo at1 pos1 iRot m Hsp Hat Hm.
  destruct (initAtomMaps_unfold e w Hlen) as (w0 & _ & Heq). rewrite Heq in Hrun.
  destruct (mapMi _ _ w0) as [[newMap w1]| |] eqn:Hmap; try discriminate.
  injection Hrun as <-.
  destruct (mapMi_Ok _ _ _ _ _ Hmap sp spInfo Hsp) as (rows & wa & wb & Hrows & Hsprun).
  unfold atomMapSpecies in Hsprun.
  destruct (mapMi_Ok _ _ _ _ _ Hsprun at1 pos1 Hat) as (row & wc & wd & Hrow & Hrowrun).
  pose proof (atomMapRow_inv (self w) sp spInfo at1 pos1 wc) as Hinv.
  rewrite Hrowrun in Hinv. destruct Hinv as (we & wf & Hentries).
  destruct (mapMi_Ok _ _ _ _ _ Hentries iRot m Hm) as (a & wg & wh & Ha & Harun).
  pose proof (atomMapEntry_inv (self w) sp spInfo at1 pos1 iRot m wg) as Hinv.
  rewrite Harun in Hinv. destruct Hinv as (wi & Hfind).
  exists a, wg, wi. split; [|exact Hfind].
  unfold atomMapAt. cbn. now rewrite Hrows, Hrow.
Qed.

Lemma initAtomMaps_Died_entry (e : Everything) (w : World) (msg : string) :
  initAtomMaps e w = Died msg ->
  length (sym (self w)) <> 1%nat /\
  exists sp spInfo at1 pos1 iRot m w1,
    species e !! sp = Some spInfo /\ atpos spInfo !! at1 = Some pos1 /\
    sym (self w) !! iRot = Some m /\
    findAtom spInfo (mvmul (m_i2d m) pos1) at1
      (slotBefore (atomMap (self w)) sp at1 iRot) 0 (atpos spInfo) w1
    = Died msg.
Proof.
  intros Hrun.
  destruct (Nat.eq_dec (length (sym (self w))) 1%nat) as [Hlen | Hlen].
  { unfold initAtomMaps, bind, this in Hrun. apply Nat.eqb_eq in Hlen.
    now rewrite Hlen in Hrun. }
  split; [exact Hlen|].
  destruct (initAtomMaps_unfold e w Hlen) as (w0 & _ & Heq). rewrite Heq in Hrun.
  destruct (mapMi _ _ w0) as [[newMap w1]| |] eqn:Hmap; try discriminate.
  injection Hrun as ->.
  apply mapMi_Died in Hmap as (sp & spInfo & wa & Hsp & Hsprun).
  unfold atomMapSpecies in Hsprun.
  apply mapMi_Died in Hsprun as (at1 & pos1 & wb & Hat & Hrowrun).
  pose proof (atomMapRow_inv (self w) sp spInfo at1 pos1 wb) as Hinv.
  rewrite Hrowrun in Hinv. destruct Hinv as (wc & Hentries).
  apply mapMi_Died in Hentries as (iRot & m & wd & Hm & Harun).
  pose proof (atomMapEntry_inv (self w) sp spInfo at1 pos1 iRot m wd) as Hinv.
  rewrite Harun in Hinv.
  now exists sp, spInfo, at1, pos1, iRot, m, wd.
Qed.

Lemma atomMapSpecies_self (s : Symmetries) (sp : nat) (spInfo : SpeciesInfo)
  (w1 w2 : World) (rows : list (list nat)) :
  atomMapSpecies s sp spInfo w1 = Ok (rows, w2) -> self w2 = self w1.
Proof.
  unfold atomMapSpecies. apply mapMi_self.
  intros at1 pos1 wa row wd. unfold atomMapRow, bind.
  destruct (when _ _ wa) as [[[] wb]| |] eqn:Hw1; try discriminate.
  destruct (mapMi _ _ wb) as [[row' wc]| |] eqn:Hr; try discriminate.
  destruct (when _ _ wc) as [[[] we]| |] eqn:Hw2; try discriminate.
  unfold ret. intros [= _ <-].
  rewrite (when_log_self _ _ _ _ _ Hw2).
  rewrite <- (when_log_self _ _ _ _ _ Hw1).
  revert Hr. apply mapMi_self.
  intros iRot m wf a wg. unfold atomMapEntry, bind.
  destruct (findAtom _ _ _ _ _ _ wf) as [[a' wh]| |] eqn:Hf; try discriminate.
  apply findAtom_Ok in Hf as (-> & _).
  destruct (when _ _ wf) as [[[] wi]| |] eqn:Hw3; try discriminate.
  unfold ret. intros [= _ <-]. exact (when_log_self _ _ _ _ _ Hw3).
Qed.

Lemma initAtomMaps_self (e : Everything) (w w' : World) :
  initAtomMaps e w = Ok (tt, w') -> sym (self w') = sym (self w).
Proof.
  intros Hrun.
  destruct (Nat.eq_dec (length (sym (self w))) 1%nat) as [Hlen | Hlen].
  { unfold initAtomMaps, bind, this in Hrun. apply Nat.eqb_eq in Hlen.
    rewrite Hlen in Hrun. unfold ret in Hrun. now injection Hrun as <-. }
  destruct (initAtomMaps_unfold e w Hlen) as (w0 & Hw0 & Heq).
  rewrite Heq in Hrun.
  destruct (mapMi _ _ w0) as [[newMap w1]| |] eqn:Hmap; try discriminate.
  injection Hrun as <-. cbn.
  apply mapMi_self in Hmap.
  - now rewrite Hmap, Hw0.
  - intros sp spInfo wa rows wb. apply atomMapSpecies_self.
Qed.

(** C5 (amended): on a group of more than one element, [initAtomMaps]
    always comes back; it ends the run with a fatal error exactly when some
    atom has, under some symmetry, an atom of its species within
    [MIN_SYMM_TOL] of its image whose move scale factor differs from its
    own, and never for want of an image.  When it returns, the entry
    [atomMap[sp][at1][iRot]] of every atom that has an image is the index of
    an atom of the same species within [MIN_SYMM_TOL] of the image, the
    last such one. *)
Theorem initAtomMaps_spec (e : Everything) (w : World) :
  length (sym (self w)) <> 1%nat ->
  initAtomMaps e w <> OutOfFuel
  /\ ((exists msg, initAtomMaps e w = Died msg) <->
      exists sp at1 iRot at2,
        isImage e (self w) sp at1 iRot at2 /\ scalesDiffer e sp at1 at2)
  /\ (forall w', initAtomMaps e w = Ok (tt, w') ->
        sym (self w') = sym (self w) /\
        forall sp at1 iRot at2,
          isImage e (self w) sp at1 iRot at2 ->
          exists a, atomMapAt (self w') sp at1 iRot = Some a /\
                    isImage e (self w) sp at1 iRot a /\ (at2 <= a)%nat).
Proof.
  intros Hlen. split; [apply initAtomMaps_returns|].
  assert (Hok : forall w', initAtomMaps e w = Ok (tt, w') ->
    forall sp at1 iRot at2, isImage e (self w) sp at1 iRot at2 ->
      ~ scalesDiffer e sp at1 at2 /\
      exists a, atomMapAt (self w') sp at1 iRot = Some a /\
                isImage e (self w) sp at1 iRot a /\ (at2 <= a)%nat).
  { intros w' Hrun sp at1 iRot at2 (spInfo & pos1 & m & pos2 & Hsp & Hat & Hm & Hat2 & Hlt).
    destruct (initAtomMaps_Ok_entries e w w' Hlen Hrun sp spInfo at1 pos1 iRot m
                Hsp Hat Hm) as (a & w1 & w2 & Ha & Hfind).
    apply findAtom_Ok in Hfind as (_ & Hscale & Hlast).
    split.
    - intros (spInfo' & Hsp' & Hne). rewrite Hsp in Hsp'. injection Hsp' as <-.
      apply Hne. exact (Hscale at2 pos2 Hat2 Hlt).
    - exists a. split; [exact Ha|].
      destruct Hlast as [[_ Hnone] | (k & pos & -> & Hk & Hklt & Hafter)].
      + exfalso. apply (Hnone pos2); [|exact Hlt].
        apply list_elem_of_In, list_elem_of_lookup. now exists at2.
      + split; [now exists spInfo, pos1, m, pos|].
        destruct (Nat.le_gt_cases at2 k) as [Hle | Hgt]; [exact Hle|].
        exfalso. exact (Hafter at2 pos2 Hgt Hat2 Hlt). }
  split.
  - split.
    + intros [msg Hd].
      apply initAtomMaps_Died_entry in Hd
        as (_ & sp & spInfo & at1 & pos1 & iRot & m & w1 & Hsp & Hat & Hm & Hfind).
      apply findAtom_Died in Hfind as (k & pos2 & Hk & Hlt & Hne).
      exists sp, at1, iRot, k. split.
      * now exists spInfo, pos1, m, pos2.
      * now exists spInfo.
    + intros (sp & at1 & iRot & at2 & Him & Hdiff).
      destruct (initAtomMaps e w) as [[[] w']| |] eqn:Hrun.
      * exfalso. destruct (Hok w' eq_refl sp at1 iRot at2 Him) as [Hsame _].
        contradiction.
      * now exists msg.
      * exfalso. now apply (initAtomMaps_returns e w).
  - intros w' Hrun. split.
    + now apply (initAtomMaps_self e w w').
    + intros sp at1 iRot at2 Him. now apply (Hok w' Hrun).
Qed.

(** ** latticeSymmetries: the enumeration of candidates *)

Lemma small_elem (x : Z) : x ∈ [-1; 0; 1] <-> -1 <= x <= 1.
Proof.
  rewrite !elem_of_cons, elem_of_nil. lia.
Qed.

Lemma candidates_In (m : matrix3 Z) :
  In m candidates <-> forall i j, -1 <= mget m i j <= 1.
Proof.
  rewrite <- list_elem_of_In. unfold candidates. split.
  - intros H.
    apply list_elem_of_bind in H as (m00 & H & H00).
    apply list_elem_of_bind in H as (m01 & H & H01).
    apply list_elem_of_bind in H as (m02 & H & H02).
    apply list_elem_of_bind in H as (m10 & H & H10).
    apply list_elem_of_bind in H as (m11 & H & H11).
    apply list_elem_of_bind in H as (m12 & H & H12).
    apply list_elem_of_bind in H as (m20 & H & H20).
    apply list_elem_of_bind in H as (m21 & H & H21).
    apply list_elem_of_bind in H as (m22 & H & H22).
    apply list_elem_of_singleton in H as ->.
    apply small_elem in H00, H01, H02, H10, H11, H12, H20, H21, H22.
    intros [] []; cbn; assumption.
  - intros H. destruct m as [[a b c] [d f g] [h k l]].
    pose proof (H X0 X0) as H00. pose proof (H X0 X1) as H01.
    pose proof (H X0 X2) as H02. pose proof (H X1 X0) as H10.
    pose proof (H X1 X1) as H11. pose proof (H X1 X2) as H12.
    pose proof (H X2 X0) as H20. pose proof (H X2 X1) as H21.
    pose proof (H X2 X2) as H22.
    cbn in H00, H01, H02, H10, H11, H12, H20, H21, H22.
    apply small_elem in H00, H01, H02, H10, H11, H12, H20, H21, H22.
    apply list_elem_of_bind. exists a. split; [|exact H00].
    apply list_elem_of_bind. exists b. split; [|exact H01].
    apply list_elem_of_bind. exists c. split; [|exact H02].
    apply list_elem_of_bind. exists d. split; [|exact H10].
    apply list_elem_of_bind. exists f. split; [|exact H11].
    apply list_elem_of_bind. exists g. split; [|exact H12].
    apply list_elem_of_bind. exists h. split; [|exact H20].
    apply list_elem_of_bind. exists k. split; [|exact H21].
    apply list_elem_of_bind. exists l. split; [|exact H22].
    now apply list_elem_of_singleton.
Qed.

Lemma candidates_count : Z.of_nat (length candidates) = 19683.
Proof. vm_compute. reflexivity. Qed.

(** C1: the enumeration runs over the 19683 integer matrices with entries
    in {-1,0,1}, and such a matrix [m] is pushed onto the list of lattice
    symmetries if and only if [nrm2(metric - (~m)*metric*m) < MIN_SYMM_TOL],
    where [metric = (~Rreduced)*Rreduced]; [latticeSymmetries] returns that
    list, conjugated by the transmission matrix when the basis was
    reduced. *)
Theorem latticeSymmetries_accepts (fuel : nat) (e : Everything) (w : World) :
  Z.of_nat (length candidates) = 19683
  /\ (forall m, In m candidates <-> forall i j, -1 <= mget m i j <= 1)
  /\ (forall metric m,
        In m (metricSymmetries metric) <->
        (forall i j, -1 <= mget m i j <= 1) /\
        (nrm2 (msub metric (mmul (mmul (m_i2d (mtrans m)) metric) (m_i2d m)))
           < MIN_SYMM_TOL)%Q)
  /\ match reduceBasis fuel (gInfo_R (gInfo e)) with
     | None => latticeSymmetries fuel e w = OutOfFuel
     | Some st =>
         let accepted :=
           metricSymmetries (mmul (mtrans (Rreduced st)) (Rreduced st)) in
         exists w',
           self w' = self w /\
           latticeSymmetries fuel e w
           = Ok (if wasReduced (gInfo_R (gInfo e)) (Rreduced st)
                 then map (fun m => mmul (mmul (transmission st) m)
                                         (invTransmission st)) accepted
                 else accepted, w')
     end.
Proof.
  split; [apply candidates_count|]. split; [apply candidates_In|]. split.
  - intros metric m. unfold metricSymmetries.
    rewrite filter_In, candidates_In. unfold leavesInvariant.
    now rewrite Qltb_lt.
  - unfold latticeSymmetries.
    destruct (reduceBasis fuel (gInfo_R (gInfo e))) as [st|]; [|reflexivity].
    cbn zeta. destruct (wasReduced _ _).
    + eexists. split; [|reflexivity]. reflexivity.
    + exists w. split; reflexivity.
Qed.

(** ** latticeSymmetries: the reduction of the basis *)

Lemma tol_pos : (0 < MIN_SYMM_TOL)%Q.
Proof. reflexivity. Qed.

(** An elementary transformation either leaves the state alone or is
    accepted, and then it lowers the norm by more than the tolerance. *)
Lemma tryMove_cases (st : Reduction) (mv : idx3 * Z * Z) :
  tryMove st mv = st
  \/ (changed (tryMove st mv) = true /\
      (nrm2 (Rreduced (tryMove st mv))
         < nrm2 (Rreduced st) - MIN_SYMM_TOL)%Q).
Proof.
  destruct mv as [[k1 i] j]. unfold tryMove.
  destruct (elementary k1 i j) as [d dInv].
  destruct (Qltb _ _) eqn:E; [right | now left].
  split; [reflexivity|]. cbn. now apply Qltb_lt.
Qed.

Lemma moves_norm (l : list (idx3 * Z * Z)) (st : Reduction) :
  (nrm2 (Rreduced (fold_left tryMove l st)) <= nrm2 (Rreduced st))%Q /\
  (changed (fold_left tryMove l st) = true ->
   changed st = true \/
   (nrm2 (Rreduced (fold_left tryMove l st))
      < nrm2 (Rreduced st) - MIN_SYMM_TOL)%Q).
Proof.
  revert st. induction l as [|mv rest IH]; intros st; cbn [fold_left].
  - split; [apply Qle_refl | now left].
  - destruct (IH (tryMove st mv)) as [Hle Hch].
    pose proof tol_pos as Htol.
    destruct (tryMove_cases st mv) as [Heq | [Hc Hlt]].
    + rewrite Heq in *. now split.
    + split; [lra|]. intros _. right. lra.
Qed.

Lemma sweep_norm (st : Reduction) :
  (nrm2 (Rreduced (sweep st)) <= nrm2 (Rreduced st))%Q /\
  (changed (sweep st) = true ->
   (nrm2 (Rreduced (sweep st)) < nrm2 (Rreduced st) - MIN_SYMM_TOL)%Q).
Proof.
  unfold sweep.
  destruct (moves_norm moves
              (mkReduction (Rreduced st) (transmission st) (invTransmission st)
                           false)) as [Hle Hch].
  split; [exact Hle|]. intros Hc. destruct (Hch Hc) as [Hf | Hlt];
    [discriminate | exact Hlt].
Qed.

Local Arguments sweep : simpl never.

Lemma iter_one {A : Type} (f : A -> A) (x : A) : Nat.iter 1 f x = f x.
Proof. reflexivity. Qed.

(** The loop stops at the first pass that changes nothing. *)
Lemma reduceLoop_stops (n : nat) (st : Reduction) :
  (forall k, (1 <= k <= n)%nat -> changed (Nat.iter k sweep st) = true) ->
  changed (Nat.iter (Datatypes.S n) sweep st) = false ->
  forall fuel, (n < fuel)%nat ->
    reduceLoop fuel st = Some (Nat.iter (Datatypes.S n) sweep st).
Proof.
  revert st. induction n as [|n IH]; intros st Hbusy Hquiet fuel Hfuel;
    (destruct fuel as [|fuel]; [lia|]); cbn [reduceLoop].
  - rewrite iter_one in Hquiet |- *. rewrite Hquiet. exact eq_refl.
  - pose proof (Hbusy 1%nat ltac:(lia)) as H1.
    rewrite iter_one in H1. rewrite H1.
    rewrite (Nat.iter_succ_r (Datatypes.S n)). apply IH; [| |lia].
    + intros k Hk. rewrite <- Nat.iter_succ_r. apply Hbusy. lia.
    + rewrite <- Nat.iter_succ_r. exact Hquiet.
Qed.

Lemma inject_nat_succ (N : nat) :
  (inject_Z (Z.of_nat (Datatypes.S N)) == inject_Z (Z.of_nat N) + 1)%Q.
Proof.
  rewrite Nat2Z.inj_succ. unfold Z.succ. now rewrite inject_Z_plus.
Qed.

(** A norm bounded below leaves room for finitely many passes that change
    something. *)
Lemma quiet_pass_exists (N : nat) (st : Reduction) :
  (forall M, (0 <= nrm2 M)%Q) ->
  (nrm2 (Rreduced st) <= inject_Z (Z.of_nat N) * MIN_SYMM_TOL)%Q ->
  exists n,
    (forall k, (1 <= k <= n)%nat -> changed (Nat.iter k sweep st) = true) /\
    changed (Nat.iter (Datatypes.S n) sweep st) = false /\
    (inject_Z (Z.of_nat n) * MIN_SYMM_TOL <= nrm2 (Rreduced st))%Q.
Proof.
  intros Hnn. revert st. induction N as [|N IH]; intros st Hbound.
  - exists 0%nat. split; [intros k Hk; lia|]. rewrite iter_one. split.
    + destruct (changed (sweep st)) eqn:Hc; [|reflexivity].
      exfalso. destruct (sweep_norm st) as [_ Hlt]. specialize (Hlt Hc).
      pose proof (Hnn (Rreduced (sweep st))). pose proof tol_pos.
      change (inject_Z (Z.of_nat 0)) with 0%Q in Hbound. lra.
    + change (inject_Z (Z.of_nat 0)) with 0%Q.
      specialize (Hnn (Rreduced st)). lra.
  - destruct (changed (sweep st)) eqn:Hc.
    + destruct (sweep_norm st) as [_ Hlt]. specialize (Hlt Hc).
      rewrite inject_nat_succ in Hbound.
      destruct (IH (sweep st)) as (n & Hbusy & Hquiet & Hn); [lra|].
      exists (Datatypes.S n). split; [|split].
      * intros [|k] Hk; [lia|]. rewrite Nat.iter_succ_r.
        destruct k as [|k]; [exact Hc|]. apply Hbusy. lia.
      * rewrite (Nat.iter_succ_r (Datatypes.S n)). exact Hquiet.
      * rewrite inject_nat_succ. lra.
    + exists 0%nat. split; [intros k Hk; lia|]. rewrite iter_one.
      split; [exact Hc|].
      change (inject_Z (Z.of_nat 0)) with 0%Q.
      specialize (Hnn (Rreduced st)). lra.
Qed.

Lemma norm_below_some_multiple (x : Q) :
  (0 <= x)%Q ->
  (x <= inject_Z (Z.of_nat (Z.to_nat (Qceiling (x / MIN_SYMM_TOL))))
        * MIN_SYMM_TOL)%Q.
Proof.
  intros Hx. pose proof tol_pos as Htol.
  pose proof (Qle_ceiling (x / MIN_SYMM_TOL)) as Hc.
  assert (Hz : (inject_Z (Qceiling (x / MIN_SYMM_TOL))
                <= inject_Z (Z.of_nat (Z.to_nat (Qceiling (x / MIN_SYMM_TOL)))))%Q).
  { rewrite <- Zle_Qle. lia. }
  assert (Hx' : (x == x / MIN_SYMM_TOL * MIN_SYMM_TOL)%Q).
  { field. unfold MIN_SYMM_TOL. discriminate. }
  rewrite Hx' at 1. apply Qmult_le_compat_r; [|now apply Qlt_le_weak].
  eapply Qle_trans; [exact Hc | exact Hz].
Qed.

(** C8: with a norm that is never negative, the reduction loop ends for
    every lattice matrix [R]: an accepted transformation lowers
    [nrm2(Rreduced)] by more than [MIN_SYMM_TOL], so at most
    [nrm2(R)/MIN_SYMM_TOL] passes change anything, and the loop returns at
    the first pass that changes nothing. *)
Theorem reduceBasis_terminates (R : matrix3 Q) :
  (forall M, (0 <= nrm2 M)%Q) ->
  (forall st mv,
      tryMove st mv = st
      \/ (changed (tryMove st mv) = true /\
          (nrm2 (Rreduced (tryMove st mv))
             < nrm2 (Rreduced st) - MIN_SYMM_TOL)%Q))
  /\ exists n,
       let start := mkReduction R identity identity false in
       (forall fuel, (n < fuel)%nat ->
          reduceBasis fuel R = Some (Nat.iter (Datatypes.S n) sweep start))
       /\ (forall k, (1 <= k <= n)%nat ->
             changed (Nat.iter k sweep start) = true)
       /\ changed (Nat.iter (Datatypes.S n) sweep start) = false
       /\ (inject_Z (Z.of_nat n) * MIN_SYMM_TOL <= nrm2 R)%Q.
Proof.
  intros Hnn. split; [apply tryMove_cases|].
  destruct (quiet_pass_exists
              (Z.to_nat (Qceiling (nrm2 R / MIN_SYMM_TOL)))
              (mkReduction R identity identity false) Hnn)
    as (n & Hbusy & Hquiet & Hn).
  { apply norm_below_some_multiple, Hnn. }
  exists n. cbv zeta. split; [|split; [exact Hbusy | split; [exact Hquiet | exact Hn]]].
  intros fuel Hfuel. unfold reduceBasis. now apply reduceLoop_stops.
Qed.

(** ** symmetrize (scalar fields) *)

Section ScalarField.
Variable nRot : nat.
Variable symmIndex : list nat.

(** The field indices of class [i], in the order of the table. *)
Let classIdx (i : nat) : list nat :=
  map (fun j => nth_nat symmIndex (nRot * i + j)) (seq 0 nRot).

(** *** In any arithmetic *)

Section AnyArithmetic.
Context {D : Type} `{DoubleOps D}.

Lemma fill_length (v : D) (i : nat) (js : list nat) (x : list D) :
  length (fold_left (fun x j => <[nth_nat symmIndex (nRot * i + j) := v]> x) js x)
  = length x.
Proof.
  revert x. induction js as [|j rest IH]; intros x; cbn [fold_left];
    [reflexivity|].
  now rewrite IH, length_insert.
Qed.

Lemma fill_other (v : D) (i : nat) (js : list nat) (x : list D) (p : nat) :
  p ∉ map (fun j => nth_nat symmIndex (nRot * i + j)) js ->
  nth_D (fold_left (fun x j => <[nth_nat symmIndex (nRot * i + j) := v]> x) js x) p
  = nth_D x p.
Proof.
  revert x. induction js as [|j rest IH]; intros x Hp; cbn [fold_left];
    [reflexivity|].
  cbn [map] in Hp. apply not_elem_of_cons in Hp as [Hne Hp].
  rewrite IH by exact Hp. unfold nth_D.
  now rewrite list_lookup_insert_ne by congruence.
Qed.

Lemma fill_hit (v : D) (i : nat) (js : list nat) (x : list D) (p : nat) :
  p ∈ map (fun j => nth_nat symmIndex (nRot * i + j)) js ->
  (p < length x)%nat ->
  nth_D (fold_left (fun x j => <[nth_nat symmIndex (nRot * i + j) := v]> x) js x) p
  = v.
Proof.
  revert x. induction js as [|j rest IH]; intros x Hp Hlen; cbn [fold_left].
  - cbn in Hp. now apply elem_of_nil in Hp.
  - destruct (decide (p ∈ map (fun j => nth_nat symmIndex (nRot * i + j)) rest))
      as [Hin | Hnot].
    + apply IH; [exact Hin | now rewrite length_insert].
    + rewrite fill_other by exact Hnot.
      cbn [map] in Hp. apply elem_of_cons in Hp as [-> | Hin]; [|contradiction].
      unfold nth_D. now rewrite list_lookup_insert_eq.
Qed.

Lemma classSum_ext (x x' : list D) (i : nat) :
  (forall p, p ∈ classIdx i -> nth_D x p = nth_D x' p) ->
  classSum nRot x symmIndex i = classSum nRot x' symmIndex i.
Proof.
  unfold classSum, classIdx. generalize d_zero as acc.
  generalize (seq 0 nRot) as js.
  induction js as [|j rest IH]; intros acc Hx; cbn [fold_left]; [reflexivity|].
  rewrite (Hx (nth_nat symmIndex (nRot * i + j))) by (cbn [map]; apply elem_of_cons; now left).
  apply IH. intros p Hp. apply Hx. cbn [map]. apply elem_of_cons. now right.
Qed.

(** One class: its points receive the scaled sum, the others are kept. *)
Lemma symmetrize_class_spec (x : list D) (i : nat) :
  length (symmetrize_class nRot symmIndex x i) = length x /\
  (forall p, p ∉ classIdx i ->
     nth_D (symmetrize_class nRot symmIndex x i) p = nth_D x p) /\
  (forall p, p ∈ classIdx i -> (p < length x)%nat ->
     nth_D (symmetrize_class nRot symmIndex x i) p
     = d_mul (classSum nRot x symmIndex i) (d_div d_one (d_of_nat nRot))).
Proof.
  unfold symmetrize_class, classFill. split; [apply fill_length|]. split.
  - intros p Hp. now apply fill_other.
  - intros p Hp Hlen. now apply fill_hit.
Qed.

(** The classes [cs], pairwise disjoint and inside the field. *)
Lemma classes_spec (cs : list nat) (x : list D) :
  NoDup cs ->
  (forall i p, i ∈ cs -> p ∈ classIdx i -> (p < length x)%nat) ->
  (forall i i' p, i ∈ cs -> i' ∈ cs -> i <> i' ->
     p ∈ classIdx i -> p ∉ classIdx i') ->
  length (fold_left (symmetrize_class nRot symmIndex) cs x) = length x /\
  (forall p, (forall i, i ∈ cs -> p ∉ classIdx i) ->
     nth_D (fold_left (symmetrize_class nRot symmIndex) cs x) p = nth_D x p) /\
  (forall i p, i ∈ cs -> p ∈ classIdx i ->
     nth_D (fold_left (symmetrize_class nRot symmIndex) cs x) p
     = d_mul (classSum nRot x symmIndex i) (d_div d_one (d_of_nat nRot))).
Proof.
  revert x. induction cs as [|c rest IH]; intros x Hnd Hrange Hdisj;
    cbn [fold_left].
  - split; [reflexivity|]. split; [reflexivity|].
    intros i p Hi. now apply elem_of_nil in Hi.
  - apply NoDup_cons in Hnd as [Hc Hnd].
    destruct (symmetrize_class_spec x c) as (Hlen1 & Hother1 & Hhit1).
    destruct (IH (symmetrize_class nRot symmIndex x c)) as (Hlen & Hother & Hhit).
    + exact Hnd.
    + intros i p Hi Hp. rewrite Hlen1. apply (Hrange i); [|exact Hp].
      apply elem_of_cons. now right.
    + intros i i' p Hi Hi'. apply Hdisj; apply elem_of_cons; now right.
    + split; [now rewrite Hlen, Hlen1|]. split.
      * intros p Hp. rewrite Hother.
        -- apply Hother1. apply Hp. apply elem_of_cons. now left.
        -- intros i Hi. apply Hp. apply elem_of_cons. now right.
      * intros i p Hi Hp. apply elem_of_cons in Hi as [-> | Hi].
        -- rewrite Hother.
           ++ apply Hhit1; [exact Hp|]. apply (Hrange c); [|exact Hp].
              apply elem_of_cons. now left.
           ++ intros i Hi. apply (Hdisj c i p); try exact Hp.
              ** apply elem_of_cons. now left.
              ** apply elem_of_cons. now right.
              ** intros ->. contradiction.
        -- rewrite (Hhit i p Hi Hp). f_equal.
           apply classSum_ext. intros q Hq. apply Hother1.
           apply (Hdisj i c q); try exact Hq.
           ++ apply elem_of_cons. now right.
           ++ apply elem_of_cons. now left.
           ++ intros ->. contradiction.
Qed.

End AnyArithmetic.

(** *** In exact arithmetic *)

Lemma sum_left_right (f : nat -> Q) (js : list nat) (acc : Q) :
  (fold_left (fun a j => a + f j) js acc == acc + fold_right Qplus 0 (map f js))%Q.
Proof.
  revert acc. induction js as [|j rest IH]; intros acc; cbn [fold_left fold_right map].
  - ring.
  - rewrite IH. ring.
Qed.

Lemma classSum_exact (x : list Q) (i : nat) :
  classSum nRot x symmIndex i
  = fold_left (fun a j => (a + nth_Q x (nth_nat symmIndex (nRot * i + j)))%Q)
              (seq 0 nRot) 0%Q.
Proof. reflexivity. Qed.

Lemma classSum_average (x : list Q) (i : nat) :
  (1 <= nRot)%nat ->
  (classSum nRot x symmIndex i * (1 / inject_Z (Z.of_nat nRot))
   == orbitAverage nRot x symmIndex i)%Q.
Proof.
  intros Hn. rewrite classSum_exact. unfold orbitAverage.
  rewrite (sum_left_right (fun j => nth_Q x (nth_nat symmIndex (nRot * i + j)))).
  field. intros H0. unfold Qeq in H0. cbn in H0. lia.
Qed.

Lemma sum_constant (a : Q) (js : list nat) :
  (fold_right Qplus 0 (map (fun _ => a) js)
   == inject_Z (Z.of_nat (length js)) * a)%Q.
Proof.
  induction js as [|j rest IH]; cbn [fold_right map length].
  - change (inject_Z (Z.of_nat 0)) with 0%Q. ring.
  - rewrite IH, inject_nat_succ. ring.
Qed.

(** The average of a field that is constant on a class is that constant. *)
Lemma average_of_constant (y : list Q) (i : nat) (a : Q) :
  (1 <= nRot)%nat ->
  (forall p, p ∈ classIdx i -> nth_Q y p = a) ->
  (orbitAverage nRot y symmIndex i == a)%Q.
Proof.
  intros Hn Hconst. unfold orbitAverage.
  assert (Hmap : map (fun j => nth_Q y (nth_nat symmIndex (nRot * i + j))) (seq 0 nRot)
                 = map (fun _ => a) (seq 0 nRot)).
  { apply map_ext_in. intros j Hj. apply Hconst. unfold classIdx.
    apply list_elem_of_In, in_map_iff. now exists j. }
  rewrite Hmap, sum_constant, length_seq.
  field. intros H0. unfold Qeq in H0. cbn in H0. lia.
Qed.

End ScalarField.

Lemma table_range (nRot nClasses : nat) (symmIndex : list nat) (nr : nat)
  (i p : nat) :
  validTable nRot nClasses symmIndex nr ->
  i ∈ seq 0 nClasses ->
  p ∈ map (fun j => nth_nat symmIndex (nRot * i + j)) (seq 0 nRot) ->
  (p < nr)%nat.
Proof.
  intros [Hrange _] Hi Hp.
  apply elem_of_seq in Hi. apply list_elem_of_In, in_map_iff in Hp as (j & <- & Hj).
  apply in_seq in Hj.
  destruct (Hrange (nRot * i + j)%nat) as (q & Hq & Hlt); [nia|].
  unfold nth_nat. now rewrite Hq.
Qed.

Lemma table_disjoint (nRot nClasses : nat) (symmIndex : list nat) (nr : nat)
  (i i' p : nat) :
  validTable nRot nClasses symmIndex nr ->
  i ∈ seq 0 nClasses -> i' ∈ seq 0 nClasses -> i <> i' ->
  p ∈ map (fun j => nth_nat symmIndex (nRot * i + j)) (seq 0 nRot) ->
  p ∉ map (fun j => nth_nat symmIndex (nRot * i' + j)) (seq 0 nRot).
Proof.
  intros [_ Hdisj] Hi Hi' Hne Hp Hp'.
  apply elem_of_seq in Hi, Hi'.
  apply list_elem_of_In, in_map_iff in Hp as (j & <- & Hj).
  apply list_elem_of_In, in_map_iff in Hp' as (j' & Heq & Hj').
  apply in_seq in Hj, Hj'.
  apply (Hdisj i i' j j'); try lia.
Qed.

(** All classes of a valid table, one pass, in any arithmetic: every entry
    of a class holds the sum of the class, accumulated in the order of the
    table, times [1.0/nRot]. *)
Lemma symmetrize_sub_spec {D : Type} `{DoubleOps D} (nRot nClasses : nat)
  (symmIndex : list nat) (x : list D) :
  validTable nRot nClasses symmIndex (length x) ->
  length (symmetrize_sub 0 nClasses nRot x symmIndex) = length x /\
  (forall p,
     (forall i j, (i < nClasses)%nat -> (j < nRot)%nat ->
                  nth_nat symmIndex (nRot * i + j) <> p) ->
     nth_D (symmetrize_sub 0 nClasses nRot x symmIndex) p = nth_D x p) /\
  (forall i j, (i < nClasses)%nat -> (j < nRot)%nat ->
     nth_D (symmetrize_sub 0 nClasses nRot x symmIndex)
           (nth_nat symmIndex (nRot * i + j))
     = d_mul (classSum nRot x symmIndex i) (d_div d_one (d_of_nat nRot))).
Proof.
  intros Hvalid. unfold symmetrize_sub. rewrite Nat.sub_0_r.
  destruct (classes_spec nRot symmIndex (seq 0 nClasses) x) as (Hlen & Hother & Hhit).
  - apply NoDup_seq.
  - intros i p. now apply table_range.
  - intros i i' p. now apply table_disjoint with (nr := length x).
  - split; [exact Hlen|]. split.
    + intros p Hp. apply Hother. intros i Hi Hin.
      apply elem_of_seq in Hi.
      apply list_elem_of_In, in_map_iff in Hin as (j & Heq & Hj).
      apply in_seq in Hj. apply (Hp i j); [lia | lia | exact Heq].
    + intros i j Hi Hj. apply Hhit.
      * apply elem_of_seq. lia.
      * apply list_elem_of_In, in_map_iff. exists j. split; [reflexivity|].
        apply in_seq. lia.
Qed.

(** The same in exact arithmetic, in the notation of [Q]. *)
Lemma symmetrize_sub_spec_exact (nRot nClasses : nat) (symmIndex : list nat)
  (x : list Q) :
  validTable nRot nClasses symmIndex (length x) ->
  length (symmetrize_sub 0 nClasses nRot x symmIndex) = length x /\
  (forall p,
     (forall i j, (i < nClasses)%nat -> (j < nRot)%nat ->
                  nth_nat symmIndex (nRot * i + j) <> p) ->
     nth_Q (symmetrize_sub 0 nClasses nRot x symmIndex) p = nth_Q x p) /\
  (forall i j, (i < nClasses)%nat -> (j < nRot)%nat ->
     nth_Q (symmetrize_sub 0 nClasses nRot x symmIndex)
           (nth_nat symmIndex (nRot * i + j))
     = (classSum nRot x symmIndex i * (1 / inject_Z (Z.of_nat nRot)))%Q).
Proof. exact (symmetrize_sub_spec nRot nClasses symmIndex x). Qed.

(** In exact arithmetic a second pass over a valid table changes no
    value. *)
Lemma symmetrize_sub_idempotent (nRot nClasses : nat) (symmIndex : list nat)
  (x : list Q) :
  (1 <= nRot)%nat ->
  validTable nRot nClasses symmIndex (length x) ->
  fieldEq (symmetrize_sub 0 nClasses nRot
             (symmetrize_sub 0 nClasses nRot x symmIndex) symmIndex)
          (symmetrize_sub 0 nClasses nRot x symmIndex).
Proof.
  intros Hn Hvalid.
  destruct (symmetrize_sub_spec_exact nRot nClasses symmIndex x Hvalid)
    as (Hlen & Hother & Hhit).
  set (y := symmetrize_sub 0 nClasses nRot x symmIndex) in *.
  assert (Hvalid' : validTable nRot nClasses symmIndex (length y))
    by now rewrite Hlen.
  destruct (symmetrize_sub_spec_exact nRot nClasses symmIndex y Hvalid')
    as (Hlen' & Hother' & Hhit').
  set (z := symmetrize_sub 0 nClasses nRot y symmIndex) in *.
  assert (Hpoint : forall p, (nth_Q z p == nth_Q y p)%Q).
  { intros p.
    destruct (decide (Exists
      (fun i => p ∈ map (fun j => nth_nat symmIndex (nRot * i + j)) (seq 0 nRot))
      (seq 0 nClasses))) as [Hex | Hnone].
    - apply Exists_exists in Hex as (i & Hi & Hp).
      apply elem_of_seq in Hi.
      apply list_elem_of_In, in_map_iff in Hp as (j & <- & Hj). apply in_seq in Hj.
      rewrite Hhit', Hhit by lia.
      rewrite classSum_average by exact Hn.
      apply average_of_constant; [exact Hn|].
      intros q Hq. apply list_elem_of_In, in_map_iff in Hq as (j' & <- & Hj').
      apply in_seq in Hj'. apply Hhit; lia.
    - rewrite Hother'; [reflexivity|].
      intros i j Hi Hj Heq. apply Hnone. apply Exists_exists. exists i. split.
      + apply elem_of_seq. lia.
      + apply list_elem_of_In, in_map_iff. exists j. split; [exact Heq|].
        apply in_seq. lia. }
  apply Forall2_same_length_lookup. split; [exact Hlen'|].
  intros p a b Ha Hb. specialize (Hpoint p). unfold nth_Q in Hpoint.
  now rewrite Ha, Hb in Hpoint.
Qed.

(** C7 (amended): with a group that is not empty and a valid symmetry index
    table (every entry a point of the field, no point in two classes), one
    application of [symmetrize] leaves, in binary64 as in any arithmetic,
    every table entry of a class with one and the same value, the sum of
    the field over the [nRot] entries of the class, accumulated from [0.0]
    in the order of the table, times [1.0/nRot]; the points outside the
    table keep their values, and a group of one element leaves the field as
    it is.  In exact arithmetic that value is the unweighted average of the
    field over the entries of the class, and applying [symmetrize] twice
    gives the values that applying it once gives. *)
Theorem symmetrize_spec (s : Symmetries) (nr : nat) :
  (1 <= length (sym s))%nat ->
  validTable (length (sym s)) (nSymmIndex s / length (sym s)) (symmIndex s) nr ->
  (forall (D : Type) (ops : DoubleOps D) (x : list D),
      length x = nr ->
      length (symmetrize s x) = nr
      /\ (length (sym s) = 1%nat -> symmetrize s x = x)
      /\ (length (sym s) <> 1%nat ->
          forall i j,
            (i < nSymmIndex s / length (sym s))%nat -> (j < length (sym s))%nat ->
            nth_D (symmetrize s x) (nth_nat (symmIndex s) (length (sym s) * i + j))
            = d_mul (classSum (length (sym s)) x (symmIndex s) i)
                    (d_div d_one (d_of_nat (length (sym s)))))
      /\ (forall p,
            (forall i j,
                (i < nSymmIndex s / length (sym s))%nat ->
                (j < length (sym s))%nat ->
                nth_nat (symmIndex s) (length (sym s) * i + j) <> p) ->
            nth_D (symmetrize s x) p = nth_D x p))
  /\ (forall x : list Q,
        length x = nr ->
        fieldEq (symmetrize s (symmetrize s x)) (symmetrize s x)
        /\ forall i j,
             (i < nSymmIndex s / length (sym s))%nat -> (j < length (sym s))%nat ->
             (nth_Q (symmetrize s x)
                    (nth_nat (symmIndex s) (length (sym s) * i + j))
              == orbitAverage (length (sym s)) x (symmIndex s) i)%Q).
Proof.
  intros Hn Hvalid. split.
  - intros D ops x Hx. subst nr. unfold symmetrize.
    destruct (Nat.eqb_spec (length (sym s)) 1) as [H1 | H1].
    + split; [reflexivity|]. split; [reflexivity|].
      split; [intros Hne; contradiction | reflexivity].
    + destruct (symmetrize_sub_spec _ _ _ x Hvalid) as (Hlen & Hother & Hhit).
      split; [exact Hlen|]. split; [intros He; contradiction|].
      split; [intros _; exact Hhit | exact Hother].
  - intros x Hx. subst nr. unfold symmetrize.
    destruct (Nat.eqb_spec (length (sym s)) 1) as [H1 | H1].
    + split.
      * apply Forall2_same_length_lookup. split; [reflexivity|].
        intros p a b Ha Hb. rewrite Ha in Hb. injection Hb as <-. reflexivity.
      * intros i j Hi Hj. rewrite H1 in *. assert (j = 0)%nat as -> by lia.
        unfold orbitAverage. cbn [seq map fold_right].
        change (inject_Z (Z.of_nat 1)) with 1%Q. field.
    + destruct (symmetrize_sub_spec_exact _ _ _ x Hvalid)
        as (Hlen & Hother & Hhit).
      split.
      * now apply symmetrize_sub_idempotent.
      * intros i j Hi Hj. rewrite Hhit by assumption.
        now apply classSum_average.
Qed.

(** ** symmetrize (forces) *)

(** A loop over [i] in which iteration [i] overwrites slot [i] with a value
    computed from that slot alone. *)
Lemma fold_own_slot {A : Type} (G : nat -> option A -> A) (n a : nat)
  (l : list A) :
  length (fold_left (fun l i => <[i := G i (l !! i)]> l) (seq a n) l) = length l /\
  (forall i, (i < a \/ a + n <= i)%nat ->
     fold_left (fun l i => <[i := G i (l !! i)]> l) (seq a n) l !! i = l !! i) /\
  (forall i, (a <= i < a + n)%nat -> (i < length l)%nat ->
     fold_left (fun l i => <[i := G i (l !! i)]> l) (seq a n) l !! i
     = Some (G i (l !! i))).
Proof.
  revert a l. induction n as [|n IH]; intros a l; cbn [seq fold_left].
  - split; [reflexivity|]. split; [reflexivity | intros i Hi; lia].
  - destruct (IH (Datatypes.S a) (<[a := G a (l !! a)]> l)) as (Hlen & Hout & Hin).
    rewrite length_insert in Hlen, Hin.
    split; [exact Hlen|]. split.
    + intros i Hi. rewrite Hout by lia. apply list_lookup_insert_ne. lia.
    + intros i Hi Hl. destruct (decide (i = a)) as [-> | Hne].
      * rewrite Hout by lia. now apply list_lookup_insert_eq.
      * rewrite Hin by lia. f_equal. f_equal. apply list_lookup_insert_ne. lia.
Qed.

Lemma fold_left_same {A B : Type} (f g : A -> B -> A) (l : list B) (a : A) :
  (forall a b, f a b = g a b) -> fold_left f l a = fold_left g l a.
Proof.
  intros Hfg. revert a. induction l as [|b rest IH]; intros a; cbn [fold_left];
    [reflexivity|].
  now rewrite Hfg, IH.
Qed.

Lemma accumulateAtom_slot (syms : list (matrix3 Z)) (fsp : list (vector3 Q))
  (mapsp : list (list nat)) (temp : list (vector3 Q)) (atom : nat) :
  accumulateAtom syms fsp mapsp temp atom
  = <[atom := fold_left
                (fun acc iRot => vadd acc (imageForce syms fsp mapsp atom iRot))
                (seq 0 (length syms)) (default vzero (temp !! atom))]> temp.
Proof.
  unfold accumulateAtom. generalize (seq 0 (length syms)) as js.
  intros js. revert temp. induction js as [|j rest IH]; intros temp;
    cbn [fold_left].
  - destruct (temp !! atom) as [v|] eqn:Hv; cbn.
    + symmetry. now apply list_insert_id.
    + symmetry. apply list_insert_ge. now apply lookup_ge_None.
  - rewrite IH. destruct (decide (atom < length temp)%nat) as [Hlt | Hge].
    + rewrite list_lookup_insert_eq by exact Hlt. cbn.
      now rewrite list_insert_insert_eq.
    + assert (Hnop : forall v, <[atom := v]> temp = temp)
        by (intros v; apply list_insert_ge; lia).
      now rewrite !Hnop.
Qed.

Lemma symmetrizeSpecies_lookup (syms : list (matrix3 Z))
  (mapsp : list (list nat)) (fsp : list (vector3 Q)) (atom : nat) :
  (atom < length fsp)%nat ->
  length (symmetrizeSpecies syms mapsp fsp) = length fsp /\
  symmetrizeSpecies syms mapsp fsp !! atom
  = Some (forceAverage syms fsp mapsp atom).
Proof.
  intros Hatom. unfold symmetrizeSpecies.
  set (temp := fold_left (accumulateAtom syms fsp mapsp) (seq 0 (length fsp))
                         (replicate (length fsp) vzero)).
  assert (Htemp : temp !! atom
                  = Some (fold_left
                            (fun acc iRot =>
                               vadd acc (imageForce syms fsp mapsp atom iRot))
                            (seq 0 (length syms)) vzero)).
  { subst temp.
    pose (G := fun (i : nat) (o : option (vector3 Q)) =>
                 fold_left (fun acc iRot =>
                              vadd acc (imageForce syms fsp mapsp i iRot))
                           (seq 0 (length syms)) (default vzero o)).
    rewrite (fold_left_same (accumulateAtom syms fsp mapsp)
               (fun l i => <[i := G i (l !! i)]> l))
      by (intros; apply accumulateAtom_slot).
    destruct (fold_own_slot G (length fsp) 0 (replicate (length fsp) vzero))
      as (_ & _ & Hin).
    rewrite Hin by (rewrite ?length_replicate; lia).
    now rewrite lookup_replicate_2 by exact Hatom. }
  destruct (fold_own_slot
              (fun atom (_ : option (vector3 Q)) =>
                 vdiv (nth_vec temp atom) (inject_Z (Z.of_nat (length syms))))
              (length fsp) 0 fsp) as (Hlen & _ & Hin).
  split; [exact Hlen|].
  rewrite Hin by lia. unfold forceAverage, nth_vec. rewrite Htemp. reflexivity.
Qed.

(** C6 (amended): on a group of more than one element the force
    symmetrizer replaces the force on every atom by the sum, over all
    symmetry operations, of the force at the atom's image (read from the
    atom map) multiplied by the transpose [~sym[iRot]] of the operation,
    divided by the group order; a group of at most one element leaves the
    forces as they are. *)
Theorem symmetrizeForces_spec (s : Symmetries) (f : list (list (vector3 Q))) :
  ((1 < length (sym s))%nat ->
   length (symmetrizeForces s f) = length f /\
   forall sp fsp atom,
     f !! sp = Some fsp -> (atom < length fsp)%nat ->
     exists fsp',
       symmetrizeForces s f !! sp = Some fsp' /\
       length fsp' = length fsp /\
       fsp' !! atom
       = Some (forceAverage (sym s) fsp (default [] (atomMap s !! sp)) atom))
  /\ ((length (sym s) <= 1)%nat -> symmetrizeForces s f = f).
Proof.
  unfold symmetrizeForces. split.
  - intros Hn. destruct (Nat.leb_spec (length (sym s)) 1) as [Hle | _]; [lia|].
    destruct (fold_own_slot
                (fun sp o => symmetrizeSpecies (sym s)
                               (default [] (atomMap s !! sp)) (default [] o))
                (length f) 0 f) as (Hlen & _ & Hin).
    split; [exact Hlen|].
    intros sp fsp atom Hsp Hatom.
    pose proof (lookup_lt_Some _ _ _ Hsp) as Hsplt.
    rewrite Hin by lia. rewrite Hsp. cbn [default].
    destruct (symmetrizeSpecies_lookup (sym s) (default [] (atomMap s !! sp))
                fsp atom Hatom) as [Hl Ha].
    eexists. split; [reflexivity|]. split; [exact Hl | exact Ha].
  - intros Hle. destruct (Nat.leb_spec (length (sym s)) 1) as [_ | Hlt];
      [reflexivity | lia].
Qed.

Lemma validTableb_spec (nRot nClasses : nat) (symmIndex : list nat) (nr : nat) :
  validTableb nRot nClasses symmIndex nr = true ->
  validTable nRot nClasses symmIndex nr.
Proof.
  unfold validTableb, validTable. rewrite andb_true_iff.
  intros [Hrange Hdisj]. split.
  - intros k Hk. rewrite forallb_forall in Hrange.
    specialize (Hrange k ltac:(apply in_seq; lia)).
    destruct (symmIndex !! k) as [p|]; [|discriminate].
    exists p. split; [reflexivity|]. now apply Nat.ltb_lt.
  - intros i i' j j' Hi Hi' Hj Hj' Hne.
    rewrite forallb_forall in Hdisj.
    specialize (Hdisj i ltac:(apply in_seq; lia)).
    rewrite forallb_forall in Hdisj.
    specialize (Hdisj i' ltac:(apply in_seq; lia)).
    apply orb_true_iff in Hdisj as [Heq | Hdisj];
      [apply Nat.eqb_eq in Heq; contradiction|].
    rewrite forallb_forall in Hdisj.
    specialize (Hdisj j ltac:(apply in_seq; lia)).
    rewrite forallb_forall in Hdisj.
    specialize (Hdisj j' ltac:(apply in_seq; lia)).
    apply negb_true_iff, Nat.eqb_neq in Hdisj. exact Hdisj.
Qed.

(** ** sortSymmetries and setup *)

Lemma veqb_eq (a b : vector3 Z) : veqb a b = true <-> a = b.
Proof.
  destruct a as [a0 a1 a2], b as [b0 b1 b2]. unfold veqb. cbn.
  rewrite !andb_true_iff, !Z.eqb_eq. split.
  - intros [[-> ->] ->]. reflexivity.
  - intros [= -> -> ->]. auto.
Qed.

Lemma meqb_eq (m n : matrix3 Z) : meqb m n = true <-> m = n.
Proof.
  destruct m as [m0 m1 m2], n as [n0 n1 n2]. unfold meqb. cbn [vx vy vz].
  rewrite !andb_true_iff, !veqb_eq. split.
  - intros [[-> ->] ->]. reflexivity.
  - intros [= -> -> ->]. auto.
Qed.

(** The loop of [sortSymmetries] from index [a] on: an identity already in
    front stays there, an identity further back is brought to the front. *)
Lemma sortLoop_front (n a : nat) (l : list (matrix3 Z)) :
  (1 <= a)%nat ->
  l !! 0%nat = Some identity
  \/ (exists i, (a <= i < a + n)%nat /\ l !! i = Some identity) ->
  fold_left (fun l i => if meqb (nth_mat l i) identity then swap0 l i else l)
            (seq a n) l !! 0%nat = Some identity.
Proof.
  revert a l. induction n as [|n IH]; intros a l Ha Hid; cbn [seq fold_left].
  - destruct Hid as [H0 | (i & Hi & _)]; [exact H0 | lia].
  - apply IH; [lia|].
    destruct (meqb (nth_mat l a) identity) eqn:Hswap.
    + apply meqb_eq in Hswap. left. unfold swap0.
      rewrite list_lookup_insert_ne by lia.
      rewrite list_lookup_insert_eq; [now rewrite Hswap|].
      destruct Hid as [H0 | (i & Hi & Hli)].
      * now apply lookup_lt_Some in H0.
      * apply lookup_lt_Some in Hli. lia.
    + destruct Hid as [H0 | (i & Hi & Hli)]; [now left|]. right.
      exists i. split; [|exact Hli].
      destruct (decide (i = a)) as [-> | Hne]; [|lia].
      exfalso. unfold nth_mat in Hswap. rewrite Hli in Hswap. cbn in Hswap.
      assert (meqb (@identity Z _) identity = true) by now apply meqb_eq.
      congruence.
Qed.

(** When the identity is among the matrices, [sortSymmetries] leaves it in
    front. *)
Lemma sortList_front (l : list (matrix3 Z)) :
  In identity l -> sortList l !! 0%nat = Some identity.
Proof.
  intros Hin. apply list_elem_of_In, list_elem_of_lookup in Hin as [i Hi].
  unfold sortList. apply sortLoop_front; [lia|].
  destruct i as [|i]; [now left|]. right.
  exists (Datatypes.S i). split; [|exact Hi].
  apply lookup_lt_Some in Hi. lia.
Qed.

(** When it is not, the loop swaps nothing. *)
Lemma sortList_without_identity (l : list (matrix3 Z)) :
  ~ In identity l -> sortList l = l.
Proof.
  intros Hnot. unfold sortList. generalize (seq 1 (length l - 1)) as js.
  induction js as [|j rest IH]; cbn [fold_left]; [reflexivity|].
  destruct (meqb (nth_mat l j) identity) eqn:Hswap; [|exact IH].
  exfalso. apply meqb_eq in Hswap. unfold nth_mat in Hswap.
  destruct (l !! j) as [m|] eqn:Hj; cbn in Hswap.
  - apply Hnot. rewrite <- Hswap.
    apply list_elem_of_In, list_elem_of_lookup. now exists j.
  - discriminate.
Qed.

End Properties.

(** * The group that [setup] leaves, mode by mode *)

Section Pipeline.
Context `{P : Prims}.

Lemma forM_self {A : Type} (body : A -> M unit) (l : list A) :
  (forall x w1 w2, body x w1 = Ok (tt, w2) -> self w2 = self w1) ->
  forall w w', forM_ body l w = Ok (tt, w') -> self w' = self w.
Proof.
  intros Hb. induction l as [|x rest IH]; intros w w'; cbn [forM_].
  - unfold ret. now intros [= <-].
  - unfold bind. destruct (body x w) as [[[] w1]| |] eqn:Hx; try discriminate.
    intros Hr. rewrite (IH _ _ Hr). exact (Hb _ _ _ Hx).
Qed.

Lemma checkSymmetries_self (e : Everything) (w w' : World) :
  checkSymmetries e w = Ok (tt, w') -> self w' = self w.
Proof.
  unfold checkSymmetries, bind, logPrintf, this. cbn [self globalLog].
  intros Hrun. apply forM_self in Hrun; [exact Hrun|].
  intros m wa wb. apply forM_self. intros sp wc wd. unfold checkAtoms.
  apply forM_self. intros pos1 we wf.
  destruct (foundImage _ _); [|discriminate]. unfold ret. now intros [= <-].
Qed.

Lemma checkFFTbox_sym (e : Everything) (w w' : World) :
  checkFFTbox e w = Ok (tt, w') -> sym (self w') = sym (self w).
Proof.
  unfold checkFFTbox, bind, this.
  destruct (mapM_meshMatrix (gInfo_S (gInfo e)) (sym (self w)) w)
    as [[-> _] | [[msg ->] _]]; [|discriminate].
  unfold update. now intros [= <-].
Qed.

Lemma initSymmIndex_sym (e : Everything) (w w' : World) :
  initSymmIndex e w = Ok (tt, w') -> sym (self w') = sym (self w).
Proof.
  unfold initSymmIndex, bind, this.
  destruct (length (sym (self w)) =? 1)%nat; unfold ret, update;
    now intros [= <-].
Qed.

(** The four steps after the choice of the group read it and keep it. *)
Lemma setup_tail_sym (e : Everything) (w w' : World) :
  (checkFFTbox e ;;; checkKmesh e ;;; initAtomMaps e ;;; initSymmIndex e)%M w
  = Ok (tt, w') ->
  sym (self w') = sym (self w).
Proof.
  unfold bind at 1.
  destruct (checkFFTbox e w) as [[[] w1]| |] eqn:H1; try discriminate.
  destruct (checkKmesh_run e w1) as (lines & Hk & _).
  unfold bind at 1. rewrite Hk. unfold bind at 1.
  destruct (initAtomMaps e _) as [[[] w3]| |] eqn:H3; try discriminate.
  intros H4.
  rewrite (initSymmIndex_sym _ _ _ H4), (initAtomMaps_self _ _ _ H3).
  cbn [self]. exact (checkFFTbox_sym _ _ _ H1).
Qed.

(** The loop over the proposed centers replaces the group only by a larger
    one. *)
Lemma tryCenter_grows (e : Everything) (symLattice : list (matrix3 Z))
  (cands : list (vector3 Q)) (rCenter : vector3 Q) (w : World) :
  exists rCenter' w',
    foldM (tryCenter e symLattice) cands rCenter w = Ok (rCenter', w') /\
    (sym (self w') = sym (self w)
     \/ (length (sym (self w)) < length (sym (self w')))%nat).
Proof.
  revert rCenter w. induction cands as [|c rest IH]; intros rCenter w;
    cbn [foldM].
  - exists rCenter, w. split; [reflexivity | now left].
  - unfold bind at 1. unfold tryCenter at 1. unfold bind, this.
    destruct (Nat.ltb_spec (length (sym (self w)))
                           (length (basisReduce e symLattice c))) as [Hlt | Hge].
    + unfold update, ret.
      match goal with |- context [foldM _ rest ?rc ?w1] =>
        destruct (IH rc w1) as (rc' & w' & -> & Hsym) end.
      exists rc', w'. split; [reflexivity|]. right.
      cbn [self sym set_sym] in Hsym. destruct Hsym as [-> | Hlt']; lia.
    + unfold ret. destruct (IH rCenter w) as (rc' & w' & -> & Hsym).
      exists rc', w'. split; [reflexivity | exact Hsym].
Qed.

Lemma bind_inv {A B : Type} (c : M A) (k : A -> M B) (w w' : World) (b : B) :
  bind c k w = Ok (b, w') ->
  exists a w1, c w = Ok (a, w1) /\ k a w1 = Ok (b, w').
Proof.
  unfold bind. destruct (c w) as [[a w1]| |]; try discriminate.
  intros Hk. now exists a, w1.
Qed.

Lemma logPrintf_inv (fmt : string) (w w' : World) (u : unit) :
  logPrintf fmt w = Ok (u, w') -> self w' = self w.
Proof. unfold logPrintf. now intros [= _ <-]. Qed.

Lemma update_inv (f : Symmetries -> Symmetries) (w w' : World) (u : unit) :
  update f w = Ok (u, w') -> self w' = f (self w).
Proof. unfold update. now intros [= _ <-]. Qed.

Lemma this_inv (w w' : World) (s : Symmetries) :
  this w = Ok (s, w') -> s = self w /\ w' = w.
Proof. unfold this. now intros [= <- <-]. Qed.

Lemma when_print_inv (b : bool) (l : list (matrix3 Z)) (w w' : World)
  (u : unit) :
  when b (printMatrices l) w = Ok (u, w') -> self w' = self w.
Proof.
  destruct b; cbn [when].
  - destruct (printMatrices_log_only l w) as [lines ->]. now intros [= _ <-].
  - unfold ret. now intros [= _ <-].
Qed.

Lemma calcSymmetries_group (fuel : nat) (e : Everything) (w w' : World) :
  calcSymmetries fuel e w = Ok (tt, w') ->
  exists symLattice w0 w1,
    latticeSymmetries fuel e w0 = Ok (symLattice, w1) /\
    sym (self w') = sortList (basisReduce e symLattice vzero).
Proof.
  unfold calcSymmetries. intros Hrun.
  apply bind_inv in Hrun as (u1 & w1 & _ & Hrun).
  apply bind_inv in Hrun as (symLattice & w2 & Hlat & Hrun).
  exists symLattice, w1, w2. split; [exact Hlat|].
  apply bind_inv in Hrun as (u3 & w3 & _ & Hrun). cbv zeta in Hrun.
  apply bind_inv in Hrun as (u4 & w4 & H4 & Hrun). apply update_inv in H4.
  apply bind_inv in Hrun as (u5 & w5 & H5 & Hrun). apply logPrintf_inv in H5.
  apply bind_inv in Hrun as (u6 & w6 & H6 & Hrun). apply update_inv in H6.
  apply bind_inv in Hrun as (s & w7 & H7 & Hrun). apply this_inv in H7 as [-> ->].
  apply bind_inv in Hrun as (u8 & w8 & H8 & Hrun). apply when_print_inv in H8.
  assert (Hsorted : sym (self w6) = sortList (basisReduce e symLattice vzero)).
  { rewrite H6, H5, H4. reflexivity. }
  destruct (shouldMoveAtoms (self w6)).
  - apply bind_inv in Hrun as (rc & w9 & H9 & Hrun).
    destruct (tryCenter_grows e symLattice (rCenterCandidates e) vzero w8)
      as (rc' & w9' & H9' & Hsym).
    rewrite H9' in H9. injection H9 as Hrc Hw9. subst rc' w9'.
    apply bind_inv in Hrun as (s' & w10 & H10 & Hrun).
    apply this_inv in H10 as [-> ->].
    destruct (Nat.ltb_spec (length (sym (self w6))) (length (sym (self w9))))
      as [Hlt | Hge].
    + apply bind_inv in Hrun as (u11 & w11 & _ & Hrun). discriminate.
    + unfold ret in Hrun. injection Hrun as <-.
      rewrite H8 in Hsym. destruct Hsym as [-> | Hlt]; [exact Hsorted | lia].
  - unfold ret in Hrun. injection Hrun as <-. now rewrite H8.
Qed.

(** What [setup] leaves in [sym] when it returns, for each mode: the
    identity alone, the user's matrices after [sortSymmetries], or the
    lattice symmetries that fit the atoms after [sortSymmetries]. *)
Lemma setup_group (fuel : nat) (e : Everything) (w w' : World) :
  setup fuel e w = Ok (tt, w') ->
  match mode (self w) with
  | SymmetriesNone => sym (self w') = [identity]
  | SymmetriesManual =>
      sym (self w) <> [] /\ sym (self w') = sortList (sym (self w))
  | SymmetriesAutomatic =>
      exists symLattice w0 w1,
        latticeSymmetries fuel e w0 = Ok (symLattice, w1) /\
        sym (self w') = sortList (basisReduce e symLattice vzero)
  end.
Proof.
  unfold setup. intros Hrun.
  apply bind_inv in Hrun as (u1 & w1 & H1 & Hrun). apply logPrintf_inv in H1.
  apply bind_inv in Hrun as (s & w2 & H2 & Hrun). apply this_inv in H2 as [-> ->].
  apply bind_inv in Hrun as (u3 & w3 & H3 & Hrun).
  apply setup_tail_sym in Hrun. rewrite Hrun. rewrite H1 in H3.
  destruct (mode (self w)).
  - apply update_inv in H3. now rewrite H3.
  - destruct u3. now apply calcSymmetries_group in H3.
  - apply bind_inv in H3 as (u4 & w4 & H4 & H3).
    apply bind_inv in H3 as (u5 & w5 & H5 & H3). apply update_inv in H5.
    destruct u3. apply checkSymmetries_self in H3. rewrite H3, H5.
    destruct (sym (self w)) as [|m0 rest] eqn:Hsym; [discriminate|].
    cbn [length Nat.eqb] in H4. unfold ret in H4. injection H4 as Hw4.
    subst w4. cbn [sym set_sym]. rewrite H1, Hsym. split; [discriminate | reflexivity].
Qed.

(** In mode 'none', and in manual mode when the identity is among the
    matrices supplied, the group that [setup] leaves has the identity in
    front. *)
Lemma setup_identity_first (fuel : nat) (e : Everything) (w w' : World) :
  setup fuel e w = Ok (tt, w') ->
  mode (self w) = SymmetriesNone
  \/ (mode (self w) = SymmetriesManual /\ In identity (sym (self w))) ->
  sym (self w') !! 0%nat = Some identity.
Proof.
  intros Hrun Hmode. apply setup_group in Hrun.
  destruct Hmode as [Hm | [Hm Hin]]; rewrite Hm in Hrun.
  - now rewrite Hrun.
  - destruct Hrun as [_ ->]. now apply sortList_front.
Qed.

(** ** Automatic mode: the identity is found and kept *)

Lemma mmul_assoc (a b c : matrix3 Z) : mmul (mmul a b) c = mmul a (mmul b c).
Proof.
  destruct a as [[a00 a01 a02] [a10 a11 a12] [a20 a21 a22]].
  destruct b as [[b00 b01 b02] [b10 b11 b12] [b20 b21 b22]].
  destruct c as [[c00 c01 c02] [c10 c11 c12] [c20 c21 c22]].
  unfold mmul, mbuild, vbuild, vdot, mcol, mget, vget. cbn.
  f_equal; f_equal; ring.
Qed.

Lemma mmul_identity_l (a : matrix3 Z) : mmul identity a = a.
Proof.
  destruct a as [[a00 a01 a02] [a10 a11 a12] [a20 a21 a22]].
  unfold mmul, mbuild, vbuild, vdot, mcol, mget, vget. cbn.
  f_equal; f_equal; ring.
Qed.

Lemma mmul_identity_r (a : matrix3 Z) : mmul a identity = a.
Proof.
  destruct a as [[a00 a01 a02] [a10 a11 a12] [a20 a21 a22]].
  unfold mmul, mbuild, vbuild, vdot, mcol, mget, vget. cbn.
  f_equal; f_equal; ring.
Qed.

(** [dInv] is the inverse of [d]. *)
Lemma elementary_inverse (k1 : idx3) (i j : Z) :
  mmul (fst (elementary k1 i j)) (snd (elementary k1 i j)) = identity.
Proof.
  destruct k1;
    cbv [elementary mmul mbuild vbuild vdot mcol mget vget mset vset next3
         identity mdiag fst snd vx vy vz s_zero s_one s_add s_mul Scalar_int];
    f_equal; f_equal; ring.
Qed.

(** [invTransmission] stays the inverse of [transmission]. *)
Lemma tryMove_inverse (st : Reduction) (mv : idx3 * Z * Z) :
  mmul (transmission st) (invTransmission st) = identity ->
  mmul (transmission (tryMove st mv)) (invTransmission (tryMove st mv))
  = identity.
Proof.
  intros Hinv. destruct mv as [[k1 i] j]. unfold tryMove.
  pose proof (elementary_inverse k1 i j) as Hd.
  destruct (elementary k1 i j) as [d dInv]. cbn [fst snd] in Hd.
  destruct (Qltb _ _); [|exact Hinv]. cbn [transmission invTransmission].
  rewrite mmul_assoc, <- (mmul_assoc d), Hd, mmul_identity_l. exact Hinv.
Qed.

Lemma sweep_inverse (st : Reduction) :
  mmul (transmission st) (invTransmission st) = identity ->
  mmul (transmission (sweep st)) (invTransmission (sweep st)) = identity.
Proof.
  unfold sweep. generalize moves as l.
  intros l Hinv.
  assert (Hgen : forall st0,
    mmul (transmission st0) (invTransmission st0) = identity ->
    mmul (transmission (fold_left tryMove l st0))
         (invTransmission (fold_left tryMove l st0)) = identity).
  { induction l as [|mv rest IH]; intros st0 H0; cbn [fold_left]; [exact H0|].
    apply IH. now apply tryMove_inverse. }
  now apply Hgen.
Qed.

Lemma reduceLoop_inverse (fuel : nat) (st st' : Reduction) :
  reduceLoop fuel st = Some st' ->
  mmul (transmission st) (invTransmission st) = identity ->
  mmul (transmission st') (invTransmission st') = identity.
Proof.
  revert st. induction fuel as [|fuel IH]; intros st; cbn [reduceLoop];
    [discriminate|].
  intros Hrun Hinv. apply sweep_inverse in Hinv.
  destruct (changed (sweep st)).
  - now apply (IH (sweep st)).
  - now injection Hrun as <-.
Qed.

Section SanePrimitives.

(** What the proof asks of the two missing functions: a matrix of zeros has
    a norm below the tolerance, and a position is within the tolerance of
    itself. *)
Hypothesis nrm2_null :
  forall M : matrix3 Q,
    (forall i j, mget M i j == 0)%Q -> (nrm2 M < MIN_SYMM_TOL)%Q.
Hypothesis circ_near :
  forall p q : vector3 Q,
    veq p q -> (circDistanceSquared p q < MIN_SYMM_TOL)%Q.

Lemma identity_accepted (metric : matrix3 Q) :
  In identity (metricSymmetries metric).
Proof.
  unfold metricSymmetries. apply filter_In. split.
  - apply candidates_In. intros [] []; cbn; lia.
  - unfold leavesInvariant. apply Qltb_lt, nrm2_null.
    destruct metric as [[a b c] [d f g] [h k l]].
    intros [] []; cbn; ring.
Qed.

Lemma latticeSymmetries_identity (fuel : nat) (e : Everything) (w w' : World)
  (symLattice : list (matrix3 Z)) :
  latticeSymmetries fuel e w = Ok (symLattice, w') -> In identity symLattice.
Proof.
  unfold latticeSymmetries, reduceBasis.
  destruct (reduceLoop fuel _) as [st|] eqn:Hred; [|discriminate].
  apply reduceLoop_inverse in Hred; [|apply mmul_identity_l].
  destruct (wasReduced _ _).
  - intros Hrun. apply bind_inv in Hrun as (u1 & w1 & _ & Hrun).
    apply bind_inv in Hrun as (u2 & w2 & _ & Hrun).
    unfold ret in Hrun. injection Hrun as <- _.
    apply in_map_iff. exists identity. split; [|apply identity_accepted].
    now rewrite mmul_identity_r.
  - unfold ret. intros [= <- _]. apply identity_accepted.
Qed.

Lemma basisReduce_identity (e : Everything) (symLattice : list (matrix3 Z)) :
  In identity symLattice -> In identity (basisReduce e symLattice vzero).
Proof.
  intros Hin. rewrite basisReduce_filter. apply filter_In. split; [exact Hin|].
  apply speciesSymmetric_spec. intros sp _ pos1 Hpos1.
  exists pos1. split; [exact Hpos1|]. apply circ_near.
  destruct pos1 as [x y z]. unfold veq. cbn. repeat split; ring.
Qed.

(** In automatic mode the group that [setup] leaves has the identity in
    front. *)
Lemma setup_automatic_identity_first (fuel : nat) (e : Everything)
  (w w' : World) :
  mode (self w) = SymmetriesAutomatic ->
  setup fuel e w = Ok (tt, w') ->
  sym (self w') !! 0%nat = Some identity.
Proof.
  intros Hmode Hrun. apply setup_group in Hrun. rewrite Hmode in Hrun.
  destruct Hrun as (symLattice & w0 & w1 & Hlat & ->).
  apply sortList_front, basisReduce_identity.
  exact (latticeSymmetries_identity _ _ _ _ _ Hlat).
Qed.

End SanePrimitives.

End Pipeline.

(** * Closed instances *)

(** C3: the run of [setup] in manual mode on the inversion alone, for one
    atom at the origin of a cubic cell: it returns normally, and the group
    it leaves is the inversion alone, without the identity.  The claim
    promises the identity in front for every mode. *)
Theorem setup_manual_without_identity :
  exists w',
    @setup concretePrims 0 cubicCell inversionOnly = Ok (tt, w') /\
    sym (self w') = [inversion] /\
    sym (self w') !! 0%nat <> Some identity /\
    ~ In identity (sym (self w')).
Proof.
  eexists. split; [vm_compute; reflexivity|]. cbn [self sym].
  split; [reflexivity|]. split; [discriminate|].
  intros [H | []]. discriminate.
Qed.

Lemma checkFFTbox_spec_witness :
  (forall j, vget (gInfo_S (gInfo hexCell)) j <> 0)
  /\ exists w',
       @checkFFTbox hexCell threefold = Ok (tt, w')
       /\ symMesh (self w') = [identity; rot3; rot3sq]
       /\ sym (self w') = [identity; rot3; rot3sq].
Proof.
  assert (Hnz : forall j, vget (gInfo_S (gInfo hexCell)) j <> 0)
    by (intros []; discriminate).
  split; [exact Hnz|].
  destruct (proj2 (checkFFTbox_spec hexCell threefold Hnz))
    as (w' & Hrun & _ & Hmesh & _ & Hsym & _).
  - intros m i j Hin. apply Z.rem_divide; [apply Hnz|].
    cbn in Hin.
    destruct Hin as [<- | [<- | [<- | []]]]; destruct i, j; reflexivity.
  - exists w'. split; [exact Hrun|]. split; [|exact Hsym].
    rewrite Hmesh. reflexivity.
Defined.

Lemma initAtomMaps_spec_witness :
  length (sym (self threefold)) <> 1%nat
  /\ @initAtomMaps concretePrims hexCell threefold <> OutOfFuel.
Proof.
  assert (Hlen : length (sym (self threefold)) <> 1%nat) by discriminate.
  split; [exact Hlen|].
  exact (proj1 (@initAtomMaps_spec concretePrims hexCell threefold Hlen)).
Defined.

(** C5, as stated, fails: the rotation maps the atom of the second species
    onto no atom of that species, and [initAtomMaps] returns normally, the
    entry left at its initial value 0. *)
Lemma initAtomMaps_missing_image_no_error :
  ~ (forall (P : Prims) (e : Everything) (w : World) sp spInfo at1 pos1 iRot m,
        length (sym (self w)) <> 1%nat ->
        species e !! sp = Some spInfo -> atpos spInfo !! at1 = Some pos1 ->
        sym (self w) !! iRot = Some m ->
        (forall pos2, In pos2 (atpos spInfo) ->
           ~ (circDistanceSquared (mvmul (m_i2d m) pos1) pos2 < MIN_SYMM_TOL)%Q) ->
        exists msg, initAtomMaps e w = Died msg).
Proof.
  intros Hclaim.
  destruct (Hclaim concretePrims brokenCell threefold 1%nat lonely 0%nat
              (mkV (1 # 5) 0 0)%Q 1%nat rot3) as [msg Hdied].
  - discriminate.
  - reflexivity.
  - reflexivity.
  - reflexivity.
  - intros pos2 [<- | []]. vm_compute. discriminate.
  - vm_compute in Hdied. discriminate.
Qed.

(** C6, as stated, fails: for the three atoms around the threefold axis and
    a force on the second atom, the symmetrizer gives the first atom
    (0, -1/3, 0), the average of the inverse-transpose-transformed forces
    is (-1/3, 1/3, 0). *)
Lemma symmetrizeForces_not_inverse_transpose :
  ~ (forall (s : Symmetries) (f : list (list (vector3 Q))) sp fsp atom,
        (1 < length (sym s))%nat ->
        f !! sp = Some fsp -> (atom < length fsp)%nat ->
        exists fsp' v,
          symmetrizeForces s f !! sp = Some fsp' /\ fsp' !! atom = Some v /\
          veq v (forceAverage_invT (sym s) fsp (default [] (atomMap s !! sp)) atom)).
Proof.
  intros Hclaim.
  destruct (Hclaim threefoldReady pushSecond 0%nat
              [ mkV 0 0 0; mkV 1 0 0; mkV 0 0 0 ]%Q 0%nat)
    as (fsp' & v & Hrun & Hv & Heq).
  - vm_compute. lia.
  - reflexivity.
  - cbn. lia.
  - vm_compute in Hrun. injection Hrun as <-.
    vm_compute in Hv. injection Hv as <-.
    vm_compute in Heq. destruct Heq as [Hx _]. discriminate.
Qed.

Lemma symmetrize_spec_witness :
  (1 <= length (sym threefoldReady))%nat
  /\ validTable (length (sym threefoldReady))
       (nSymmIndex threefoldReady / length (sym threefoldReady))
       (symmIndex threefoldReady) 9
  /\ nth_D (symmetrize threefoldReady nineTenths) 8
     = d_mul (classSum 3 nineTenths (symmIndex threefoldReady) 1)
             (d_div d_one (d_of_nat 3))
  /\ fieldEq (symmetrize threefoldReady
                (symmetrize threefoldReady [1; 2; 3; 4; 5; 6; 7; 8; 9]%Q))
             (symmetrize threefoldReady [1; 2; 3; 4; 5; 6; 7; 8; 9]%Q).
Proof.
  assert (Hn : (1 <= length (sym threefoldReady))%nat) by (vm_compute; lia).
  assert (Hvalid : validTable (length (sym threefoldReady))
       (nSymmIndex threefoldReady / length (sym threefoldReady))
       (symmIndex threefoldReady) 9)
    by (apply validTableb_spec; vm_compute; reflexivity).
  split; [exact Hn|]. split; [exact Hvalid|].
  destruct (symmetrize_spec threefoldReady 9 Hn Hvalid) as [Hany Hexact].
  split.
  - destruct (Hany binary64 DoubleOps_binary64 nineTenths eq_refl)
      as (_ & _ & Hhit & _).
    apply (Hhit ltac:(vm_compute; discriminate) 1%nat 1%nat);
      vm_compute; lia.
  - exact (proj1 (Hexact [1; 2; 3; 4; 5; 6; 7; 8; 9]%Q eq_refl)).
Defined.

(** C7, as stated, fails in binary64: on the table that [setup] leaves for
    the threefold axis, the field that is 0.9 at one point and 0 elsewhere
    is 0x1.3333333333333p-2 on the three points of the class after one
    pass, and 0x1.3333333333332p-2 after two. *)
Lemma symmetrize_twice_binary64 :
  ~ (forall (s : Symmetries) (x : list binary64),
        (1 <= length (sym s))%nat ->
        validTable (length (sym s)) (nSymmIndex s / length (sym s))
                   (symmIndex s) (length x) ->
        symmetrize s (symmetrize s x) = symmetrize s x).
Proof.
  intros Hclaim.
  assert (Hn : (1 <= length (sym threefoldReady))%nat) by (vm_compute; lia).
  assert (Hvalid : validTable (length (sym threefoldReady))
       (nSymmIndex threefoldReady / length (sym threefoldReady))
       (symmIndex threefoldReady) (length nineTenths))
    by (apply validTableb_spec; vm_compute; reflexivity).
  specialize (Hclaim threefoldReady nineTenths Hn Hvalid).
  apply (f_equal (fun y => nth_D y 1)) in Hclaim.
  vm_compute in Hclaim. discriminate Hclaim.
Qed.

(** The norm of the concrete primitives is never negative. *)
Lemma frobenius_nonneg (M : matrix3 Q) : (0 <= frobenius M)%Q.
Proof.
  unfold frobenius, sqrtQ, Qle. cbn [Qnum Qden].
  rewrite Z.mul_1_r. apply Z.sqrt_nonneg.
Defined.

Lemma reduceBasis_terminates_witness :
  (forall M, (0 <= @nrm2 concretePrims M)%Q)
  /\ exists n,
       forall fuel, (n < fuel)%nat ->
         @reduceBasis concretePrims fuel shearedCubic
         = Some (Nat.iter (Datatypes.S n) (@sweep concretePrims)
                   (mkReduction shearedCubic identity identity false)).
Proof.
  split; [exact frobenius_nonneg|].
  destruct (proj2 (@reduceBasis_terminates concretePrims shearedCubic
                     frobenius_nonneg)) as (n & Hrun & _).
  exists n. exact Hrun.
Defined.

(** The concrete primitives are sane: the identity is found and kept in
    automatic mode on every cell. *)
Lemma frobenius_null (M : matrix3 Q) :
  (forall i j, mget M i j == 0)%Q -> (frobenius M < MIN_SYMM_TOL)%Q.
Proof.
  intros Hnull. unfold frobenius, sqrtQ.
  assert (Hsum : (vdot (vx M) (vx M) + vdot (vy M) (vy M) + vdot (vz M) (vz M)
                  == 0)%Q).
  { pose proof (Hnull X0 X0) as H00. pose proof (Hnull X0 X1) as H01.
    pose proof (Hnull X0 X2) as H02. pose proof (Hnull X1 X0) as H10.
    pose proof (Hnull X1 X1) as H11. pose proof (Hnull X1 X2) as H12.
    pose proof (Hnull X2 X0) as H20. pose proof (Hnull X2 X1) as H21.
    pose proof (Hnull X2 X2) as H22.
    destruct M as [[a b c] [d f g] [h k l]].
    cbn in H00, H01, H02, H10, H11, H12, H20, H21, H22. cbn.
    rewrite H00, H01, H02, H10, H11, H12, H20, H21, H22. ring. }
  rewrite (Qfloor_comp _ 0%Q) by (rewrite Hsum; ring).
  reflexivity.
Qed.

Lemma minimumImage_null (d : Q) : (d == 0)%Q -> (minimumImage d == 0)%Q.
Proof.
  intros Hd. unfold minimumImage.
  rewrite (Qfloor_comp _ (1 # 2)%Q) by (rewrite Hd; ring).
  rewrite Hd. reflexivity.
Qed.

Lemma circMinimumImage_near (p q : vector3 Q) :
  veq p q -> (circMinimumImage p q < MIN_SYMM_TOL)%Q.
Proof.
  intros (Hx & Hy & Hz). unfold circMinimumImage.
  destruct p as [px py pz], q as [qx qy qz]. cbn in Hx, Hy, Hz. cbn.
  rewrite (minimumImage_null (px - qx)) by (rewrite Hx; ring).
  rewrite (minimumImage_null (py - qy)) by (rewrite Hy; ring).
  rewrite (minimumImage_null (pz - qz)) by (rewrite Hz; ring).
  reflexivity.
Qed.

Lemma setup_automatic_identity_first_concrete (fuel : nat) (e : Everything)
  (w w' : World) :
  mode (self w) = SymmetriesAutomatic ->
  @setup concretePrims fuel e w = Ok (tt, w') ->
  sym (self w') !! 0%nat = Some identity.
Proof.
  apply (@setup_automatic_identity_first concretePrims
           frobenius_null circMinimumImage_near).
Qed.


(** * Further properties of the symmetry pipeline *)

Section MoreProperties.
Context `{P : Prims}.

(** ** sortSymmetries *)

Lemma swap_front_Permutation (a : matrix3 Z) (rest : list (matrix3 Z))
  (k : nat) (b : matrix3 Z) :
  rest !! k = Some b ->
  Permutation (b :: <[k := a]> rest) (a :: rest).
Proof.
  revert k. induction rest as [|c r IH]; intros k Hk.
  - now rewrite lookup_nil in Hk.
  - destruct k as [|k]; cbn in Hk |- *.
    + injection Hk as ->. apply perm_swap.
    + rewrite (perm_swap c b), (IH k Hk). apply perm_swap.
Qed.

Lemma swap0_Permutation (l : list (matrix3 Z)) (i : nat) :
  (1 <= i < length l)%nat -> Permutation (swap0 l i) l.
Proof.
  intros Hi. destruct l as [|a rest]; [cbn in Hi; lia|].
  destruct i as [|k]; [lia|]. cbn [length] in Hi.
  destruct (lookup_lt_is_Some_2 rest k ltac:(lia)) as [b Hb].
  pose proof (swap_front_Permutation a rest k b Hb) as Hperm.
  assert (Hswap : swap0 (a :: rest) (Datatypes.S k) = b :: <[k := a]> rest).
  { unfold swap0, nth_mat.
    change ((a :: rest) !! Datatypes.S k) with (rest !! k). rewrite Hb.
    reflexivity. }
  now rewrite Hswap.
Qed.

Lemma swap0_length (l : list (matrix3 Z)) (i : nat) :
  length (swap0 l i) = length l.
Proof. unfold swap0. now rewrite !length_insert. Qed.

Lemma sortLoop_Permutation (js : list nat) (l : list (matrix3 Z)) :
  (forall j, In j js -> (1 <= j < length l)%nat) ->
  Permutation
    (fold_left (fun l i => if meqb (nth_mat l i) identity then swap0 l i else l)
               js l) l.
Proof.
  revert l. induction js as [|j rest IH]; intros l Hjs; cbn [fold_left];
    [reflexivity|].
  destruct (meqb (nth_mat l j) identity).
  - rewrite IH.
    + apply swap0_Permutation, Hjs. now left.
    + intros j' Hj'. rewrite swap0_length. apply Hjs. now right.
  - apply IH. intros j' Hj'. apply Hjs. now right.
Qed.

Lemma sortList_Permutation (l : list (matrix3 Z)) : Permutation (sortList l) l.
Proof.
  unfold sortList. apply sortLoop_Permutation.
  intros j Hj. apply in_seq in Hj. lia.
Qed.

(** X1: [sortSymmetries] only reorders: the list it leaves is a permutation
    of the list it found.  An identity anywhere in the list ends in front,
    and a list without the identity is left exactly as it was. *)
Theorem sortSymmetries_reorders (l : list (matrix3 Z)) :
  Permutation (sortList l) l
  /\ length (sortList l) = length l
  /\ (In identity l -> sortList l !! 0%nat = Some identity)
  /\ (~ In identity l -> sortList l = l).
Proof.
  pose proof (sortList_Permutation l) as Hperm.
  split; [exact Hperm|]. split; [now rewrite Hperm|].
  split; [apply sortList_front | apply sortList_without_identity].
Qed.

(** ** setup *)

Lemma initAtomMaps_symMesh (e : Everything) (w w' : World) :
  initAtomMaps e w = Ok (tt, w') -> symMesh (self w') = symMesh (self w).
Proof.
  intros Hrun.
  destruct (Nat.eq_dec (length (sym (self w))) 1%nat) as [Hlen | Hlen].
  { unfold initAtomMaps, bind, this in Hrun. apply Nat.eqb_eq in Hlen.
    rewrite Hlen in Hrun. unfold ret in Hrun. now injection Hrun as <-. }
  destruct (initAtomMaps_unfold e w Hlen) as (w0 & Hw0 & Heq).
  rewrite Heq in Hrun.
  destruct (mapMi _ _ w0) as [[newMap w1]| |] eqn:Hmap; try discriminate.
  injection Hrun as <-. cbn.
  apply mapMi_self in Hmap.
  - now rewrite Hmap, Hw0.
  - intros sp spInfo wa rows wb. apply atomMapSpecies_self.
Qed.

Lemma initSymmIndex_symMesh (e : Everything) (w w' : World) :
  initSymmIndex e w = Ok (tt, w') -> symMesh (self w') = symMesh (self w).
Proof.
  unfold initSymmIndex, bind, this.
  destruct (length (sym (self w)) =? 1)%nat; unfold ret, update;
    now intros [= <-].
Qed.

(** What [checkFFTbox] leaves when it returns. *)
Lemma checkFFTbox_Ok (e : Everything) (w w' : World) :
  checkFFTbox e w = Ok (tt, w') ->
  w' = mkWorld (set_symMesh (map (meshOf (gInfo_S (gInfo e))) (sym (self w)))
                            (self w)) (globalLog w)
  /\ forall m, In m (sym (self w)) -> forall i j,
       Z.rem (mget (mmul (Diag (gInfo_S (gInfo e))) m) i j)
             (vget (gInfo_S (gInfo e)) j) = 0.
Proof.
  unfold checkFFTbox, bind, this.
  destruct (mapM_meshMatrix (gInfo_S (gInfo e)) (sym (self w)) w)
    as [[-> Hall] | [[msg ->] _]]; [|discriminate].
  unfold update. cbn [self globalLog]. intros [= <-]. now split.
Qed.

(** X2: when [setup] returns, the group it leaves is fixed by the mode:
    the identity alone in mode 'none'; in manual mode the matrices the user
    gave, which were not empty, after [sortSymmetries]; in automatic mode
    the lattice symmetries that map the atoms onto atoms about the origin,
    after [sortSymmetries].  The four checks that follow do not change it. *)
Theorem setup_leaves_group (fuel : nat) (e : Everything) (w w' : World) :
  setup fuel e w = Ok (tt, w') ->
  match mode (self w) with
  | SymmetriesNone => sym (self w') = [identity]
  | SymmetriesManual =>
      sym (self w) <> [] /\ sym (self w') = sortList (sym (self w))
  | SymmetriesAutomatic =>
      exists symLattice w0 w1,
        latticeSymmetries fuel e w0 = Ok (symLattice, w1) /\
        sym (self w') = sortList (basisReduce e symLattice vzero)
  end.
Proof. apply setup_group. Qed.

(** X3: in manual mode without any symmetry matrix, [setup] ends the run
    with the message that none was specified, before any check. *)
Theorem setup_manual_empty_dies (fuel : nat) (e : Everything) (w : World) :
  mode (self w) = SymmetriesManual ->
  sym (self w) = [] ->
  setup fuel e w
  = Died "\nManual symmetries specified without specifying any symmetry matrices.\n".
Proof.
  intros Hmode Hsym. unfold setup, bind, logPrintf, this. cbn [self globalLog].
  rewrite Hmode, Hsym. reflexivity.
Qed.

Lemma identity_commensurate (S : vector3 Z) :
  (forall j, vget S j <> 0) ->
  meshOf S identity = identity.
Proof.
  intros Hnz. pose proof (Hnz X0) as H0. pose proof (Hnz X1) as H1.
  pose proof (Hnz X2) as H2. destruct S as [s0 s1 s2]. cbn in H0, H1, H2.
  unfold meshOf, mbuild, vbuild, mmul, Diag, mdiag, identity, vdot, mcol, mget,
    vget. cbn.
  rewrite !Z.mul_0_l, !Z.mul_0_r, !Z.mul_1_r, !Z.add_0_r, !Z.add_0_l.
  rewrite !Z.quot_same by assumption. now rewrite !Z.quot_0_l by assumption.
Qed.

(** The run of [setup] in mode 'none'. *)
Lemma setup_none_run (fuel : nat) (e : Everything) (w : World) :
  mode (self w) = SymmetriesNone ->
  (forall j, vget (gInfo_S (gInfo e)) j <> 0) ->
  exists lines,
    setup fuel e w
    = Ok (tt, mkWorld (set_symMesh [identity] (set_sym [identity] (self w)))
                      (globalLog w ++ lines)).
Proof.
  intros Hmode Hnz. unfold setup.
  unfold bind at 1. unfold logPrintf at 1.
  unfold bind at 1. unfold this at 1. cbn [self globalLog].
  rewrite Hmode. unfold bind at 1. unfold update at 1. cbn [self globalLog].
  set (s1 := set_sym [identity] (self w)).
  set (lg := globalLog w ++ _).
  unfold bind at 1.
  destruct (checkFFTbox e (mkWorld s1 lg)) as [[[] w2]| |] eqn:Hfft.
  - apply checkFFTbox_Ok in Hfft as [-> _]. cbn [self globalLog sym] in *.
    subst s1. cbn [sym set_sym map].
    rewrite (identity_commensurate _ Hnz).
    match goal with |- context [bind (checkKmesh e) _ ?w2] =>
      destruct (checkKmesh_run e w2) as (lines & Hk & _) end.
    unfold bind at 1. rewrite Hk. cbn [self globalLog].
    unfold bind at 1. unfold initAtomMaps at 1, bind at 1, this at 1.
    cbn [self sym set_sym set_symMesh length Nat.eqb]. unfold ret at 1.
    unfold initSymmIndex, bind, this.
    cbn [self sym set_sym set_symMesh length Nat.eqb]. unfold ret.
    exists (["\n---------- Setting up symmetries ----------\n"%string] ++ lines).
    subst lg. now rewrite <- app_assoc.
  - exfalso. unfold checkFFTbox, bind, this in Hfft. cbn [self] in Hfft.
    destruct (mapM_meshMatrix (gInfo_S (gInfo e)) (sym s1) (mkWorld s1 lg))
      as [[Hrun _] | [_ (m & i & j & Hin & Hrem)]].
    + rewrite Hrun in Hfft. discriminate.
    + subst s1. cbn in Hin. destruct Hin as [<- | []].
      apply Hrem. apply Z.rem_divide; [apply Hnz|].
      pose proof (Hnz X0) as H0. pose proof (Hnz X1) as H1.
      pose proof (Hnz X2) as H2.
      destruct (gInfo_S (gInfo e)) as [s0 s1 s2]. cbn in H0, H1, H2.
      destruct i, j; cbn;
        rewrite ?Z.mul_0_l, ?Z.mul_0_r, ?Z.mul_1_r, ?Z.add_0_r, ?Z.add_0_l;
        try apply Z.divide_refl; apply Z.divide_0_r.
  - exfalso. unfold checkFFTbox, bind, this in Hfft. cbn [self] in Hfft.
    destruct (mapM_meshMatrix (gInfo_S (gInfo e)) (sym s1) (mkWorld s1 lg))
      as [[Hrun _] | [[msg Hrun] _]]; rewrite Hrun in Hfft; discriminate.
Qed.

(** X4: in mode 'none', on a grid with non-zero sample counts, [setup]
    always returns: the object it leaves has the identity alone in [sym]
    and in [symMesh] and is otherwise as it was (no atom map and no
    symmetry index table are built for a group of one element); the log is
    only appended to. *)
Theorem setup_none_succeeds (fuel : nat) (e : Everything) (w : World) :
  mode (self w) = SymmetriesNone ->
  (forall j, vget (gInfo_S (gInfo e)) j <> 0) ->
  exists lines w',
    setup fuel e w = Ok (tt, w')
    /\ w' = mkWorld (set_symMesh [identity] (set_sym [identity] (self w)))
                    (globalLog w ++ lines)
    /\ sym (self w') = [identity]
    /\ symMesh (self w') = [identity]
    /\ mode (self w') = mode (self w)
    /\ shouldPrintMatrices (self w') = shouldPrintMatrices (self w)
    /\ shouldMoveAtoms (self w') = shouldMoveAtoms (self w)
    /\ atomMap (self w') = atomMap (self w)
    /\ symmIndex (self w') = symmIndex (self w)
    /\ nSymmIndex (self w') = nSymmIndex (self w)
    /\ globalLog w' = globalLog w ++ lines.
Proof.
  intros Hmode Hnz.
  destruct (setup_none_run fuel e w Hmode Hnz) as [lines Hrun].
  exists lines. eexists. split; [exact Hrun|].
  split; [reflexivity|]. now repeat split.
Qed.

(** X5: when [setup] returns on a grid with non-zero sample counts, it
    leaves one mesh matrix per symmetry matrix, in the same order:
    [symMesh[i]] holds the exact quotients of [Diag(S) * sym[i]] by the
    sample counts, that is [symMesh[i] * Diag(S) = Diag(S) * sym[i]]. *)
Theorem setup_mesh_matrices (fuel : nat) (e : Everything) (w w' : World) :
  (forall j, vget (gInfo_S (gInfo e)) j <> 0) ->
  setup fuel e w = Ok (tt, w') ->
  length (symMesh (self w')) = length (sym (self w'))
  /\ forall i m,
       sym (self w') !! i = Some m ->
       exists mesh,
         symMesh (self w') !! i = Some mesh /\
         mmul mesh (Diag (gInfo_S (gInfo e))) = mmul (Diag (gInfo_S (gInfo e))) m.
Proof.
  intros Hnz Hrun. unfold setup in Hrun.
  apply bind_inv in Hrun as (u1 & w1 & _ & Hrun).
  apply bind_inv in Hrun as (s & w2 & _ & Hrun).
  apply bind_inv in Hrun as (u3 & w3 & _ & Hrun).
  apply bind_inv in Hrun as (u4 & w4 & H4 & Hrun). destruct u4.
  pose proof (checkFFTbox_sym _ _ _ H4) as Hsym4.
  apply checkFFTbox_Ok in H4 as [Hw4 Hrem].
  apply bind_inv in Hrun as (u5 & w5 & H5 & Hrun).
  destruct (checkKmesh_run e w4) as (lines & Hk & _). rewrite Hk in H5.
  injection H5 as _ <-.
  apply bind_inv in Hrun as (u6 & w6 & H6 & Hrun). destruct u6.
  pose proof (initAtomMaps_self _ _ _ H6) as Hsym6.
  apply initAtomMaps_symMesh in H6.
  pose proof (initSymmIndex_sym _ _ _ Hrun) as Hsym7.
  apply initSymmIndex_symMesh in Hrun.
  cbn [self] in H6, Hsym6.
  assert (Hmesh : symMesh (self w')
                  = map (meshOf (gInfo_S (gInfo e))) (sym (self w'))).
  { rewrite Hrun, H6, Hsym7, Hsym6, Hsym4. now rewrite Hw4. }
  rewrite Hmesh. split; [apply length_map|].
  intros i m Hm. exists (meshOf (gInfo_S (gInfo e)) m). split.
  - now rewrite list_lookup_fmap, Hm.
  - apply meshOf_exact; [exact Hnz|]. intros i' j'.
    apply Z.rem_divide; [apply Hnz|]. apply Hrem.
    rewrite <- Hsym4, <- Hsym6, <- Hsym7.
    apply list_elem_of_In, list_elem_of_lookup. now exists i.
Qed.

(** ** Running the monad forwards *)

Lemma bind_run {A B : Type} (c : M A) (k : A -> M B) (w : World) :
  bind c k w
  = match c w with
    | Ok (a, w1) => k a w1
    | Died msg => Died msg
    | OutOfFuel => OutOfFuel
    end.
Proof. reflexivity. Qed.

Lemma logPrintf_run (fmt : string) (w : World) :
  logPrintf fmt w = Ok (tt, mkWorld (self w) (globalLog w ++ [fmt])).
Proof. reflexivity. Qed.

Lemma update_run (f : Symmetries -> Symmetries) (w : World) :
  update f w = Ok (tt, mkWorld (f (self w)) (globalLog w)).
Proof. reflexivity. Qed.

Lemma this_run (w : World) : this w = Ok (self w, w).
Proof. reflexivity. Qed.

Lemma forallb_false {A : Type} (f : A -> bool) (l : list A) :
  forallb f l = false <-> exists x, In x l /\ f x = false.
Proof.
  induction l as [|a rest IH]; cbn [forallb].
  - split; [discriminate | intros (x & [] & _)].
  - rewrite andb_false_iff, IH. split.
    + intros [Ha | (x & Hx & Hf)]; [exists a | exists x]; split; auto;
        [now left | now right].
    + intros (x & [<- | Hx] & Hf); [now left | right; now exists x].
Qed.

(** A loop whose body only tests: it returns in the world it started in
    when every test passes and dies at the first that fails. *)
Lemma forM_test {A : Type} (body : A -> M unit) (ok : A -> bool)
  (msg : string) (l : list A) (w : World) :
  (forall x w1, body x w1 = if ok x then Ok (tt, w1) else Died msg) ->
  forM_ body l w = if forallb ok l then Ok (tt, w) else Died msg.
Proof.
  intros Hb. induction l as [|x rest IH]; cbn [forM_ forallb]; [reflexivity|].
  rewrite bind_run, Hb. destruct (ok x); [exact IH | reflexivity].
Qed.

(** ** checkSymmetries *)

(** The test that [checkSymmetries] makes. *)
Lemma checkSymmetries_run (e : Everything) (w : World) :
  checkSymmetries e w
  = if forallb (fun m =>
         forallb (fun sp =>
           forallb (fun pos1 => foundImage (mvmul (m_i2d m) pos1) (atpos sp))
                   (atpos sp)) (species e)) (sym (self w))
    then Ok (tt, mkWorld (self w)
                   (globalLog w
                    ++ ["Checking manually specified symmetry matrices.\n"%string]))
    else Died "Symmetries do not agree with atomic positions!\n".
Proof.
  unfold checkSymmetries. rewrite bind_run, logPrintf_run.
  rewrite bind_run, this_run. cbn [self].
  apply forM_test. intros m w1.
  apply forM_test. intros sp w2. unfold checkAtoms.
  apply forM_test. intros pos1 w3.
  now destruct (foundImage _ _).
Qed.

(** X6: [checkSymmetries] ends the run, with the message that the
    symmetries do not agree with the atomic positions, exactly when for
    some matrix [m] of the group some atom [pos1] has no atom of its
    species within [MIN_SYMM_TOL] of [m * pos1]; otherwise it returns, and
    all it has done is to log one line. *)
Theorem checkSymmetries_spec (e : Everything) (w : World) :
  (checkSymmetries e w = Died "Symmetries do not agree with atomic positions!\n"
   <-> exists m sp pos1,
         In m (sym (self w)) /\ In sp (species e) /\ In pos1 (atpos sp) /\
         forall pos2, In pos2 (atpos sp) ->
           ~ (circDistanceSquared (mvmul (m_i2d m) pos1) pos2 < MIN_SYMM_TOL)%Q)
  /\ (checkSymmetries e w
      = Ok (tt, mkWorld (self w)
                  (globalLog w
                   ++ ["Checking manually specified symmetry matrices.\n"%string]))
      <-> forall m sp pos1,
            In m (sym (self w)) -> In sp (species e) -> In pos1 (atpos sp) ->
            exists pos2, In pos2 (atpos sp) /\
              (circDistanceSquared (mvmul (m_i2d m) pos1) pos2 < MIN_SYMM_TOL)%Q).
Proof.
  rewrite checkSymmetries_run.
  destruct (forallb _ (sym (self w))) eqn:Hall.
  - assert (Hgood : forall m sp pos1,
              In m (sym (self w)) -> In sp (species e) -> In pos1 (atpos sp) ->
              exists pos2, In pos2 (atpos sp) /\
                (circDistanceSquared (mvmul (m_i2d m) pos1) pos2 < MIN_SYMM_TOL)%Q).
    { intros m sp pos1 Hm Hsp Hpos1.
      rewrite forallb_forall in Hall. specialize (Hall m Hm).
      rewrite forallb_forall in Hall. specialize (Hall sp Hsp).
      rewrite forallb_forall in Hall. specialize (Hall pos1 Hpos1).
      now apply foundImage_spec. }
    split.
    + split; [discriminate|].
      intros (m & sp & pos1 & Hm & Hsp & Hpos1 & Hnone). exfalso.
      destruct (Hgood m sp pos1 Hm Hsp Hpos1) as (pos2 & Hpos2 & Hlt).
      exact (Hnone pos2 Hpos2 Hlt).
    + split; [intros _; exact Hgood | reflexivity].
  - assert (Hbad : exists m sp pos1,
              In m (sym (self w)) /\ In sp (species e) /\ In pos1 (atpos sp) /\
              forall pos2, In pos2 (atpos sp) ->
                ~ (circDistanceSquared (mvmul (m_i2d m) pos1) pos2
                     < MIN_SYMM_TOL)%Q).
    { apply forallb_false in Hall as (m & Hm & Hall).
      apply forallb_false in Hall as (sp & Hsp & Hall).
      apply forallb_false in Hall as (pos1 & Hpos1 & Hall).
      exists m, sp, pos1. repeat split; try assumption.
      intros pos2 Hpos2 Hlt.
      assert (foundImage (mvmul (m_i2d m) pos1) (atpos sp) = true)
        by (apply foundImage_spec; now exists pos2).
      congruence. }
    split.
    + split; [intros _; exact Hbad | reflexivity].
    + split; [discriminate|]. intros Hgood. exfalso.
      destruct Hbad as (m & sp & pos1 & Hm & Hsp & Hpos1 & Hnone).
      destruct (Hgood m sp pos1 Hm Hsp Hpos1) as (pos2 & Hpos2 & Hlt).
      exact (Hnone pos2 Hpos2 Hlt).
Qed.

(** ** calcSymmetries *)

Lemma latticeSymmetries_self (fuel : nat) (e : Everything) (w w1 : World)
  (symLattice : list (matrix3 Z)) :
  latticeSymmetries fuel e w = Ok (symLattice, w1) -> self w1 = self w.
Proof.
  unfold latticeSymmetries.
  destruct (reduceBasis fuel _) as [st|]; [|discriminate].
  destruct (wasReduced _ _).
  - rewrite bind_run, logPrintf_run, bind_run, logPrintf_run. unfold ret.
    now intros [= _ <-].
  - unfold ret. now intros [= _ <-].
Qed.

(** The loop over the proposed centers ends with more symmetries than it
    started with exactly when some proposed center gives more. *)
Lemma tryCenter_fold_spec (e : Everything) (symLattice : list (matrix3 Z))
  (cands : list (vector3 Q)) (rCenter : vector3 Q) (w : World) :
  exists rCenter' w',
    foldM (tryCenter e symLattice) cands rCenter w = Ok (rCenter', w') /\
    (sym (self w') = sym (self w)
     \/ (length (sym (self w)) < length (sym (self w')))%nat) /\
    ((length (sym (self w)) < length (sym (self w')))%nat <->
     exists c, In c cands /\
       (length (sym (self w)) < length (basisReduce e symLattice c))%nat).
Proof.
  revert rCenter w. induction cands as [|c rest IH]; intros rCenter w;
    cbn [foldM].
  - exists rCenter, w. split; [reflexivity|]. split; [now left|].
    split; [lia | intros (c & [] & _)].
  - rewrite bind_run. unfold tryCenter at 1. rewrite bind_run, this_run.
    destruct (Nat.ltb_spec (length (sym (self w)))
                           (length (basisReduce e symLattice c))) as [Hlt | Hge].
    + rewrite bind_run, update_run. unfold ret.
      match goal with |- context [foldM _ rest ?rc ?w1] =>
        destruct (IH rc w1) as (rc' & w' & -> & Hsym & _) end.
      cbn [self sym set_sym] in Hsym.
      exists rc', w'. split; [reflexivity|].
      assert (Hmore : (length (sym (self w)) < length (sym (self w')))%nat)
        by (destruct Hsym as [-> | Hlt']; lia).
      split; [now right|]. split; [|intros _; exact Hmore].
      intros _. exists c. split; [now left | exact Hlt].
    + unfold ret. destruct (IH rCenter w) as (rc' & w' & -> & Hsym & Hiff).
      exists rc', w'. split; [reflexivity|]. split; [exact Hsym|].
      rewrite Hiff. split.
      * intros (c' & Hin & Hlt). exists c'. split; [now right | exact Hlt].
      * intros (c' & [<- | Hin] & Hlt); [lia|]. now exists c'.
Qed.

(** X7: once the lattice symmetries are found, [calcSymmetries] ends the
    run, asking for the suggested ionic positions, exactly when the search
    for a better center is on and some atom position or midpoint of two
    atoms of a species admits strictly more symmetries than the origin;
    otherwise it returns with the symmetries about the origin, after
    [sortSymmetries]. *)
Theorem calcSymmetries_move_atoms (fuel : nat) (e : Everything) (w w1 : World)
  (symLattice : list (matrix3 Z)) :
  latticeSymmetries fuel e
    (mkWorld (self w)
             (globalLog w ++ ["Searching for point group symmetries:\n"%string]))
  = Ok (symLattice, w1) ->
  (calcSymmetries fuel e w
   = Died "Use the suggested ionic positions, or set <moveAtoms>=no in command symmetry.\n"
   <-> shouldMoveAtoms (self w) = true /\
       exists c, In c (rCenterCandidates e) /\
         (length (basisReduce e symLattice vzero)
          < length (basisReduce e symLattice c))%nat)
  /\ ((exists w', calcSymmetries fuel e w = Ok (tt, w') /\
                  sym (self w') = sortList (basisReduce e symLattice vzero))
      <-> shouldMoveAtoms (self w) = false \/
          forall c, In c (rCenterCandidates e) ->
            (length (basisReduce e symLattice c)
             <= length (basisReduce e symLattice vzero))%nat).
Proof.
  intros Hlat. pose proof (latticeSymmetries_self _ _ _ _ _ Hlat) as Hself.
  cbn [self] in Hself.
  unfold calcSymmetries.
  rewrite bind_run, logPrintf_run. cbn [self globalLog].
  rewrite bind_run, Hlat.
  rewrite bind_run, logPrintf_run. cbv zeta.
  rewrite bind_run, update_run. cbn [self globalLog].
  rewrite bind_run, logPrintf_run. cbn [self globalLog].
  rewrite bind_run. unfold sortSymmetries. rewrite update_run.
  cbn [self globalLog sym set_sym].
  rewrite bind_run, this_run. cbn [self].
  set (s := set_sym (sortList (basisReduce e symLattice vzero)) _).
  set (lg := (_ ++ _) ++ _).
  assert (Hs : sym s = sortList (basisReduce e symLattice vzero)) by reflexivity.
  assert (Hmove : shouldMoveAtoms s = shouldMoveAtoms (self w))
    by (subst s; cbn; now rewrite Hself).
  assert (Hlen : length (sym s) = length (basisReduce e symLattice vzero))
    by (rewrite Hs; now rewrite sortList_Permutation).
  rewrite bind_run.
  assert (Hprint : exists lines,
    when (shouldPrintMatrices s) (printMatrices (sym s)) (mkWorld s lg)
    = Ok (tt, mkWorld s (lg ++ lines))).
  { destruct (shouldPrintMatrices s); cbn [when].
    - apply (printMatrices_log_only (sym s) (mkWorld s lg)).
    - exists []. unfold ret. now rewrite app_nil_r. }
  destruct Hprint as [lines ->]. rewrite Hmove.
  destruct (shouldMoveAtoms (self w)).
  - rewrite bind_run.
    destruct (tryCenter_fold_spec e symLattice (rCenterCandidates e) vzero
                (mkWorld s (lg ++ lines))) as (rc & w9 & -> & Hsym & Hiff).
    cbn [self] in Hsym, Hiff. rewrite Hlen in Hiff.
    rewrite bind_run, this_run.
    destruct (Nat.ltb_spec (length (sym s)) (length (sym (self w9))))
      as [Hlt | Hge].
    + rewrite bind_run, logPrintf_run. unfold die.
      rewrite Hlen in Hlt. apply Hiff in Hlt. split.
      * split; [intros _; split; [reflexivity | exact Hlt] | reflexivity].
      * split; [intros (w' & Hd & _); discriminate|].
        intros [Hf | Hnone]; [discriminate|]. exfalso.
        destruct Hlt as (c & Hc & Hlt). specialize (Hnone c Hc). lia.
    + unfold ret. rewrite Hlen in Hge.
      assert (Hnone : forall c, In c (rCenterCandidates e) ->
                (length (basisReduce e symLattice c)
                 <= length (basisReduce e symLattice vzero))%nat).
      { intros c Hc.
        destruct (Nat.le_gt_cases (length (basisReduce e symLattice c))
                    (length (basisReduce e symLattice vzero))) as [Hle | Hgt];
          [exact Hle|].
        exfalso.
        assert (length (basisReduce e symLattice vzero) < length (sym (self w9)))%nat
          by (apply Hiff; now exists c).
        lia. }
      split.
      * split; [discriminate|]. intros [_ (c & Hc & Hlt)].
        specialize (Hnone c Hc). lia.
      * split; [intros _; now right|]. intros _. exists w9.
        split; [reflexivity|].
        destruct Hsym as [-> | Hlt]; [exact Hs | lia].
  - unfold ret. split.
    + split; [discriminate | intros [Hf _]; discriminate].
    + split; [intros _; now left|]. intros _. eexists. split; [reflexivity|].
      exact Hs.
Qed.

(** ** initSymmIndex *)

(** The loop over the mesh matrices for one point: it appends the image
    under every matrix and marks the images. *)
Lemma visitImages_spec (S : vector3 Z) (r : vector3 Z)
  (meshes : list (matrix3 Z)) (st : list nat * list bool) :
  let st' := fold_left
               (fun st m =>
                  let index2 := fullGindex S (wrapImage S m r) in
                  (fst st ++ [index2], <[index2 := true]> (snd st)))
               meshes st in
  fst st' = fst st ++ map (fun m => fullGindex S (wrapImage S m r)) meshes /\
  (forall p, snd st' !! p = Some true ->
             snd st !! p = Some true \/ In p (fst st')).
Proof.
  revert st. induction meshes as [|m rest IH]; intros st; cbn [fold_left map].
  - split; [now rewrite app_nil_r | intros p Hp; now left].
  - cbv zeta in IH |- *.
    destruct (IH (fst st ++ [fullGindex S (wrapImage S m r)],
                  <[fullGindex S (wrapImage S m r) := true]> (snd st)))
      as [Hvec Hdone].
    cbn [fst snd] in Hvec, Hdone. split.
    + rewrite Hvec. now rewrite <- app_assoc.
    + intros p Hp. destruct (Hdone p Hp) as [Hold | Hin]; [|now right].
      destruct (decide (p = fullGindex S (wrapImage S m r))) as [-> | Hne].
      * right. rewrite Hvec. apply in_or_app. left. apply in_or_app. right.
        now left.
      * left. now rewrite list_lookup_insert_ne in Hold by congruence.
Qed.

(** One grid point: what is marked stays in the table, the table grows at
    its end by nothing or by one entry per mesh matrix, and the point is in
    it afterwards when some mesh matrix maps it onto itself. *)
Lemma visitPoint_spec (S : vector3 Z) (meshes : list (matrix3 Z))
  (st : list nat * list bool) (r : vector3 Z) :
  (forall p, snd st !! p = Some true -> In p (fst st)) ->
  (forall p, snd (visitPoint S meshes st r) !! p = Some true ->
             In p (fst (visitPoint S meshes st r)))
  /\ (exists more, fst (visitPoint S meshes st r) = fst st ++ more /\
                   (more = [] \/ length more = length meshes))
  /\ ((exists m0, In m0 meshes /\
                  fullGindex S (wrapImage S m0 r) = fullRindex S r) ->
      In (fullRindex S r) (fst (visitPoint S meshes st r))).
Proof.
  intros Hinv. unfold visitPoint. cbv zeta.
  destruct (default false (snd st !! fullRindex S r)) eqn:Hdone.
  - assert (Hmarked : snd st !! fullRindex S r = Some true)
      by (destruct (snd st !! fullRindex S r) as [[|]|]; cbn in Hdone;
          congruence).
    split; [exact Hinv|]. split.
    + exists []. split; [now rewrite app_nil_r | now left].
    + intros _. now apply Hinv.
  - destruct (visitImages_spec S r meshes st) as [Hvec Hmarks].
    cbv zeta in Hvec, Hmarks. split; [|split].
    + intros p Hp. destruct (Hmarks p Hp) as [Hold | Hin]; [|exact Hin].
      rewrite Hvec. apply in_or_app. left. now apply Hinv.
    + eexists. split; [exact Hvec|]. right. apply length_map.
    + intros (m0 & Hm0 & Hfix). rewrite Hvec. apply in_or_app. right.
      rewrite <- Hfix. apply in_map_iff. now exists m0.
Qed.

Lemma visitAll_spec (S : vector3 Z) (meshes : list (matrix3 Z))
  (points : list (vector3 Z)) (st : list nat * list bool) :
  (forall p, snd st !! p = Some true -> In p (fst st)) ->
  let st' := fold_left (visitPoint S meshes) points st in
  (forall p, In p (fst st) -> In p (fst st'))
  /\ (exists k, length (fst st') = (length (fst st) + k * length meshes)%nat)
  /\ (forall r, In r points ->
        (exists m0, In m0 meshes /\
                    fullGindex S (wrapImage S m0 r) = fullRindex S r) ->
        In (fullRindex S r) (fst st')).
Proof.
  revert st. induction points as [|r rest IH]; intros st Hinv; cbn [fold_left].
  - split; [auto|]. split; [exists 0%nat; lia | intros r []].
  - destruct (visitPoint_spec S meshes st r Hinv)
      as (Hinv1 & (more & Hvec & Hmore) & Hself).
    destruct (IH _ Hinv1) as (Hkeep & (k & Hk) & Hcover). cbv zeta.
    split; [|split].
    + intros p Hp. apply Hkeep. rewrite Hvec. apply in_or_app. now left.
    + rewrite Hk, Hvec, length_app.
      destruct Hmore as [-> | Hlen].
      * exists k. cbn. lia.
      * exists (Datatypes.S k). rewrite Hlen. lia.
    + intros r' [<- | Hr'] Hfix.
      * apply Hkeep. now apply Hself.
      * now apply Hcover.
Qed.

(** The run of [initSymmIndex] on a group of more than one element. *)
Lemma initSymmIndex_table (e : Everything) (w : World) :
  length (sym (self w)) <> 1%nat ->
  (exists m0, In m0 (symMesh (self w)) /\
     forall r, In r (gridPoints (gInfo_S (gInfo e))) ->
       fullGindex (gInfo_S (gInfo e)) (wrapImage (gInfo_S (gInfo e)) m0 r)
       = fullRindex (gInfo_S (gInfo e)) r) ->
  exists table,
    initSymmIndex e w
    = Ok (tt, mkWorld (set_symmIndex table (self w)) (globalLog w))
    /\ nSymmIndex (set_symmIndex table (self w)) = length table
    /\ (exists k, length table = (k * length (symMesh (self w)))%nat)
    /\ (forall r, In r (gridPoints (gInfo_S (gInfo e))) ->
          In (fullRindex (gInfo_S (gInfo e)) r) table).
Proof.
  intros Hlen (m0 & Hm0 & Hfix). unfold initSymmIndex.
  rewrite bind_run, this_run. apply Nat.eqb_neq in Hlen. rewrite Hlen.
  cbv zeta. rewrite update_run. eexists. split; [reflexivity|].
  split; [reflexivity|].
  destruct (visitAll_spec (gInfo_S (gInfo e)) (symMesh (self w))
              (gridPoints (gInfo_S (gInfo e)))
              ([], replicate (gInfo_nr (gInfo e)) false))
    as (_ & (k & Hk) & Hcover).
  - cbn [fst snd]. intros p Hp. apply lookup_replicate in Hp as [Hp _].
    discriminate.
  - cbv zeta in Hk, Hcover. split.
    + exists k. rewrite Hk. reflexivity.
    + intros r Hr. apply Hcover; [exact Hr|]. exists m0. split; [exact Hm0|].
      now apply Hfix.
Qed.

(** X8: on a group of more than one element, when some mesh matrix (the
    identity, in practice) maps every grid point onto itself,
    [initSymmIndex] returns and the object it leaves has in [symmIndex] a
    table that contains every grid point; the length of the table is
    recorded in [nSymmIndex] and is a multiple of the number of mesh
    matrices; nothing else of the object changes, nor does the log. *)
Theorem initSymmIndex_covers (e : Everything) (w : World) :
  length (sym (self w)) <> 1%nat ->
  (exists m0, In m0 (symMesh (self w)) /\
     forall r, In r (gridPoints (gInfo_S (gInfo e))) ->
       fullGindex (gInfo_S (gInfo e)) (wrapImage (gInfo_S (gInfo e)) m0 r)
       = fullRindex (gInfo_S (gInfo e)) r) ->
  exists table w',
    initSymmIndex e w = Ok (tt, w')
    /\ w' = mkWorld (set_symmIndex table (self w)) (globalLog w)
    /\ symmIndex (self w') = table
    /\ nSymmIndex (self w') = length table
    /\ sym (self w') = sym (self w)
    /\ symMesh (self w') = symMesh (self w)
    /\ atomMap (self w') = atomMap (self w)
    /\ mode (self w') = mode (self w)
    /\ globalLog w' = globalLog w
    /\ (exists k, length table = (k * length (symMesh (self w)))%nat)
    /\ (forall r, In r (gridPoints (gInfo_S (gInfo e))) ->
          In (fullRindex (gInfo_S (gInfo e)) r) table).
Proof.
  intros Hlen Hfix.
  destruct (initSymmIndex_table e w Hlen Hfix)
    as (table & Hrun & _ & Hmult & Hcover).
  exists table. eexists. split; [exact Hrun|].
  split; [reflexivity|]. cbn [self globalLog set_symmIndex symmIndex
                              nSymmIndex sym symMesh atomMap mode].
  do 7 (split; [reflexivity|]). split; [exact Hmult | exact Hcover].
Qed.

(** ** The reduced basis and its transmission matrix *)

(** [d] is the inverse of [dInv] as well. *)
Lemma elementary_inverse_l (k1 : idx3) (i j : Z) :
  mmul (snd (elementary k1 i j)) (fst (elementary k1 i j)) = identity.
Proof.
  destruct k1;
    cbv [elementary mmul mbuild vbuild vdot mcol mget vget mset vset next3
         identity mdiag fst snd vx vy vz s_zero s_one s_add s_mul Scalar_int];
    f_equal; f_equal; ring.
Qed.

Lemma tryMove_invariant (R : matrix3 Q) (st : Reduction) (mv : idx3 * Z * Z) :
  reductionInvariant R st -> reductionInvariant R (tryMove st mv).
Proof.
  intros (Hr & Hl & Hnorm).
  destruct (tryMove_cases st mv) as [-> | [_ Hlt]]; [now repeat split|].
  split; [now apply tryMove_inverse|].
  pose proof tol_pos as Htol.
  destruct mv as [[k1 i] j]. unfold tryMove in *.
  pose proof (elementary_inverse_l k1 i j) as Hd.
  destruct (elementary k1 i j) as [d dInv]. cbn [fst snd] in Hd.
  destruct (Qltb _ _); [|repeat split; try assumption].
  cbn [transmission invTransmission Rreduced] in *.
  split.
  - rewrite mmul_assoc, <- (mmul_assoc (invTransmission st)), Hl,
      mmul_identity_l. exact Hd.
  - lra.
Qed.

Lemma sweep_invariant (R : matrix3 Q) (st : Reduction) :
  reductionInvariant R st -> reductionInvariant R (sweep st).
Proof.
  unfold sweep. generalize moves as l. intros l Hinv.
  assert (Hgen : forall st0, reductionInvariant R st0 ->
                             reductionInvariant R (fold_left tryMove l st0)).
  { induction l as [|mv rest IH]; intros st0 H0; cbn [fold_left]; [exact H0|].
    apply IH. now apply tryMove_invariant. }
  apply Hgen. exact Hinv.
Qed.

Lemma reduceLoop_invariant (R : matrix3 Q) (fuel : nat) (st st' : Reduction) :
  reduceLoop fuel st = Some st' ->
  reductionInvariant R st ->
  reductionInvariant R st' /\ changed st' = false.
Proof.
  revert st. induction fuel as [|fuel IH]; intros st; cbn [reduceLoop];
    [discriminate|].
  intros Hrun Hinv. apply sweep_invariant in Hinv.
  destruct (changed (sweep st)) eqn:Hc.
  - now apply (IH (sweep st)).
  - injection Hrun as <-. now split.
Qed.

(** X9: when the reduction of the basis returns, the two recorded integer
    matrices are inverse to each other on both sides, the norm of the
    reduced basis is not above that of the lattice basis, and the last pass
    changed nothing. *)
Theorem reduceBasis_invariants (fuel : nat) (R : matrix3 Q) (st : Reduction) :
  reduceBasis fuel R = Some st ->
  mmul (transmission st) (invTransmission st) = identity
  /\ mmul (invTransmission st) (transmission st) = identity
  /\ (nrm2 (Rreduced st) <= nrm2 R)%Q
  /\ changed st = false.
Proof.
  unfold reduceBasis. intros Hrun.
  apply (reduceLoop_invariant R) in Hrun
    as ((Hr & Hl & Hnorm) & Hquiet); [now repeat split|].
  split; [apply mmul_identity_l|]. split; [apply mmul_identity_l|].
  apply Qle_refl.
Qed.

(** ** The identity in the group *)

(** X10: outside automatic mode, the group that [setup] leaves has the
    identity in front exactly when the mode is 'none' or the identity was
    among the matrices the user gave. *)
Theorem setup_identity_first_iff_supplied (fuel : nat) (e : Everything)
  (w w' : World) :
  setup fuel e w = Ok (tt, w') ->
  mode (self w) <> SymmetriesAutomatic ->
  (sym (self w') !! 0%nat = Some identity
   <-> mode (self w) = SymmetriesNone \/ In identity (sym (self w))).
Proof.
  intros Hrun Hmode. apply setup_group in Hrun.
  destruct (mode (self w)) eqn:Hm; [|contradiction|].
  - rewrite Hrun. split; [intros _; now left | reflexivity].
  - destruct Hrun as [_ ->]. split.
    + intros Hfront. right.
      apply (Permutation_in _ (sortList_Permutation (sym (self w)))).
      apply list_elem_of_In, list_elem_of_lookup. now exists 0%nat.
    + intros [Hf | Hin]; [discriminate | now apply sortList_front].
Qed.

(** X11: in automatic mode, when a matrix of zeros has a norm below the
    tolerance and equal positions are within the tolerance of each other,
    the group that [setup] leaves has the identity in front. *)
Theorem setup_automatic_finds_identity (fuel : nat) (e : Everything)
  (w w' : World) :
  (forall M : matrix3 Q,
      (forall i j, mget M i j == 0)%Q -> (nrm2 M < MIN_SYMM_TOL)%Q) ->
  (forall p q : vector3 Q,
      veq p q -> (circDistanceSquared p q < MIN_SYMM_TOL)%Q) ->
  mode (self w) = SymmetriesAutomatic ->
  setup fuel e w = Ok (tt, w') ->
  sym (self w') !! 0%nat = Some identity.
Proof.
  intros Hnull Hnear. now apply setup_automatic_identity_first.
Qed.


(** X13: in a mode other than 'none', when equal k-points are within
    [MIN_KPT_DISTANCE] of each other and the identity is in the group, every
    k-point is equivalent to itself. *)
Theorem kpointsEquivalent_refl (s : Symmetries) (k : vector3 Q) :
  (forall p q : vector3 Q,
      veq p q -> (circDistanceSquared p q < MIN_KPT_DISTANCE)%Q) ->
  mode s <> SymmetriesNone ->
  In identity (sym s) ->
  kpointsEquivalent s k k = true.
Proof.
  intros Hnear Hmode Hin. unfold kpointsEquivalent.
  destruct (mode s); [contradiction| |]; cbn [mode_eqb];
    apply anyImage_spec; exists identity; (split; [exact Hin|]);
    apply Hnear; destruct k as [x y z]; unfold veq; cbn; repeat split; ring.
Qed.

(** ** The proposed centers *)

Lemma triangle_count {A : Type} (f : nat -> list A) (n : nat) :
  (forall k, length (f k) = Datatypes.S k) ->
  (2 * length (k ← seq 0 n; f k) = n * (n + 1))%nat.
Proof.
  intros Hf. induction n as [|n IH]; [reflexivity|].
  rewrite seq_S, bind_app, length_app. cbn [mbind list_bind].
  rewrite app_nil_r, Hf. lia.
Qed.

Lemma length_bind_singleton {A B : Type} (g : A -> B) (l : list A) :
  length (j ← l; [g j]) = length l.
Proof.
  induction l as [|a rest IH]; [reflexivity|].
  cbn [mbind list_bind] in *. cbn. now rewrite IH.
Qed.

Lemma centersOf_In (ps : list (vector3 Q)) (c : vector3 Q) :
  In c (centersOf ps) <->
  exists n1 p1, ps !! n1 = Some p1 /\
    (c = p1 \/
     exists n2 p2, (n2 < n1)%nat /\ ps !! n2 = Some p2 /\
       c = vscale (1 # 2)%Q (vadd p1 p2)).
Proof.
  unfold centersOf. rewrite <- list_elem_of_In, list_elem_of_bind. split.
  - intros (n1 & Hc & Hn1). apply elem_of_seq in Hn1.
    destruct (lookup_lt_is_Some_2 ps n1 ltac:(lia)) as [p1 Hp1].
    exists n1, p1. split; [exact Hp1|].
    unfold nth_vec in Hc. rewrite Hp1 in Hc. cbn [default] in Hc.
    apply elem_of_cons in Hc as [-> | Hc]; [now left|]. right.
    apply list_elem_of_bind in Hc as (n2 & Hc & Hn2). apply elem_of_seq in Hn2.
    destruct (lookup_lt_is_Some_2 ps n2 ltac:(lia)) as [p2 Hp2].
    rewrite Hp2 in Hc. cbn [default] in Hc.
    apply list_elem_of_singleton in Hc as ->.
    exists n2, p2. split; [lia|]. now split.
  - intros (n1 & p1 & Hp1 & Hc). exists n1. split.
    + unfold nth_vec. rewrite Hp1. cbn [default]. apply elem_of_cons.
      destruct Hc as [-> | (n2 & p2 & Hlt & Hp2 & ->)]; [now left|]. right.
      apply list_elem_of_bind. exists n2. split.
      * rewrite Hp2. cbn [default]. now apply list_elem_of_singleton.
      * apply elem_of_seq. lia.
    + apply elem_of_seq. apply lookup_lt_Some in Hp1. lia.
Qed.

(** X14: the centers that [calcSymmetries] proposes are, for every
    species, the positions of its atoms and the midpoints of its pairs of
    atoms, and nothing else: [n*(n+1)/2] centers for a species of [n]
    atoms. *)
Theorem rCenterCandidates_spec (e : Everything) :
  (forall c, In c (rCenterCandidates e) <->
     exists sp n1 p1,
       In sp (species e) /\ atpos sp !! n1 = Some p1 /\
       (c = p1 \/
        exists n2 p2, (n2 < n1)%nat /\ atpos sp !! n2 = Some p2 /\
          c = vscale (1 # 2)%Q (vadd p1 p2)))
  /\ (forall ps, (2 * length (centersOf ps)
                  = length ps * (length ps + 1))%nat)
  /\ (species e = [] -> rCenterCandidates e = []).
Proof.
  split; [|split].
  - intros c. unfold rCenterCandidates.
    rewrite <- list_elem_of_In, list_elem_of_bind. split.
    + intros (sp & Hc & Hsp). apply list_elem_of_In in Hc, Hsp.
      apply centersOf_In in Hc as (n1 & p1 & Hp1 & Hc).
      now exists sp, n1, p1.
    + intros (sp & n1 & p1 & Hsp & Hp1 & Hc). exists sp. split.
      * apply list_elem_of_In, centersOf_In. now exists n1, p1.
      * now apply list_elem_of_In.
  - intros ps. unfold centersOf. apply triangle_count.
    intros k. cbn [length]. f_equal.
    now rewrite length_bind_singleton, length_seq.
  - intros Hnone. unfold rCenterCandidates. now rewrite Hnone.
Qed.

(** ** Fields that are symmetric already *)

Lemma sum_of_equal_values (f : nat -> Q) (a : Q) (js : list nat) :
  (forall j, In j js -> (f j == a)%Q) ->
  (fold_right Qplus 0 (map f js) == inject_Z (Z.of_nat (length js)) * a)%Q.
Proof.
  induction js as [|j rest IH]; intros Hf; cbn [fold_right map length].
  - change (inject_Z (Z.of_nat 0)) with 0%Q. ring.
  - rewrite IH by (intros j' Hj'; apply Hf; now right).
    rewrite (Hf j) by now left. rewrite inject_nat_succ. ring.
Qed.

Lemma fieldEq_refl (x : list Q) : fieldEq x x.
Proof.
  apply Forall2_same_length_lookup. split; [reflexivity|].
  intros p a b Ha Hb. rewrite Ha in Hb. injection Hb as <-. reflexivity.
Qed.

(** X15: in exact arithmetic, with a group that is not empty and a valid
    table, a field whose values agree on the entries of every class is
    left with the same values by [symmetrize]. *)
Theorem symmetrize_fixes_symmetric_field (s : Symmetries) (x : list Q) :
  (1 <= length (sym s))%nat ->
  validTable (length (sym s)) (nSymmIndex s / length (sym s)) (symmIndex s)
             (length x) ->
  (forall i j,
      (i < nSymmIndex s / length (sym s))%nat -> (j < length (sym s))%nat ->
      (nth_Q x (nth_nat (symmIndex s) (length (sym s) * i + j))
       == nth_Q x (nth_nat (symmIndex s) (length (sym s) * i + 0)))%Q) ->
  fieldEq (symmetrize s x) x.
Proof.
  intros Hn Hvalid Hconst. unfold symmetrize.
  destruct (Nat.eqb_spec (length (sym s)) 1) as [H1 | H1];
    [apply fieldEq_refl|].
  destruct (symmetrize_sub_spec_exact _ _ _ x Hvalid) as (Hlen & Hother & Hhit).
  set (nRot := length (sym s)) in *.
  set (nC := (nSymmIndex s / nRot)%nat) in *.
  set (y := symmetrize_sub 0 nC nRot x (symmIndex s)) in *.
  assert (Hpoint : forall p, (nth_Q y p == nth_Q x p)%Q).
  { intros p.
    destruct (decide (Exists
      (fun i => p ∈ map (fun j => nth_nat (symmIndex s) (nRot * i + j))
                        (seq 0 nRot))
      (seq 0 nC))) as [Hex | Hnone].
    - apply Exists_exists in Hex as (i & Hi & Hp).
      apply elem_of_seq in Hi.
      apply list_elem_of_In, in_map_iff in Hp as (j & <- & Hj).
      apply in_seq in Hj.
      rewrite Hhit by lia. rewrite classSum_average by exact Hn.
      unfold orbitAverage.
      rewrite (sum_of_equal_values _
                 (nth_Q x (nth_nat (symmIndex s) (nRot * i + 0)))).
      + rewrite length_seq, (Hconst i j) by lia. field.
        intros H0. unfold Qeq in H0. cbn in H0. lia.
      + intros j' Hj'. apply in_seq in Hj'. apply Hconst; lia.
    - rewrite Hother; [reflexivity|].
      intros i j Hi Hj Heq. apply Hnone. apply Exists_exists. exists i. split.
      + apply elem_of_seq. lia.
      + apply list_elem_of_In, in_map_iff. exists j. split; [exact Heq|].
        apply in_seq. lia. }
  apply Forall2_same_length_lookup. split; [exact Hlen|].
  intros p a b Ha Hb. specialize (Hpoint p). unfold nth_Q in Hpoint.
  now rewrite Ha, Hb in Hpoint.
Qed.

(** X18: in exact arithmetic, with a group that is not empty and a valid
    table, [symmetrize] keeps the sum of the field over the entries of
    every class of the table: what it takes from one entry of a class it
    gives to another. *)
Theorem symmetrize_conserves_class_sums (s : Symmetries) (x : list Q) (i : nat) :
  (1 <= length (sym s))%nat ->
  validTable (length (sym s)) (nSymmIndex s / length (sym s)) (symmIndex s)
             (length x) ->
  (i < nSymmIndex s / length (sym s))%nat ->
  (classTotal (length (sym s)) (symmetrize s x) (symmIndex s) i
   == classTotal (length (sym s)) x (symmIndex s) i)%Q.
Proof.
  intros Hn Hvalid Hi. unfold symmetrize.
  destruct (Nat.eqb_spec (length (sym s)) 1) as [H1 | H1]; [reflexivity|].
  destruct (symmetrize_sub_spec_exact _ _ _ x Hvalid) as (_ & _ & Hhit).
  set (nRot := length (sym s)) in *.
  set (nC := (nSymmIndex s / nRot)%nat) in *.
  unfold classTotal at 1.
  rewrite (sum_of_equal_values _ (orbitAverage nRot x (symmIndex s) i)).
  - rewrite length_seq. unfold orbitAverage, classTotal. field.
    intros H0. unfold Qeq in H0. cbn in H0. lia.
  - intros j Hj. apply in_seq in Hj.
    rewrite Hhit by lia. now apply classSum_average.
Qed.

(** ** Forces that are symmetric already *)

Lemma fold_vadd_equal (g : nat -> vector3 Q) (a : vector3 Q) (js : list nat)
  (v0 : vector3 Q) :
  (forall j, In j js -> veq (g j) a) ->
  veq (fold_left (fun acc j => vadd acc (g j)) js v0)
      (vadd v0 (vscale (inject_Z (Z.of_nat (length js))) a)).
Proof.
  revert v0. induction js as [|j rest IH]; intros v0 Hg;
    cbn [fold_left length].
  - change (inject_Z (Z.of_nat 0)) with 0%Q.
    unfold veq, vadd, vscale, vbuild, vget. cbn. repeat split; ring.
  - specialize (IH (vadd v0 (g j)) (fun j' Hj' => Hg j' (or_intror Hj'))).
    destruct (Hg j (or_introl eq_refl)) as (Hx & Hy & Hz).
    destruct IH as (IHx & IHy & IHz).
    unfold veq, vadd, vscale, vbuild, vget in *. cbn in *.
    rewrite inject_nat_succ.
    repeat split;
      [rewrite IHx, Hx | rewrite IHy, Hy | rewrite IHz, Hz]; ring.
Qed.

(** X19: in exact arithmetic, on a group of more than one element, forces
    that every operation maps onto themselves (the transpose-transformed
    force at the image of an atom has the values of the force on the atom)
    are left with the same values by the force symmetrizer. *)
Theorem symmetrizeForces_fixes_symmetric_forces (s : Symmetries)
  (f : list (list (vector3 Q))) :
  (1 < length (sym s))%nat ->
  (forall sp fsp atom iRot,
      f !! sp = Some fsp -> (atom < length fsp)%nat ->
      (iRot < length (sym s))%nat ->
      veq (imageForce (sym s) fsp (default [] (atomMap s !! sp)) atom iRot)
          (nth_vec fsp atom)) ->
  forall sp fsp atom,
    f !! sp = Some fsp -> (atom < length fsp)%nat ->
    exists fsp' v,
      symmetrizeForces s f !! sp = Some fsp' /\
      fsp' !! atom = Some v /\
      veq v (nth_vec fsp atom).
Proof.
  intros Hn Hsym sp fsp atom Hsp Hatom. unfold symmetrizeForces.
  destruct (Nat.leb_spec (length (sym s)) 1) as [Hle | _]; [lia|].
  destruct (fold_own_slot
              (fun sp o => symmetrizeSpecies (sym s)
                             (default [] (atomMap s !! sp)) (default [] o))
              (length f) 0 f) as (_ & _ & Hin).
  pose proof (lookup_lt_Some _ _ _ Hsp) as Hsplt.
  rewrite Hin by lia. rewrite Hsp. cbn [default from_option].
  destruct (symmetrizeSpecies_lookup (sym s) (default [] (atomMap s !! sp))
              fsp atom Hatom) as [_ Ha].
  eexists. eexists. split; [reflexivity|]. split; [exact Ha|].
  unfold forceAverage.
  pose proof (fold_vadd_equal
                (imageForce (sym s) fsp (default [] (atomMap s !! sp)) atom)
                (nth_vec fsp atom) (seq 0 (length (sym s))) vzero) as Hsum.
  destruct Hsum as (Sx & Sy & Sz).
  { intros j Hj. apply in_seq in Hj. apply (Hsym sp fsp atom j); [assumption..|lia]. }
  rewrite length_seq in Sx, Sy, Sz.
  assert (Hnz : ~ (inject_Z (Z.of_nat (length (sym s))) == 0)%Q).
  { intros H0. unfold Qeq in H0. cbn in H0. lia. }
  unfold imageForce in Sx, Sy, Sz.
  unfold veq, vdiv, vmap. cbn [vx vy vz].
  rewrite Sx, Sy, Sz.
  unfold vadd, vscale, vbuild, vget, vzero. cbn.
  repeat split; field; exact Hnz.
Qed.

(** ** The shape of the atom map *)

Lemma length_zip_seq {A : Type} (l : list A) (a : nat) :
  length (zip (seq a (length l)) l) = length l.
Proof.
  revert a. induction l as [|x rest IH]; intros a; [reflexivity|].
  cbn. now rewrite IH.
Qed.

Lemma mapMi_length {A B : Type} (body : nat -> A -> M B) (l : list A)
  (w w' : World) (ys : list B) :
  mapMi body l w = Ok (ys, w') -> length ys = length l.
Proof.
  unfold mapMi. intros Hrun. apply mapM_Ok, Forall2_length in Hrun.
  now rewrite <- Hrun, length_zip_seq.
Qed.

(** X16: when [initAtomMaps] returns on a group of more than one element,
    the atom map has one table per species, one row per atom of the species
    and one entry per symmetry; on a fresh object every entry is the index
    of an atom of that species. *)
Theorem initAtomMaps_shape (e : Everything) (w w' : World) :
  length (sym (self w)) <> 1%nat ->
  initAtomMaps e w = Ok (tt, w') ->
  length (atomMap (self w')) = length (species e)
  /\ forall sp spInfo,
       species e !! sp = Some spInfo ->
       exists rows,
         atomMap (self w') !! sp = Some rows /\
         length rows = length (atpos spInfo) /\
         forall at1 row,
           rows !! at1 = Some row ->
           length row = length (sym (self w)) /\
           (atomMap (self w) = [] ->
            forall iRot a, row !! iRot = Some a ->
                           (a < length (atpos spInfo))%nat).
Proof.
  intros Hlen Hrun.
  destruct (initAtomMaps_unfold e w Hlen) as (w0 & _ & Heq).
  rewrite Heq in Hrun.
  destruct (mapMi _ _ w0) as [[newMap w1]| |] eqn:Hmap; try discriminate.
  injection Hrun as <-. cbn [self atomMap set_atomMap].
  split; [exact (mapMi_length _ _ _ _ _ Hmap)|].
  intros sp spInfo Hsp.
  destruct (mapMi_Ok _ _ _ _ _ Hmap sp spInfo Hsp)
    as (rows & wa & wb & Hrows & Hsprun).
  exists rows. split; [exact Hrows|].
  unfold atomMapSpecies in Hsprun.
  pose proof (mapMi_length _ _ _ _ _ Hsprun) as Hrowslen.
  split; [exact Hrowslen|].
  intros at1 row Hrow.
  pose proof (lookup_lt_Some _ _ _ Hrow) as Hat1. rewrite Hrowslen in Hat1.
  destruct (lookup_lt_is_Some_2 _ _ Hat1) as [pos1 Hpos1].
  destruct (mapMi_Ok _ _ _ _ _ Hsprun at1 pos1 Hpos1)
    as (row' & wc & wd & Hrow' & Hrowrun).
  rewrite Hrow in Hrow'. injection Hrow' as <-.
  pose proof (atomMapRow_inv (self w) sp spInfo at1 pos1 wc) as Hinv.
  rewrite Hrowrun in Hinv. destruct Hinv as (we & wf & Hentries).
  pose proof (mapMi_length _ _ _ _ _ Hentries) as Hrowlen.
  split; [exact Hrowlen|].
  intros Hfresh iRot a Ha.
  pose proof (lookup_lt_Some _ _ _ Ha) as HiRot. rewrite Hrowlen in HiRot.
  destruct (lookup_lt_is_Some_2 _ _ HiRot) as [m Hm].
  destruct (mapMi_Ok _ _ _ _ _ Hentries iRot m Hm)
    as (a' & wg & wh & Ha' & Harun).
  rewrite Ha in Ha'. injection Ha' as <-.
  pose proof (atomMapEntry_inv (self w) sp spInfo at1 pos1 iRot m wg) as Hinv.
  rewrite Harun in Hinv. destruct Hinv as (wi & Hfind).
  apply findAtom_Ok in Hfind
    as (_ & _ & [[-> _] | (k & pos2 & -> & Hk & _)]).
  - unfold slotBefore, nth_nat. rewrite Hfresh.
    repeat (rewrite lookup_nil; cbn [default from_option id]).
    cbv [id]. lia.
  - apply lookup_lt_Some in Hk. lia.
Qed.

End MoreProperties.

(** ** setPhi *)

(** Arithmetic on a NaN gives a NaN, and no comparison with a NaN holds. *)
Lemma b64_sub_nan (a : binary64) : d_sub a SpecFloat.S754_nan = SpecFloat.S754_nan.
Proof. now destruct a. Qed.

Lemma b64_mul_nan (a : binary64) : d_mul a SpecFloat.S754_nan = SpecFloat.S754_nan.
Proof. now destruct a. Qed.

Lemma b64_nan_ltb (a : binary64) : d_ltb SpecFloat.S754_nan a = false.
Proof. now destruct a. Qed.

Lemma b64_ltb_nan (a : binary64) : d_ltb a SpecFloat.S754_nan = false.
Proof. now destruct a as [| | |? ? ?]. Qed.

(** X17: in binary64 as in any arithmetic, [setPhi] writes slot [i] of the
    two arrays and no other, and keeps their lengths; the wall value it
    writes is [0.0] or [1.0]; the two values it writes depend on the third
    coordinate of the point only, not on the other two nor on what the
    arrays held.  In binary64, for a point whose third coordinate is NaN
    the applied potential is NaN and the wall value is [0.0]. *)
Theorem setPhi_spec (i na nw : nat) :
  (i < na)%nat -> (i < nw)%nat ->
  (forall (D : Type) (ops : DoubleOps D) (r : vector3 D)
          (phiApplied phiWall : list D) (gridLength Dfield zWall : D),
      length phiApplied = na -> length phiWall = nw ->
      length (fst (setPhi i r phiApplied phiWall gridLength Dfield zWall)) = na
      /\ length (snd (setPhi i r phiApplied phiWall gridLength Dfield zWall)) = nw
      /\ (forall j, j <> i ->
            fst (setPhi i r phiApplied phiWall gridLength Dfield zWall) !! j
            = phiApplied !! j /\
            snd (setPhi i r phiApplied phiWall gridLength Dfield zWall) !! j
            = phiWall !! j)
      /\ (nth_D (snd (setPhi i r phiApplied phiWall gridLength Dfield zWall)) i
           = d_zero
          \/ nth_D (snd (setPhi i r phiApplied phiWall gridLength Dfield zWall)) i
             = d_one)
      /\ (forall (r' : vector3 D) (phiApplied' phiWall' : list D),
            vz r' = vz r ->
            length phiApplied' = na -> length phiWall' = nw ->
            nth_D (fst (setPhi i r' phiApplied' phiWall' gridLength Dfield zWall)) i
            = nth_D (fst (setPhi i r phiApplied phiWall gridLength Dfield zWall)) i
            /\ nth_D (snd (setPhi i r' phiApplied' phiWall' gridLength Dfield zWall)) i
               = nth_D (snd (setPhi i r phiApplied phiWall gridLength Dfield zWall)) i))
  /\ (forall (r : vector3 binary64) (phiApplied phiWall : list binary64)
             (gridLength Dfield zWall : binary64),
        length phiApplied = na -> length phiWall = nw ->
        vz r = SpecFloat.S754_nan ->
        nth_D (fst (setPhi i r phiApplied phiWall gridLength Dfield zWall)) i
        = SpecFloat.S754_nan
        /\ nth_D (snd (setPhi i r phiApplied phiWall gridLength Dfield zWall)) i
           = d_zero).
Proof.
  intros Hi Hi'. split.
  - intros D ops r phiApplied phiWall gridLength Dfield zWall Ha Hw.
    subst na nw. unfold setPhi. cbv zeta. cbn [fst snd]. unfold nth_D.
    split; [apply length_insert|]. split; [apply length_insert|].
    split; [|split].
    + intros j Hj. split; apply list_lookup_insert_ne; congruence.
    + rewrite list_lookup_insert_eq by assumption.
      cbn [default from_option]. cbv [id].
      destruct (d_ltb _ _); [now right | now left].
    + intros r' phiApplied' phiWall' Hr Ha' Hw'.
      rewrite !list_lookup_insert_eq by (assumption || now rewrite ?Ha', ?Hw').
      now rewrite Hr.
  - intros r phiApplied phiWall gridLength Dfield zWall Ha Hw Hnan.
    subst na nw. unfold setPhi. cbv zeta. cbn [fst snd]. unfold nth_D.
    rewrite !list_lookup_insert_eq by assumption.
    cbn [default from_option]. cbv [id].
    unfold zEffective. rewrite Hnan, b64_nan_ltb, b64_sub_nan, b64_mul_nan.
    split; [reflexivity|].
    change (d_abs SpecFloat.S754_nan) with SpecFloat.S754_nan.
    now rewrite b64_ltb_nan.
Qed.

(** ** The concrete primitives, and closed instances of the properties *)

(** The flat index keeps a grid point that the identity maps onto itself. *)
Lemma flatIndex_identity (S r : vector3 Z) :
  In r (gridPoints S) ->
  flatIndexWrapped S (wrapImage S identity r) = flatIndex S r.
Proof.
  unfold gridPoints. rewrite <- list_elem_of_In. intros Hr.
  apply list_elem_of_bind in Hr as (r0 & Hr & H0).
  apply list_elem_of_bind in Hr as (r1 & Hr & H1).
  apply list_elem_of_bind in Hr as (r2 & Hr & H2).
  apply list_elem_of_singleton in Hr as ->.
  apply elem_of_seqZ in H0, H1, H2. destruct S as [s0 s1 s2]. cbn in H0, H1, H2.
  unfold flatIndexWrapped, wrapImage, mvmul, vbuild, vdot, identity, mdiag, vget.
  cbn.
  rewrite !Z.mul_0_l, !Z.mul_1_l, !Z.add_0_r, !Z.add_0_l.
  rewrite !Z.rem_small by lia.
  destruct (Z.ltb_spec r0 0), (Z.ltb_spec r1 0), (Z.ltb_spec r2 0); lia.
Qed.

Lemma circMinimumImage_null (p q : vector3 Q) :
  veq p q -> (circMinimumImage p q == 0)%Q.
Proof.
  intros (Hx & Hy & Hz). unfold circMinimumImage.
  destruct p as [px py pz], q as [qx qy qz]. cbn in Hx, Hy, Hz. cbn.
  rewrite (minimumImage_null (px - qx)) by (rewrite Hx; ring).
  rewrite (minimumImage_null (py - qy)) by (rewrite Hy; ring).
  rewrite (minimumImage_null (pz - qz)) by (rewrite Hz; ring).
  reflexivity.
Qed.

Lemma circMinimumImage_near_kpt (p q : vector3 Q) :
  veq p q -> (circMinimumImage p q < MIN_KPT_DISTANCE)%Q.
Proof.
  intros Heq. rewrite (circMinimumImage_null p q Heq). reflexivity.
Qed.

Lemma setup_leaves_group_witness :
  exists w',
    @setup concretePrims 0 hexCell threefold = Ok (tt, w') /\
    sym (self threefold) <> [] /\
    sym (self w') = sortList (sym (self threefold)).
Proof.
  assert (Hrun : exists w', @setup concretePrims 0 hexCell threefold = Ok (tt, w'))
    by (vm_compute; eexists; reflexivity).
  destruct Hrun as [w' Hrun]. exists w'. split; [exact Hrun|].
  exact (@setup_leaves_group concretePrims 0 hexCell threefold w' Hrun).
Defined.

Lemma setup_manual_empty_dies_witness :
  mode (self manualEmpty) = SymmetriesManual
  /\ sym (self manualEmpty) = []
  /\ @setup concretePrims 0 cubicCell manualEmpty
     = Died "\nManual symmetries specified without specifying any symmetry matrices.\n".
Proof.
  split; [reflexivity|]. split; [reflexivity|].
  exact (@setup_manual_empty_dies concretePrims 0 cubicCell manualEmpty
           eq_refl eq_refl).
Defined.

Lemma setup_none_succeeds_witness :
  mode (self noSymmetries) = SymmetriesNone
  /\ (forall j, vget (gInfo_S (gInfo cubicCell)) j <> 0)
  /\ exists w',
       @setup concretePrims 0 cubicCell noSymmetries = Ok (tt, w')
       /\ sym (self w') = [identity]
       /\ symMesh (self w') = [identity].
Proof.
  assert (Hnz : forall j, vget (gInfo_S (gInfo cubicCell)) j <> 0)
    by (intros []; discriminate).
  split; [reflexivity|]. split; [exact Hnz|].
  destruct (@setup_none_succeeds concretePrims 0 cubicCell noSymmetries
              eq_refl Hnz) as (lines & w' & Hrun & _ & Hsym & Hmesh & _).
  exists w'. split; [exact Hrun|]. split; [exact Hsym | exact Hmesh].
Defined.

Lemma setup_mesh_matrices_witness :
  (forall j, vget (gInfo_S (gInfo hexCell)) j <> 0)
  /\ exists w',
       @setup concretePrims 0 hexCell threefold = Ok (tt, w') /\
       length (symMesh (self w')) = length (sym (self w')).
Proof.
  assert (Hnz : forall j, vget (gInfo_S (gInfo hexCell)) j <> 0)
    by (intros []; discriminate).
  split; [exact Hnz|].
  assert (Hrun : exists w', @setup concretePrims 0 hexCell threefold = Ok (tt, w'))
    by (vm_compute; eexists; reflexivity).
  destruct Hrun as [w' Hrun]. exists w'. split; [exact Hrun|].
  exact (proj1 (@setup_mesh_matrices concretePrims 0 hexCell threefold w'
                  Hnz Hrun)).
Defined.

Lemma calcSymmetries_move_atoms_witness :
  exists symLattice w1,
    @latticeSymmetries concretePrims 5 offCenterCell
      (mkWorld (self automaticMoveAtoms)
         (globalLog automaticMoveAtoms
          ++ ["Searching for point group symmetries:\n"%string]))
    = Ok (symLattice, w1)
    /\ (@calcSymmetries concretePrims 5 offCenterCell automaticMoveAtoms
        = Died "Use the suggested ionic positions, or set <moveAtoms>=no in command symmetry.\n"
        <-> shouldMoveAtoms (self automaticMoveAtoms) = true /\
            exists c, In c (@rCenterCandidates offCenterCell) /\
              (length (@basisReduce concretePrims offCenterCell symLattice vzero)
               < length (@basisReduce concretePrims offCenterCell symLattice c))%nat).
Proof.
  assert (Hlat : exists symLattice w1,
    @latticeSymmetries concretePrims 5 offCenterCell
      (mkWorld (self automaticMoveAtoms)
         (globalLog automaticMoveAtoms
          ++ ["Searching for point group symmetries:\n"%string]))
    = Ok (symLattice, w1))
    by (vm_compute; eexists; eexists; reflexivity).
  destruct Hlat as (symLattice & w1 & Hlat). exists symLattice, w1.
  split; [exact Hlat|].
  exact (proj1 (@calcSymmetries_move_atoms concretePrims 5 offCenterCell
                  automaticMoveAtoms w1 symLattice Hlat)).
Defined.

Lemma initSymmIndex_covers_witness :
  length (sym threefoldReady) <> 1%nat
  /\ exists w',
       @initSymmIndex concretePrims hexCell (mkWorld threefoldReady [])
       = Ok (tt, w')
       /\ nSymmIndex (self w') = length (symmIndex (self w'))
       /\ forall r, In r (gridPoints (gInfo_S (gInfo hexCell))) ->
                    In (flatIndex (gInfo_S (gInfo hexCell)) r)
                       (symmIndex (self w')).
Proof.
  assert (Hlen : length (sym (self (mkWorld threefoldReady []))) <> 1%nat)
    by (vm_compute; discriminate).
  split; [exact Hlen|].
  destruct (@initSymmIndex_covers concretePrims hexCell
              (mkWorld threefoldReady []) Hlen)
    as (table & w' & Hrun & _ & Htable & Hn & _ & _ & _ & _ & _ & _ & Hcover).
  - exists identity. split; [vm_compute; now left|].
    intros r Hr. now apply flatIndex_identity.
  - exists w'. split; [exact Hrun|]. rewrite Htable.
    split; [exact Hn | exact Hcover].
Defined.

Lemma reduceBasis_invariants_witness :
  exists st,
    @reduceBasis concretePrims 5 shearedCubic = Some st /\
    mmul (transmission st) (invTransmission st) = identity /\
    mmul (invTransmission st) (transmission st) = identity /\
    (@nrm2 concretePrims (Rreduced st) <= @nrm2 concretePrims shearedCubic)%Q.
Proof.
  assert (Hrun : exists st, @reduceBasis concretePrims 5 shearedCubic = Some st)
    by (vm_compute; eexists; reflexivity).
  destruct Hrun as [st Hrun]. exists st. split; [exact Hrun|].
  destruct (@reduceBasis_invariants concretePrims 5 shearedCubic st Hrun)
    as (Hr & Hl & Hnorm & _).
  split; [exact Hr|]. split; [exact Hl | exact Hnorm].
Defined.

Lemma setup_identity_first_iff_supplied_witness :
  exists w',
    @setup concretePrims 0 hexCell threefold = Ok (tt, w') /\
    mode (self threefold) <> SymmetriesAutomatic /\
    (sym (self w') !! 0%nat = Some identity
     <-> mode (self threefold) = SymmetriesNone
         \/ In identity (sym (self threefold))).
Proof.
  assert (Hrun : exists w', @setup concretePrims 0 hexCell threefold = Ok (tt, w'))
    by (vm_compute; eexists; reflexivity).
  destruct Hrun as [w' Hrun]. exists w'. split; [exact Hrun|].
  assert (Hmode : mode (self threefold) <> SymmetriesAutomatic) by discriminate.
  split; [exact Hmode|].
  exact (@setup_identity_first_iff_supplied concretePrims 0 hexCell threefold w'
           Hrun Hmode).
Defined.

Lemma setup_automatic_finds_identity_witness :
  exists w',
    @setup concretePrims 5 cubicCell automaticSearch = Ok (tt, w') /\
    sym (self w') !! 0%nat = Some identity.
Proof.
  assert (Hrun : exists w',
            @setup concretePrims 5 cubicCell automaticSearch = Ok (tt, w'))
    by (vm_compute; eexists; reflexivity).
  destruct Hrun as [w' Hrun]. exists w'. split; [exact Hrun|].
  exact (@setup_automatic_finds_identity concretePrims 5 cubicCell
           automaticSearch w' frobenius_null circMinimumImage_near
           eq_refl Hrun).
Defined.


Lemma kpointsEquivalent_refl_witness :
  mode threefoldReady <> SymmetriesNone
  /\ In identity (sym threefoldReady)
  /\ @kpointsEquivalent concretePrims threefoldReady
       (mkV (1 # 3) (1 # 4) 0)%Q (mkV (1 # 3) (1 # 4) 0)%Q = true.
Proof.
  assert (Hmode : mode threefoldReady <> SymmetriesNone)
    by (vm_compute; discriminate).
  assert (Hin : In identity (sym threefoldReady)) by (vm_compute; now left).
  split; [exact Hmode|]. split; [exact Hin|].
  exact (@kpointsEquivalent_refl concretePrims threefoldReady
           (mkV (1 # 3) (1 # 4) 0)%Q circMinimumImage_near_kpt Hmode Hin).
Defined.

Lemma symmetrize_fixes_symmetric_field_witness :
  (1 <= length (sym threefoldReady))%nat
  /\ fieldEq (symmetrize threefoldReady [5; 2; 7; 2; 7; 1; 7; 3; 2]%Q)
             [5; 2; 7; 2; 7; 1; 7; 3; 2]%Q.
Proof.
  assert (Hn : (1 <= length (sym threefoldReady))%nat) by (vm_compute; lia).
  split; [exact Hn|].
  apply (symmetrize_fixes_symmetric_field threefoldReady
           [5; 2; 7; 2; 7; 1; 7; 3; 2]%Q Hn).
  - apply validTableb_spec. vm_compute. reflexivity.
  - intros i j Hi Hj.
    assert (Hi' : (i < 5)%nat) by exact Hi.
    assert (Hj' : (j < 3)%nat) by exact Hj.
    destruct i as [|[|[|[|[|i]]]]]; try lia;
      destruct j as [|[|[|j]]]; try lia; vm_compute; reflexivity.
Defined.

Lemma initAtomMaps_shape_witness :
  length (sym (self threefold)) <> 1%nat
  /\ exists w',
       @initAtomMaps concretePrims hexCell threefold = Ok (tt, w') /\
       length (atomMap (self w')) = length (species hexCell).
Proof.
  assert (Hlen : length (sym (self threefold)) <> 1%nat) by discriminate.
  split; [exact Hlen|].
  assert (Hrun : exists w',
            @initAtomMaps concretePrims hexCell threefold = Ok (tt, w'))
    by (vm_compute; eexists; reflexivity).
  destruct Hrun as [w' Hrun]. exists w'. split; [exact Hrun|].
  exact (proj1 (@initAtomMaps_shape concretePrims hexCell threefold w'
                  Hlen Hrun)).
Defined.

(** In binary64 two points that are mirror images in the middle plane of
    the cell need not get the same applied potential: for a cell of length
    [1 + 2^-52], the points at [0.25] and at [0.75 + 2^-52], whose
    coordinates add up to the length exactly, get [2^-54] and [-0.0],
    because [0.75 * gridLength] is rounded. *)
Lemma setPhi_mirror_binary64 :
  let L : binary64 := d_add d_one (SpecFloat.S754_finite false 1 (-52)) in
  let z : binary64 := d_lit (1 # 4) in
  let z' : binary64 := d_add (d_lit (3 # 4)) (SpecFloat.S754_finite false 1 (-52)) in
  d_add z z' = L
  /\ nth_D (fst (setPhi 0 (mkV d_zero d_zero z) [d_zero] [d_zero]
                    L d_one (d_lit (1 # 10)))) 0
     <> nth_D (fst (setPhi 0 (mkV d_zero d_zero z') [d_zero] [d_zero]
                      L d_one (d_lit (1 # 10)))) 0.
Proof.
  cbv zeta. split; [vm_compute; reflexivity|].
  vm_compute. discriminate.
Qed.

Lemma setPhi_spec_witness :
  (1 < 3)%nat
  /\ (nth_D (snd (setPhi 1 (mkV d_zero d_zero (d_lit (3 # 1)))
                     [d_zero; d_zero; d_zero] [d_zero; d_zero; d_zero]
                     (d_lit (16 # 1)) (d_lit (1 # 2)) (d_lit (1 # 1)))) 1
      = @d_zero binary64 _
      \/ nth_D (snd (setPhi 1 (mkV d_zero d_zero (d_lit (3 # 1)))
                        [d_zero; d_zero; d_zero] [d_zero; d_zero; d_zero]
                        (d_lit (16 # 1)) (d_lit (1 # 2)) (d_lit (1 # 1)))) 1
         = @d_one binary64 _)
  /\ nth_D (snd (setPhi 1 (mkV d_zero d_zero SpecFloat.S754_nan)
                    [d_zero; d_zero; d_zero] [d_zero; d_zero; d_zero]
                    (d_lit (16 # 1)) (d_lit (1 # 2)) (d_lit (1 # 1)))) 1
     = @d_zero binary64 _.
Proof.
  assert (Hi : (1 < 3)%nat) by lia.
  split; [exact Hi|].
  destruct (setPhi_spec 1 3 3 Hi Hi) as [Hany Hnan].
  split.
  - exact (proj1 (proj2 (proj2 (proj2
             (Hany binary64 DoubleOps_binary64
                (mkV d_zero d_zero (d_lit (3 # 1)))
                [d_zero; d_zero; d_zero] [d_zero; d_zero; d_zero]
                (d_lit (16 # 1)) (d_lit (1 # 2)) (d_lit (1 # 1))
                eq_refl eq_refl))))).
  - exact (proj2 (Hnan (mkV d_zero d_zero SpecFloat.S754_nan)
                    [d_zero; d_zero; d_zero] [d_zero; d_zero; d_zero]
                    (d_lit (16 # 1)) (d_lit (1 # 2)) (d_lit (1 # 1))
                    eq_refl eq_refl eq_refl)).
Defined.

Lemma symmetrize_conserves_class_sums_witness :
  (1 <= length (sym threefoldReady))%nat
  /\ (classTotal (length (sym threefoldReady))
        (symmetrize threefoldReady [5; 1; 7; 2; 4; 1; 9; 3; 2]%Q)
        (symmIndex threefoldReady) 1
      == classTotal (length (sym threefoldReady))
           [5; 1; 7; 2; 4; 1; 9; 3; 2]%Q (symmIndex threefoldReady) 1)%Q.
Proof.
  assert (Hn : (1 <= length (sym threefoldReady))%nat) by (vm_compute; lia).
  split; [exact Hn|].
  apply (symmetrize_conserves_class_sums threefoldReady
           [5; 1; 7; 2; 4; 1; 9; 3; 2]%Q 1 Hn).
  - apply validTableb_spec. vm_compute. reflexivity.
  - vm_compute. lia.
Defined.

Lemma symmetrizeForces_fixes_symmetric_forces_witness :
  (1 < length (sym threefoldReady))%nat
  /\ exists fsp' v,
       symmetrizeForces threefoldReady pushAlongAxis !! 0%nat = Some fsp' /\
       fsp' !! 1%nat = Some v /\
       veq v (mkV 0 0 1)%Q.
Proof.
  assert (Hn : (1 < length (sym threefoldReady))%nat) by (vm_compute; lia).
  split; [exact Hn|].
  apply (symmetrizeForces_fixes_symmetric_forces threefoldReady pushAlongAxis
           Hn) with (sp := 0%nat) (fsp := [mkV 0 0 1; mkV 0 0 1; mkV 0 0 1]%Q)
                    (atom := 1%nat).
  - intros sp fsp atom iRot Hsp Hatom HiRot.
    destruct sp as [|sp]; [|discriminate Hsp].
    injection Hsp as <-.
    assert (Hatom' : (atom < 3)%nat) by exact Hatom.
    assert (HiRot' : (iRot < 3)%nat) by exact HiRot.
    destruct atom as [|[|[|atom]]]; try lia;
      destruct iRot as [|[|[|iRot]]]; try lia;
      vm_compute; repeat split; discriminate.
  - reflexivity.
  - cbn. lia.
Defined.
